(** * Language Companion: the spaced-repetition scheduler and the card store

    A shallow embedding of [src/utils/constants.py], [src/utils/srs.py] and
    [src/utils/storage.py], of the review session of [src/app/app.py] and of
    the post-processing of [src/agent_core/agent.py], with the properties of
    the scheduling and storage core stated and proved over it.

    Python values are modelled as they reach the code: cards are [dict]s with
    string keys holding JSON values, [float] is IEEE binary64 (Rocq's primitive
    floats), [int] is unbounded ([Z]), and a raised exception is an explicit
    [Raise] result. *)

From Stdlib Require Import ZArith String Ascii Floats.
From stdpp Require Import gmap strings list.

Set Warnings "-register-all,-inexact-float".
Local Open Scope Z_scope.

(** ** Python runtime values *)

Module Py.

(** The built-in exceptions the modelled code can raise. *)
Inductive exn :=
| KeyError | TypeError | ValueError | AttributeError | IndexError | OverflowError
| UnicodeEncodeError.

Inductive result (A : Type) :=
| Ok (a : A)
| Raise (e : exn).
Arguments Ok {A} a.
Arguments Raise {A} e.

#[global] Instance result_ret : MRet result := @Ok.
#[global] Instance result_bind : MBind result := λ A B k r,
  match r with
  | Ok a => k a
  | Raise e => Raise e
  end.

Definition is_ok {A} (r : result A) : bool :=
  match r with Ok _ => true | Raise _ => false end.

(** What [json.loads] produces, and what the code stores in a card. *)
Inductive value :=
| VNone
| VBool (b : bool)
| VInt (z : Z)
| VFloat (f : float)
| VStr (s : string)
| VList (l : list value)
| VDict (d : gmap string value).

(** [bool(v)], as tested by [if not v]. *)
Definition truthy (v : value) : bool :=
  match v with
  | VNone => false
  | VBool b => b
  | VInt z => negb (z =? 0)
  | VFloat f => negb (PrimFloat.eqb f 0%float)
  | VStr s => negb (String.eqb s "")
  | VList l => match l with [] => false | _ => true end
  | VDict d => negb (bool_decide (d = ∅))
  end.

(** [v is None] *)
Definition is_none (v : value) : bool :=
  match v with VNone => true | _ => false end.

(** [d.get(k)] and [d.get(k, default)]. *)
Definition dict_get (d : gmap string value) (k : string) : value :=
  default VNone (d !! k).

Definition dict_get_or (d : gmap string value) (k : string) (dflt : value) : value :=
  default dflt (d !! k).

(** [d[k]]: a missing key raises [KeyError]. *)
Definition dict_item (d : gmap string value) (k : string) : result value :=
  match d !! k with
  | Some v => Ok v
  | None => Raise KeyError
  end.

(** [v[k]] for a string subscript [k] on an arbitrary value: only a [dict]
    accepts it. *)
Definition subscript (v : value) (k : string) : result value :=
  match v with
  | VDict d => dict_item d k
  | _ => Raise TypeError
  end.

(** [d.update(other)]: the keys of [other] win. *)
Definition dict_update (d other : gmap string value) : gmap string value :=
  other ∪ d.

(** The exact integer value of a finite float, truncated towards zero. *)
Definition SF_trunc (x : spec_float) : result Z :=
  match x with
  | S754_zero _ => Ok 0
  | S754_infinity _ => Raise OverflowError
  | S754_nan => Raise ValueError
  | S754_finite s m e =>
      let a := if 0 <=? e then Z.pos m * 2 ^ e else Z.pos m / 2 ^ (- e) in
      Ok (if s then - a else a)
  end.

(** Conversion of an [int] to the nearest binary64 (ties to even); Python
    raises [OverflowError] where the result would be infinite. *)
Definition Z_to_float (z : Z) : result float :=
  match binary_normalize prec emax z 0 false with
  | S754_infinity _ => Raise OverflowError
  | x => Ok (SF2Prim x)
  end.

(** [l[i]] with Python's negative indices. *)
Definition list_item {A} (l : list A) (i : Z) : result A :=
  let n := Z.of_nat (length l) in
  let j := if i <? 0 then i + n else i in
  if (0 <=? j) && (j <? n) then
    match l !! Z.to_nat j with Some x => Ok x | None => Raise IndexError end
  else Raise IndexError.

(** [max(a, b)] and [min(a, b)] on floats: the first argument is kept unless
    the second compares strictly greater (smaller). *)
Definition max_float (a b : float) : float := if PrimFloat.ltb a b then b else a.
Definition min_float (a b : float) : float := if PrimFloat.ltb b a then b else a.

(** *** [datetime]

    The proleptic Gregorian calendar of the [datetime] module: ordinals count
    days from 0001-01-01 (ordinal 1). *)
Record datetime := mk_datetime {
  year : Z; month : Z; day : Z;
  hour : Z; minute : Z; second : Z; microsecond : Z;
  (** [None] for a naive datetime, [Some off] (seconds east of UTC) for an
      aware one. *)
  tzinfo : option Z
}.

Definition MINYEAR : Z := 1.
Definition MAXYEAR : Z := 9999.
Definition MAXORDINAL : Z := 3652059.

Definition is_leap (y : Z) : bool :=
  (y mod 4 =? 0) && (negb (y mod 100 =? 0) || (y mod 400 =? 0)).

Definition days_before_year (y : Z) : Z :=
  let y := y - 1 in y * 365 + y / 4 - y / 100 + y / 400.

Definition DAYS_IN_MONTH : list Z := [31; 28; 31; 30; 31; 30; 31; 31; 30; 31; 30; 31].
Definition DAYS_BEFORE_MONTH : list Z := [0; 31; 59; 90; 120; 151; 181; 212; 243; 273; 304; 334].

Definition days_in_month (y m : Z) : Z :=
  if (m =? 2) && is_leap y then 29 else default 0 (DAYS_IN_MONTH !! Z.to_nat (m - 1)).

Definition days_before_month (y m : Z) : Z :=
  default 0 (DAYS_BEFORE_MONTH !! Z.to_nat (m - 1))
  + (if (2 <? m) && is_leap y then 1 else 0).

Definition ymd2ord (y m d : Z) : Z :=
  days_before_year y + days_before_month y m + d.

Definition DI400Y : Z := 146097.
Definition DI100Y : Z := 36524.
Definition DI4Y : Z := 1461.

(** The month and the day of the month from the day [n] of the year
    (counted from 0): the estimate [(n + 50) >> 5] of the month is either
    exact or one too large. *)
Definition month_day (leapyear : bool) (n : Z) : Z * Z :=
  let m := Z.shiftr (n + 50) 5 in
  let preceding :=
    default 0 (DAYS_BEFORE_MONTH !! Z.to_nat (m - 1))
    + (if (2 <? m) && leapyear then 1 else 0) in
  if n <? preceding then
    let m := m - 1 in
    let preceding :=
      preceding - (default 0 (DAYS_IN_MONTH !! Z.to_nat (m - 1))
                   + (if (m =? 2) && leapyear then 1 else 0)) in
    (m, n - preceding + 1)
  else (m, n - preceding + 1).

Definition ord2ymd (n : Z) : Z * Z * Z :=
  let n := n - 1 in
  let n400 := n / DI400Y in let n := n mod DI400Y in
  let y := n400 * 400 + 1 in
  let n100 := n / DI100Y in let n := n mod DI100Y in
  let n4 := n / DI4Y in let n := n mod DI4Y in
  let n1 := n / 365 in let n := n mod 365 in
  let y := y + n100 * 100 + n4 * 4 + n1 in
  if (n1 =? 4) || (n100 =? 4) then (y - 1, 12, 31)
  else
    let leapyear := (n1 =? 3) && (negb (n4 =? 24) || (n100 =? 3)) in
    let '(m, d) := month_day leapyear n in
    (y, m, d).

(** The fields a constructor call [datetime(y, m, d, ...)] accepts. *)
Definition valid_datetime (dt : datetime) : bool :=
  (MINYEAR <=? year dt) && (year dt <=? MAXYEAR)
  && (1 <=? month dt) && (month dt <=? 12)
  && (1 <=? day dt) && (day dt <=? days_in_month (year dt) (month dt))
  && (0 <=? hour dt) && (hour dt <? 24)
  && (0 <=? minute dt) && (minute dt <? 60)
  && (0 <=? second dt) && (second dt <? 60)
  && (0 <=? microsecond dt) && (microsecond dt <? 1000000).

Definition toordinal (dt : datetime) : Z := ymd2ord (year dt) (month dt) (day dt).

(** [dt + timedelta(days=n)]: the time of day is kept, the date moves by [n]
    days, and a result outside years 1..9999 raises [OverflowError]. *)
Definition add_days (dt : datetime) (n : Z) : result datetime :=
  if 999999999 <? Z.abs n then Raise OverflowError
  else
    let o := toordinal dt + n in
    if (0 <? o) && (o <=? MAXORDINAL) then
      let '(y, m, d) := ord2ymd o in
      Ok (mk_datetime y m d (hour dt) (minute dt) (second dt) (microsecond dt) (tzinfo dt))
    else Raise OverflowError.

(** Field-wise (lexicographic) comparison, as [datetime._cmp] does. *)
Definition fields (dt : datetime) : list Z :=
  [year dt; month dt; day dt; hour dt; minute dt; second dt; microsecond dt].

Fixpoint lex_compare (a b : list Z) : comparison :=
  match a, b with
  | [], [] => Eq
  | [], _ :: _ => Lt
  | _ :: _, [] => Gt
  | x :: a, y :: b => match x ?= y with Eq => lex_compare a b | c => c end
  end.
Arguments lex_compare : simpl never.

(** Microseconds since the epoch of ordinals, in UTC, of an aware datetime. *)
Definition utc_instant (dt : datetime) (off : Z) : Z :=
  (((toordinal dt * 24 + hour dt) * 60 + minute dt) * 60 + second dt - off) * 1000000
  + microsecond dt.

(** [a >= b]: comparing a naive with an aware datetime raises [TypeError]. *)
Definition datetime_ge (a b : datetime) : result bool :=
  match tzinfo a, tzinfo b with
  | None, None => Ok (negb (bool_decide (lex_compare (fields a) (fields b) = Lt)))
  | Some oa, Some ob => Ok (utc_instant b ob <=? utc_instant a oa)
  | _, _ => Raise TypeError
  end.

(** Decimal digits of [n], zero-padded to width [w] (["%0wd"] for
    [0 <= n < 10^w]). *)
Definition digit (n : Z) : ascii := ascii_of_nat (48 + Z.to_nat (n mod 10)).

Fixpoint zfill (w : nat) (n : Z) : string :=
  match w with
  | O => ""
  | S w' => zfill w' (n / 10) +:+ String (digit n) ""
  end.

Definition format_offset (off : Z) : string :=
  let a := Z.abs off in
  (if off <? 0 then "-" else "+") +:+ zfill 2 (a / 3600) +:+ ":" +:+ zfill 2 (a / 60 mod 60)
  +:+ (if a mod 60 =? 0 then "" else ":" +:+ zfill 2 (a mod 60)).

(** [date.isoformat()] and [datetime.isoformat()]. *)
Definition date_isoformat (y m d : Z) : string :=
  zfill 4 y +:+ "-" +:+ zfill 2 m +:+ "-" +:+ zfill 2 d.

Definition time_isoformat (dt : datetime) : string :=
  zfill 2 (hour dt) +:+ ":" +:+ zfill 2 (minute dt) +:+ ":" +:+ zfill 2 (second dt)
  +:+ (if microsecond dt =? 0 then "" else "." +:+ zfill 6 (microsecond dt))
  +:+ match tzinfo dt with None => "" | Some off => format_offset off end.

Definition isoformat (dt : datetime) : string :=
  date_isoformat (year dt) (month dt) (day dt) +:+ "T" +:+ time_isoformat dt.

(** A [str] all of whose characters are ASCII. *)
Definition ascii_char (c : ascii) : bool :=
  match c with Ascii _ _ _ _ _ _ _ b7 => negb b7 end.

Fixpoint ascii_only (s : string) : bool :=
  match s with
  | EmptyString => true
  | String c s => ascii_char c && ascii_only s
  end.

(** The parts of the runtime that the repository only calls and whose exact
    behaviour depends on the interpreter: Unicode lower-casing, the parsers
    of numeric and ISO-8601 literals ([None] stands for the [ValueError] they
    raise), and whether the UTF-8 codec accepts a [str] that is not plain
    ASCII (it refuses a [str] that holds a lone surrogate, as [json.loads]
    makes of an escape such as [\ud800]). *)
Class Runtime := {
  str_lower : string → string;
  str_to_float : string → option float;
  str_to_int : string → option Z;
  parse_isoformat : string → option datetime;
  utf8_encodable : string → bool
}.

Section conversions.
Context `{Runtime}.

(** [float(v)] *)
Definition py_float (v : value) : result float :=
  match v with
  | VFloat f => Ok f
  | VInt z => Z_to_float z
  | VBool b => Ok (if b then 1%float else 0%float)
  | VStr s => match str_to_float s with Some f => Ok f | None => Raise ValueError end
  | VNone | VList _ | VDict _ => Raise TypeError
  end.

(** [int(v)] *)
Definition py_int (v : value) : result Z :=
  match v with
  | VInt z => Ok z
  | VBool b => Ok (if b then 1 else 0)
  | VFloat f => SF_trunc (Prim2SF f)
  | VStr s => match str_to_int s with Some z => Ok z | None => Raise ValueError end
  | VNone | VList _ | VDict _ => Raise TypeError
  end.

(** [datetime.fromisoformat(v)]: the argument must be a [str]. *)
Definition fromisoformat (v : value) : result datetime :=
  match v with
  | VStr s => match parse_isoformat s with Some dt => Ok dt | None => Raise ValueError end
  | _ => Raise TypeError
  end.

(** [v.lower()]: only [str] has the method. *)
Definition lower (v : value) : result string :=
  match v with
  | VStr s => Ok (str_lower s)
  | _ => Raise AttributeError
  end.

(** [s.encode("utf-8")] does not raise: ASCII text always encodes, and other
    text when the codec accepts it. *)
Definition str_encodable (s : string) : bool :=
  ascii_only s || utf8_encodable s.
End conversions.

End Py.

Export Py.

(** ** [src/utils/constants.py] *)

Definition SRS_INTERVALS_DAYS : list Z := [1; 3; 7; 14; 30].
Definition DEFAULT_EASE : float := 2.5%float.
Definition REVIEW_BATCH_SIZE : nat := 15.

(** ** [src/utils/srs.py] *)

Module Srs.
Section srs.
Context `{Runtime}.

(** [_today()]: the clock reading [now] is [datetime.utcnow()]. *)
Definition _today (now : datetime) : datetime :=
  mk_datetime (year now) (month now) (day now) 0 0 0 0 None.

Definition is_due (now : datetime) (card : gmap string value) : bool :=
  let due := dict_get card "due" in
  if negb (truthy due) then true
  else
    match (d ← fromisoformat due; datetime_ge (_today now) d) with
    | Ok b => b
    | Raise _ => true
    end.

(** The [if]/[elif] chain over [quality], giving the new [(step, ease)]. *)
Definition grade (quality : string) (step : Z) (ease : float) : Z * float :=
  let last := Z.of_nat (length SRS_INTERVALS_DAYS) - 1 in
  if String.eqb quality "again" then (0, max_float 1.3 (ease - 0.2))
  else if String.eqb quality "hard" then (step, max_float 1.3 (ease - 0.05))
  else if String.eqb quality "good" then (Z.min (step + 1) last, ease)
  else if String.eqb quality "easy" then
    (Z.min (step + 2) last, min_float 3.0 (ease + 0.05))
  else (Z.min (step + 1) last, ease).

Definition schedule_next (now : datetime) (card : gmap string value) (quality : string)
  : result (gmap string value) :=
  ease ← py_float (dict_get_or card "ease" (VFloat DEFAULT_EASE));
  step ← py_int (dict_get_or card "step" (VInt 0));
  let '(step, ease) := grade quality step ease in
  days ← list_item SRS_INTERVALS_DAYS step;
  next_due ← add_days (_today now) days;
  Ok (<["due" := VStr (isoformat next_due)]>
      (<["ease" := VFloat ease]>
       (<["step" := VInt step]> card))).
End srs.
End Srs.

(** ** [src/utils/storage.py] *)

Module Storage.

(** The file at [SRS_DB_PATH]. Its text is represented by what [json.loads]
    makes of it: [Corrupt raw] is a text on which [json.loads] raises (the
    empty text of an emptied file, for one), [Json v] a text that parses to
    [v], as the text of [json.dumps(v)] does once it is written. *)
Inductive content :=
| Corrupt (raw : string)
| Json (v : value).

Record disk := mk_disk {
  parent_exists : bool;       (* the directory [src/data] exists *)
  db_file : option content    (* [None]: no file at the path *)
}.

Definition empty_schema : value :=
  VDict {[ "lessons" := VList []; "cards" := VList [] ]}.

(** [path.parent.mkdir(parents=True, exist_ok=True)], then the file is
    created with the empty schema when it does not exist. *)
Definition _ensure_file (d : disk) : disk :=
  match db_file d with
  | None => mk_disk true (Some (Json empty_schema))
  | Some c => mk_disk true (Some c)
  end.

Definition load_db (d : disk) : value * disk :=
  let d := _ensure_file d in
  match db_file d with
  | Some (Json v) => (v, d)
  | _ => (empty_schema, d)
  end.

(** *** Identity keys

    A key is the tuple [(term.lower(), lang)]; tuples are looked up in the
    index by hash and [==]. *)
Definition key : Type := string * value.

Definition hashable (v : value) : bool :=
  match v with VList _ | VDict _ => false | _ => true end.

(** [float == int], exactly. *)
Definition float_eq_Z (f : float) (z : Z) : bool :=
  match Prim2SF f with
  | S754_zero _ => z =? 0
  | S754_finite s m e =>
      let v := if s then Z.neg m else Z.pos m in
      if 0 <=? e then z =? v * 2 ^ e
      else (v mod 2 ^ (- e) =? 0) && (z =? v / 2 ^ (- e))
  | _ => false
  end.

Definition bool_to_Z (b : bool) : Z := if b then 1 else 0.

(** [a == b] on hashable values. *)
Definition py_eq (a b : value) : bool :=
  match a, b with
  | VNone, VNone => true
  | VStr s, VStr t => String.eqb s t
  | VBool x, VBool y => bool_to_Z x =? bool_to_Z y
  | VBool x, VInt y => bool_to_Z x =? y
  | VInt x, VBool y => x =? bool_to_Z y
  | VInt x, VInt y => x =? y
  | VFloat f, VFloat g => PrimFloat.eqb f g
  | VFloat f, VInt z | VInt z, VFloat f => float_eq_Z f z
  | VFloat f, VBool b | VBool b, VFloat f => float_eq_Z f (bool_to_Z b)
  | _, _ => false
  end.

Definition key_eqb (k1 k2 : key) : bool :=
  String.eqb k1.1 k2.1 && py_eq k1.2 k2.2.

(** The dict [existing], from keys to positions. *)
Definition index : Type := list (key * nat).

Fixpoint index_get (k : key) (ix : index) : option nat :=
  match ix with
  | [] => None
  | (k', i) :: ix => if key_eqb k' k then Some i else index_get k ix
  end.

(** [existing[k] = i]: an equal key is overwritten, a new one is added. *)
Fixpoint index_set (k : key) (i : nat) (ix : index) : index :=
  match ix with
  | [] => [(k, i)]
  | (k', j) :: ix => if key_eqb k' k then (k', i) :: ix else (k', j) :: index_set k i ix
  end.

Section storage.
Context `{Runtime}.

(** Whether the text [json.dumps(v, ensure_ascii=False, indent=2)] encodes
    to UTF-8. With [ensure_ascii=False] every [str] of [v], the keys of its
    dicts included, is written as it is, so the text encodes exactly when
    each of them does. *)
Fixpoint encodable (v : value) : bool :=
  match v with
  | VStr s => str_encodable s
  | VList l => forallb encodable l
  | VDict d => map_fold (λ k w acc, str_encodable k && encodable w && acc) true d
  | VNone | VBool _ | VInt _ | VFloat _ => true
  end.

(** [save_db(db)]: [json.dumps] builds the whole text, then [write_text]
    opens the file for writing, which empties it, and encodes the text. When
    the codec refuses the text it raises [UnicodeEncodeError] with nothing
    written, and the file is left empty: a text on which [json.loads]
    raises. *)
Definition save_db (db : value) (d : disk) : result () * disk :=
  let d := _ensure_file d in
  if encodable db then (Ok (), mk_disk (parent_exists d) (Some (Json db)))
  else (Raise UnicodeEncodeError, mk_disk (parent_exists d) (Some (Corrupt ""))).

(** [(c["term"].lower(), c.get("lang", "auto"))] used as a dict key. *)
Definition card_key (c : gmap string value) : result key :=
  t ← dict_item c "term";
  s ← lower t;
  let l := dict_get_or c "lang" (VStr "auto") in
  if hashable l then Ok (s, l) else Raise TypeError.

(** The same on an element of [db["cards"]], which may be any value. *)
Definition value_key (c : value) : result key :=
  match c with
  | VDict d => card_key d
  | _ => Raise TypeError
  end.

(** The elements [enumerate(v)] goes through. A [str] yields its
    characters and a [dict] its keys, all of them [str]s. *)
Definition py_iter (v : value) : result (list value) :=
  match v with
  | VList l => Ok l
  | VStr s => Ok ((λ c, VStr (String c "")) <$> list_ascii_of_string s)
  | VDict d => Ok ((λ kv, VStr kv.1) <$> map_to_list d)
  | VNone | VBool _ | VInt _ | VFloat _ => Raise TypeError
  end.

(** The dict comprehension that builds [existing]. *)
Fixpoint build_index (i : nat) (cs : list value) (ix : index) : result index :=
  match cs with
  | [] => Ok ix
  | c :: cs => k ← value_key c; build_index (S i) cs (index_set k i ix)
  end.

(** [{k: v for k, v in new_card.items() if v is not None}] *)
Definition non_null (c : gmap string value) : gmap string value :=
  filter (λ kv, is_none kv.2 = false) c.

(** [db["cards"][idx].update(fields)] *)
Definition update_at (cards : value) (idx : nat) (fields : gmap string value)
  : result value :=
  match cards with
  | VList l =>
      match l !! idx with
      | Some (VDict c) => Ok (VList (<[idx := VDict (dict_update c fields)]> l))
      | Some _ => Raise AttributeError
      | None => Raise IndexError
      end
  | VDict _ => Raise KeyError
  | VStr _ => Raise AttributeError
  | _ => Raise TypeError
  end.

(** [db["cards"].append(new_card)] *)
Definition append (cards : value) (new_card : gmap string value) : result value :=
  match cards with
  | VList l => Ok (VList (l ++ [VDict new_card]))
  | _ => Raise AttributeError
  end.

(** One turn of the [for new_card in new_cards] loop. *)
Definition upsert_one (existing : index) (st : value * Z) (new_card : gmap string value)
  : result (value * Z) :=
  let '(cards, count) := st in
  k ← card_key new_card;
  cards ← match index_get k existing with
          | Some idx => update_at cards idx (non_null new_card)
          | None => append cards new_card
          end;
  Ok (cards, count + 1).

Fixpoint upsert_loop (existing : index) (st : value * Z)
  (new_cards : list (gmap string value)) : result (value * Z) :=
  match new_cards with
  | [] => Ok st
  | c :: cs => st ← upsert_one existing st c; upsert_loop existing st cs
  end.

(** The body of [upsert_cards] between [load_db] and [save_db]: the new
    value of [db] and the count. *)
Definition upsert_in_memory (db : value) (new_cards : list (gmap string value))
  : result (value * Z) :=
  cards ← subscript db "cards";
  items ← py_iter cards;
  existing ← build_index 0 items [];
  '(cards, count) ← upsert_loop existing (cards, 0) new_cards;
  match db with
  | VDict m => Ok (VDict (<["cards" := cards]> m), count)
  | _ => Raise TypeError
  end.

Definition upsert_cards (new_cards : list (gmap string value)) (d : disk)
  : result Z * disk :=
  let '(db, d) := load_db d in
  match upsert_in_memory db new_cards with
  | Ok (db, count) =>
      match save_db db d with
      | (Ok _, d) => (Ok count, d)
      | (Raise e, d) => (Raise e, d)
      end
  | Raise e => (Raise e, d)
  end.
End storage.
End Storage.

(** ** [src/app/app.py]: the review session

    The two places of the Streamlit script that use the scheduler and the
    store: the list of due cards shown in a session and the callback [_grade]
    behind the four grade buttons. The widgets themselves are not modelled;
    [st.session_state["_review_idx"]] is the field [review_idx]. *)

Module App.
Import Storage.

(** [a == b] on any two values that [json.loads] produces: lists compare
    element by element, dicts by their size and by the values under the keys
    of the first. *)
Fixpoint value_eq (a b : value) {struct a} : bool :=
  match a, b with
  | VList l1, VList l2 =>
      (fix list_eq (l1 l2 : list value) {struct l1} : bool :=
         match l1, l2 with
         | [], [] => true
         | x :: l1, y :: l2 => value_eq x y && list_eq l1 l2
         | _, _ => false
         end) l1 l2
  | VDict d1, VDict d2 =>
      (size d1 =? size d2)%nat
      && map_fold (λ k v acc,
                     acc && match d2 !! k with
                            | Some w => value_eq v w
                            | None => false
                            end) true d1
  | VList _, _ | VDict _, _ | _, VList _ | _, VDict _ => false
  | _, _ => py_eq a b
  end.

(** What a grading touches: the document on disk and the position in the
    session. *)
Record session := mk_session {
  store : disk;
  review_idx : Z
}.

Section app.
Context `{Runtime}.

(** [is_due(c)] on an element of [db["cards"]]: only a dict has [get]. *)
Definition is_due_value (now : datetime) (c : value) : result bool :=
  match c with
  | VDict card => Ok (Srs.is_due now card)
  | _ => Raise AttributeError
  end.

(** [[c for c in cards if is_due(c)]]. Each call of [is_due] reads the clock
    at most once; [now_at i] is the reading that the check of the element at
    position [i] gets. *)
Fixpoint due_filter (now_at : nat → datetime) (i : nat) (items : list value)
  : result (list value) :=
  match items with
  | [] => Ok []
  | c :: items =>
      b ← is_due_value (now_at i) c;
      rest ← due_filter now_at (S i) items;
      Ok (if b : bool then c :: rest else rest)
  end.

(** [due_cards = [c for c in db["cards"] if is_due(c)][:REVIEW_BATCH_SIZE]] *)
Definition due_cards (now_at : nat → datetime) (db : value) : result (list value) :=
  cards ← subscript db "cards";
  items ← py_iter cards;
  due ← due_filter now_at 0 items;
  Ok (take REVIEW_BATCH_SIZE due).

(** The test of the [if] in [_grade]:
    [dc["term"].lower() == card["term"].lower()
     and dc.get("lang", "auto") == card.get("lang", "auto")],
    for the card [card] of the session, which is a dict. *)
Definition same_card (dc : value) (card : gmap string value) : result bool :=
  match dc with
  | VDict d =>
      t ← dict_item d "term";
      a ← lower t;
      t' ← dict_item card "term";
      b ← lower t';
      Ok (String.eqb a b
          && value_eq (dict_get_or d "lang" (VStr "auto"))
                      (dict_get_or card "lang" (VStr "auto")))
  | _ => Raise TypeError
  end.

(** The [for j, dc in enumerate(db2["cards"])] loop with its [break]: the
    position and the rescheduled card of the first match, if any. *)
Fixpoint grade_loop (now : datetime) (card : gmap string value) (q : string)
  (j : nat) (items : list value) : result (option (nat * gmap string value)) :=
  match items with
  | [] => Ok None
  | dc :: items =>
      same ← same_card dc card;
      if same : bool then
        match dc with
        | VDict d => d' ← Srs.schedule_next now d q; Ok (Some (j, d'))
        | _ => Raise TypeError
        end
      else grade_loop now card q (S j) items
  end.

(** The body of [_grade] between [load_db] and [save_db]. The assignment
    [db2["cards"][j] = ...] is reached only when an element of [db2["cards"]]
    is a dict, that is when [db2["cards"]] is a list. *)
Definition grade_in_memory (now : datetime) (card : gmap string value) (q : string)
  (db2 : value) : result value :=
  cards ← subscript db2 "cards";
  items ← py_iter cards;
  hit ← grade_loop now card q 0 items;
  match hit, cards, db2 with
  | None, _, _ => Ok db2
  | Some (j, d'), VList l, VDict m =>
      Ok (VDict (<["cards" := VList (<[j := VDict d']> l)]> m))
  | Some _, _, _ => Raise TypeError
  end.

(** [_grade(q)], for the card [card] shown in the session; on an exception
    the position is not advanced, and nothing is saved unless it is [save_db]
    that raises. *)
Definition _grade (now : datetime) (card : gmap string value) (q : string) (s : session)
  : result () * session :=
  let '(db2, d) := load_db (store s) in
  match grade_in_memory now card q db2 with
  | Ok db2 =>
      match save_db db2 d with
      | (Ok _, d) => (Ok (), mk_session d (review_idx s + 1))
      | (Raise e, d) => (Raise e, mk_session d (review_idx s))
      end
  | Raise e => (Raise e, mk_session d (review_idx s))
  end.
End app.
End App.

(** ** [src/agent_core/agent.py]: what [extract_vocab_json] does with the
    model's answer *)

Module Agent.

(** The library calls made on the text the model returned: [json.loads]
    ([None] when it raises) and the two regular expression searches, each
    giving the stripped text of the group the code takes ([None] when there
    is no match). *)
Class TextRuntime := {
  json_loads : string → option value;
  search_fenced : string → option string;
  search_array : string → option string
}.

Section agent.
Context `{TextRuntime}.

Definition _try_json_load (s : string) : option (list value) :=
  match json_loads s with
  | Some (VList l) => Some l
  | _ => None
  end.

(** [not parsed], for [parsed] a list or [None]. *)
Definition not_parsed (parsed : option (list value)) : bool :=
  match parsed with
  | Some (_ :: _) => false
  | _ => true
  end.

(** The three attempts at reading a JSON array out of [raw_text] (a [str]),
    and the final [data = parsed if parsed else []]. *)
Definition parse_vocab (raw_text : string) : list value :=
  let parsed := _try_json_load raw_text in
  let parsed :=
    if not_parsed parsed then
      match search_fenced raw_text with
      | Some s => _try_json_load s
      | None => parsed
      end
    else parsed in
  let parsed :=
    if not_parsed parsed then
      match search_array raw_text with
      | Some s => _try_json_load s
      | None => parsed
      end
    else parsed in
  if not_parsed parsed then [] else default [] parsed.

(** [for d in data: d["lang"] = lang]: only a dict accepts the assignment. *)
Fixpoint attach_lang (lang : string) (data : list value)
  : result (list (gmap string value)) :=
  match data with
  | [] => Ok []
  | VDict d :: data =>
      rest ← attach_lang lang data;
      Ok (<["lang" := VStr lang]> d :: rest)
  | _ :: _ => Raise TypeError
  end.

(** [extract_vocab_json], from the detected language [lang] and the text
    [raw_text] of the model's answer on. *)
Definition extract_vocab_json (lang raw_text : string)
  : result (list (gmap string value)) :=
  attach_lang lang (parse_vocab raw_text).
End agent.
End Agent.

(** ** A sample runtime

    An instance of [Runtime] for evaluating the code on concrete inputs. It
    agrees with CPython (3.7 and later) on the strings it accepts: ASCII
    letters for [lower], plain decimal literals for [int] and [float], and for
    [fromisoformat] the shapes [date.isoformat()] and [datetime.isoformat()]
    produce. The interpreters accept more (other Unicode letters, other
    literal syntax); the statements below that hold for every [Runtime] do not
    depend on this instance. A [str] that is not plain ASCII is read as the
    bytes of UTF-8, in which a surrogate shows as the byte 237 followed by a
    byte from 160 to 191. *)

Module Sample.

Definition lower_ascii (c : ascii) : ascii :=
  let n := nat_of_ascii c in
  if ((65 <=? n) && (n <=? 90))%nat then ascii_of_nat (n + 32) else c.

Definition ascii_lower (s : string) : string :=
  string_of_list_ascii (lower_ascii <$> list_ascii_of_string s).

Definition digit_value (c : ascii) : option Z :=
  let n := nat_of_ascii c in
  if ((48 <=? n) && (n <=? 57))%nat then Some (Z.of_nat (n - 48)) else None.

Fixpoint digits_value (acc : Z) (l : list ascii) : option Z :=
  match l with
  | [] => Some acc
  | c :: l => d ← digit_value c; digits_value (acc * 10 + d) l
  end.

(** A non-empty string of decimal digits. *)
Definition decimal (s : string) : option Z :=
  match list_ascii_of_string s with
  | [] => None
  | l => digits_value 0 l
  end.

(** [int(s)] on an optional sign followed by digits. *)
Definition parse_int (s : string) : option Z :=
  match s with
  | String "-" s => Z.opp <$> decimal s
  | String "+" s => decimal s
  | _ => decimal s
  end.

(** [float(s)] on an integer literal or on digits, a point and digits: the
    quotient of two integers that binary64 represents exactly is rounded
    once, as the conversion of the literal is. *)
Definition exact_float (z : Z) : option spec_float :=
  if Z.abs z <? 2 ^ 53 then Some (binary_normalize prec emax z 0 false) else None.

Definition parse_decimal_float (int_part frac_part : string) : option float :=
  n ← decimal (int_part +:+ frac_part);
  a ← exact_float n;
  let k := Z.of_nat (String.length frac_part) in
  if k <=? 22 then
    Some (SF2Prim (SFdiv prec emax a (binary_normalize prec emax (10 ^ k) 0 false)))
  else None.

Fixpoint split_at_point (s : string) : string * option string :=
  match s with
  | "" => ("", None)
  | String "." rest => ("", Some rest)
  | String c rest => let '(a, b) := split_at_point rest in (String c a, b)
  end.

Definition parse_float (s : string) : option float :=
  let '(neg, body) :=
    match s with
    | String "-" r => (true, r)
    | String "+" r => (false, r)
    | _ => (false, s)
    end in
  let '(a, b) := split_at_point body in
  f ← parse_decimal_float a (default "" b);
  Some (if neg then (- f)%float else f).

(** ["YYYY-MM-DD"] *)
Definition parse_date (s : string) : option (Z * Z * Z) :=
  if ((String.length s =? 10)%nat
      && bool_decide (String.get 4 s = Some "-"%char)
      && bool_decide (String.get 7 s = Some "-"%char))
  then
    y ← decimal (substring 0 4 s);
    m ← decimal (substring 5 2 s);
    d ← decimal (substring 8 2 s);
    Some (y, m, d)
  else None.

(** ["HH:MM:SS"], optionally followed by [".ffffff"] *)
Definition parse_time (s : string) : option (Z * Z * Z * Z) :=
  let n := String.length s in
  if (((n =? 8) || (n =? 15))%nat
      && bool_decide (String.get 2 s = Some ":"%char)
      && bool_decide (String.get 5 s = Some ":"%char))
  then
    h ← decimal (substring 0 2 s);
    m ← decimal (substring 3 2 s);
    sec ← decimal (substring 6 2 s);
    us ← (if (n =? 8)%nat then Some 0
          else if bool_decide (String.get 8 s = Some "."%char)
               then decimal (substring 9 6 s) else None);
    Some (h, m, sec, us)
  else None.

(** ["+HH:MM"] or ["-HH:MM"], in seconds east of UTC *)
Definition parse_offset (s : string) : option Z :=
  if ((String.length s =? 6)%nat && bool_decide (String.get 3 s = Some ":"%char))
  then
    sign ← match String.get 0 s with
           | Some "+"%char => Some 1
           | Some "-"%char => Some (-1)
           | _ => None
           end;
    h ← decimal (substring 1 2 s);
    m ← decimal (substring 4 2 s);
    if (h <? 24) && (m <? 60) then Some (sign * (h * 3600 + m * 60)) else None
  else None.

Definition has_offset (t : string) : bool :=
  let n := String.length t in ((n =? 14) || (n =? 21))%nat.

Definition parse_isoformat (s : string) : option datetime :=
  let n := String.length s in
  '(y, m, d) ← parse_date (substring 0 10 s);
  '(h, mi, sec, us, tz) ←
    (if (n =? 10)%nat then Some (0, 0, 0, 0, None)
     else if (n <? 12)%nat then None
     else
       let t := substring 11 (n - 11) s in
       let tn := String.length t in
       if has_offset t then
         '(h, mi, sec, us) ← parse_time (substring 0 (tn - 6) t);
         off ← parse_offset (substring (tn - 6) 6 t);
         Some (h, mi, sec, us, Some off)
       else
         '(h, mi, sec, us) ← parse_time t;
         Some (h, mi, sec, us, None));
  let dt := mk_datetime y m d h mi sec us tz in
  if valid_datetime dt then Some dt else None.

(** No surrogate among the code points of a UTF-8 text. *)
Fixpoint no_surrogate (s : string) : bool :=
  match s with
  | String c ((String c' _) as rest) =>
      negb ((nat_of_ascii c =? 237)%nat
            && (160 <=? nat_of_ascii c')%nat && (nat_of_ascii c' <=? 191)%nat)
      && no_surrogate rest
  | _ => true
  end.

Definition runtime : Runtime := {|
  str_lower := ascii_lower;
  str_to_float := parse_float;
  str_to_int := parse_int;
  Py.parse_isoformat := parse_isoformat;
  utf8_encodable := no_surrogate
|}.

End Sample.

(** ** Concrete inputs *)

Module Example.

(** A clock reading: 2026-11-03 10:30:00 UTC. *)
Definition now : datetime := mk_datetime 2026 11 3 10 30 0 0 None.

(** A card that has never been graded, as extraction produces it. *)
Definition haus : gmap string value :=
  {[ "term" := VStr "Haus"; "translation" := VStr "house"; "lang" := VStr "German" ]}.

(** The same term extracted again, with another translation and a null
    part of speech. *)
Definition haus_again : gmap string value :=
  {[ "term" := VStr "HAUS"; "translation" := VStr "home"; "lang" := VStr "German";
     "pos" := VNone ]}.

(** An item without a [term]. *)
Definition nameless : gmap string value :=
  {[ "translation" := VStr "tree"; "lang" := VStr "German" ]}.

(** A graded card. *)
Definition graded : gmap string value :=
  {[ "term" := VStr "Haus"; "lang" := VStr "German";
     "ease" := VFloat 2.5; "step" := VInt 1; "due" := VStr "2026-11-01T00:00:00" ]}.

(** A card whose step is past the end of the ladder. *)
Definition off_ladder : gmap string value :=
  {[ "term" := VStr "Haus"; "ease" := VFloat 2.5; "step" := VInt 5 ]}.


(** No document on disk, and a store holding the graded card. *)
Definition no_file : Storage.disk := Storage.mk_disk false None.

Definition graded_store : Storage.disk :=
  Storage.mk_disk true
    (Some (Storage.Json (VDict {[ "lessons" := VList []; "cards" := VList [VDict graded] ]}))).

End Example.

(** ** Further concrete inputs *)

Module Scenario.
Import Storage.

(** A later clock reading: 2026-12-24 08:00:00 UTC. *)
Definition later : datetime := mk_datetime 2026 12 24 8 0 0 0 None.

(** A second term, as extraction produces it. *)
Definition baum : gmap string value :=
  {[ "term" := VStr "Baum"; "translation" := VStr "tree"; "lang" := VStr "German" ]}.

(** A card whose step was stored as [-1], and one whose ease is null. *)
Definition wrapped : gmap string value :=
  {[ "term" := VStr "Haus"; "ease" := VFloat 2.5; "step" := VInt (-1) ]}.

Definition null_ease : gmap string value :=
  {[ "term" := VStr "Haus"; "ease" := VNone ]}.

(** A card whose due value is noon of 2026-11-03. *)
Definition due_at_noon : gmap string value :=
  {[ "term" := VStr "Haus"; "due" := VStr "2026-11-03T12:00:00" ]}.

(** A card that is not due before 2027. *)
Definition scheduled : gmap string value :=
  {[ "term" := VStr "Baum"; "lang" := VStr "German";
     "ease" := VFloat 2.5; "step" := VInt 4; "due" := VStr "2027-01-15T00:00:00" ]}.

(** What grading "good" on 2026-11-03 makes of the graded card and of the
    never-graded one. *)
Definition graded_good : gmap string value :=
  <["due" := VStr "2026-11-10T00:00:00"]>
    (<["ease" := VFloat 2.5]> (<["step" := VInt 2]> Example.graded)).

Definition haus_good : gmap string value :=
  <["due" := VStr "2026-11-06T00:00:00"]>
    (<["ease" := VFloat 2.5]> (<["step" := VInt 1]> Example.haus)).

(** The document with the given cards and no lessons, and a disk holding
    it. *)
Definition document (cards : list value) : gmap string value :=
  {[ "lessons" := VList []; "cards" := VList cards ]}.

Definition store_of (cards : list value) : disk :=
  mk_disk true (Some (Json (VDict (document cards)))).

(** Two cards; two cards with the same identity key; a card followed by an
    element without a [term]. *)
Definition two_cards : list value := [VDict Example.graded; VDict scheduled].
Definition same_key_twice : list value := [VDict Example.graded; VDict Example.haus].
Definition with_nameless : list value := [VDict Example.graded; VDict Example.nameless].

(** The lone surrogate U+D800, as [json.loads] makes it of the escape
    [\ud800], and an item whose translation holds it. *)
Definition surrogate : string := String "237" (String "160" (String "128" "")).

Definition garbled : gmap string value :=
  {[ "term" := VStr "Baum"; "translation" := VStr surrogate; "lang" := VStr "German" ]}.

(** The text [[{"term": "Baum"}]] of an answer of the model, written with
    the code of the quotation mark. *)
Definition quoted (s : string) : string := String "034" (s +:+ String "034" "").

Definition answer : string := "[{" +:+ quoted "term" +:+ ": " +:+ quoted "Baum" +:+ "}]".

(** A sample of the text functions: [json.loads] on five short texts, none
    of which holds a fenced block or a bracketed array of objects other than
    itself. *)
Definition known_json : list (string * value) :=
  [(answer, VList [VDict {[ "term" := VStr "Baum" ]}]);
   ("[{}]", VList [VDict ∅]); ("[]", VList []); ("{}", VDict ∅); ("null", VNone)].

Definition text_runtime : Agent.TextRuntime := {|
  Agent.json_loads s := snd <$> find (λ p, String.eqb p.1 s) known_json;
  Agent.search_fenced _ := None;
  Agent.search_array _ := None
|}.

End Scenario.

(** ** The specification's vocabulary *)

Module Spec.

(** The grades of the transition table of the scheduler; a string that is
    none of the four names is [Unrecognized]. *)
Inductive grade := Again | Hard | Good | Easy | Unrecognized.

Definition grade_of (quality : string) : grade :=
  if decide (quality = "again") then Again
  else if decide (quality = "hard") then Hard
  else if decide (quality = "good") then Good
  else if decide (quality = "easy") then Easy
  else Unrecognized.

(** The step column of the table, for a ladder of length [K]. *)
Definition step_transition (g : grade) (K step : Z) : Z :=
  match g with
  | Again => 0
  | Hard => step
  | Good | Unrecognized => Z.min (step + 1) (K - 1)
  | Easy => Z.min (step + 2) (K - 1)
  end.

(** The ease column of the table. *)
Definition ease_transition (g : grade) (ease : float) : float :=
  match g with
  | Again => max_float 1.3 (ease - 0.2)
  | Hard => max_float 1.3 (ease - 0.05)
  | Good | Unrecognized => ease
  | Easy => min_float 3.0 (ease + 0.05)
  end.

(** The length [K] of the interval ladder. *)
Definition K : Z := Z.of_nat (length SRS_INTERVALS_DAYS).

(** [ease ∈ [1.3, 3.0]], in binary64 comparisons. *)
Definition ease_in_range (e : float) : Prop :=
  (1.3 <=? e)%float = true ∧ (e <=? 3.0)%float = true.

Definition step_in_range (s : Z) : Prop := 0 <= s < K.

Section cards.
Context `{Runtime}.

(** The ease and the step a card enters the transition with: the default
    when the field is missing, the converted field otherwise. *)
Inductive ease_of (card : gmap string value) : float → Prop :=
| ease_missing : card !! "ease" = None → ease_of card DEFAULT_EASE
| ease_given v e : card !! "ease" = Some v → py_float v = Ok e → ease_of card e.

Inductive step_of (card : gmap string value) : Z → Prop :=
| step_missing : card !! "step" = None → step_of card 0
| step_given v s : card !! "step" = Some v → py_int v = Ok s → step_of card s.

(** The invariant of the data model on the scheduling fields. *)
Definition card_in_range (card : gmap string value) : Prop :=
  ∃ e s, ease_of card e ∧ step_of card s ∧ ease_in_range e ∧ step_in_range s.

(** Grading a card several times, each time at its own clock reading. *)
Fixpoint schedule_seq (card : gmap string value) (l : list (datetime * string))
  : result (gmap string value) :=
  match l with
  | [] => Ok card
  | (now, q) :: l => card ← Srs.schedule_next now card q; schedule_seq card l
  end.
End cards.

Section store.
Context `{Runtime}.

(** An item or a stored card whose identity key can be computed: it has a
    [term] that is a string (and a [lang], if any, that can be hashed). *)
Definition keyed (c : gmap string value) : Prop :=
  is_ok (Storage.card_key c) = true.

Definition keyed_value (c : value) : Prop :=
  is_ok (Storage.value_key c) = true.

(** A store document of the shape [{..., "cards": [card, ...]}] whose
    cards all have an identity key. *)
Definition well_formed (db : value) (m : gmap string value) (cs : list value) : Prop :=
  db = VDict m ∧ m !! "cards" = Some (VList cs) ∧ Forall keyed_value cs.

(** The position in the store that an incoming item is merged into, if
    any: the one its identity key has in the index. *)
Definition target (existing : Storage.index) (item : gmap string value) : option nat :=
  match Storage.card_key item with
  | Ok k => Storage.index_get k existing
  | Raise _ => None
  end.

(** No two cards of the store share an identity key. *)
Definition identity_unique (cs : list value) : Prop :=
  ∀ i j ci cj ki kj,
    cs !! i = Some ci → cs !! j = Some cj →
    Storage.value_key ci = Ok ki → Storage.value_key cj = Ok kj →
    Storage.key_eqb ki kj = true → i = j.
End store.

Section identities.
Context `{Runtime}.

(** The identity key of the data model, [(lowercase(term), lang or "auto")],
    of a card whose term is a string and whose lang is a string or absent. *)
Definition identity (c : gmap string value) : option (string * string) :=
  match c !! "term", dict_get_or c "lang" (VStr "auto") with
  | Some (VStr t), VStr l => Some (str_lower t, l)
  | _, _ => None
  end.

(** The identity keys of the cards of a store, in order. *)
Definition ids (cs : list value) : list (option (string * string)) :=
  (λ v, match v with VDict c => identity c | _ => None end) <$> cs.

(** The incoming items whose identity key no card of the store has. *)
Definition fresh (cs : list value) (new : list (gmap string value))
  : list (gmap string value) :=
  filter (λ a, identity a ∉ ids cs) new.
End identities.

(** Such an identity key as the tuple the code hashes, and an index all of
    whose keys are of this kind. *)
Definition skey (k : string * string) : Storage.key := (k.1, VStr k.2).

Definition sindex (ix : Storage.index) : Prop := Forall (λ e, ∃ k, e.1 = skey k) ix.

(** Merging one incoming field into a stored one: a non-null incoming value
    overwrites, a null or missing one leaves the stored field as it is. *)
Definition merge_field (old new : option value) : option value :=
  match new with
  | Some v => if is_none v then old else Some v
  | None => old
  end.

(** The field [f] of the card at position [i] after the items of a call
    have been processed in order. *)
Definition merged_field `{Runtime} (existing : Storage.index) (i : nat) (f : string)
  (old : option value) (items : list (gmap string value)) : option value :=
  foldl (λ acc item,
           if decide (target existing item = Some i)
           then merge_field acc (item !! f) else acc)
        old items.

(** A clock reading from which [30] days can be added: a valid date before
    the last representable year. *)
Definition clock_ok (now : datetime) : Prop :=
  valid_datetime now = true ∧ year now < MAXYEAR.

(** A point in time as a number of microseconds, for naive datetimes. *)
Definition timestamp (dt : datetime) : Z :=
  (((toordinal dt * 24 + hour dt) * 60 + minute dt) * 60 + second dt) * 1000000
  + microsecond dt.

End Spec.

(** ** Vocabulary for the store as a whole *)

Module Deck.
Import Storage.

(** The document [m] with the cards [cs] is what [load_db] reads from [d]. *)
Definition stored (d : disk) (m : gmap string value) (cs : list value) : Prop :=
  (load_db d).1 = VDict m ∧ m !! "cards" = Some (VList cs).

Definition is_dict (v : value) : bool :=
  match v with VDict _ => true | _ => false end.

Section deck.
Context `{Runtime}.

(** The incoming items that [upsert_cards] appends: those whose key the
    index does not hold. *)
Definition appended (existing : index) (new : list (gmap string value))
  : list (gmap string value) :=
  filter (λ item, Spec.target existing item = None) new.

(** Several calls of [upsert_cards] in a row. *)
Fixpoint upsert_calls (calls : list (list (gmap string value))) (d : disk)
  : list (result Z) * disk :=
  match calls with
  | [] => ([], d)
  | new :: calls =>
      let '(r, d) := upsert_cards new d in
      let '(rs, d) := upsert_calls calls d in
      (r :: rs, d)
  end.

(** A stored card that is due at the clock reading [now]. *)
Definition due_now (now : datetime) (v : value) : bool :=
  match v with VDict c => Srs.is_due now c | _ => false end.

(** A stored card whose scheduling fields satisfy the invariant of the data
    model. *)
Definition in_range (v : value) : Prop :=
  ∃ c, v = VDict c ∧ Spec.card_in_range c.

(** The term of an item in lower case, when it is a string. *)
Definition lower_term (a : gmap string value) : option string :=
  match a !! "term" with
  | Some (VStr t) => Some (str_lower t)
  | _ => None
  end.
End deck.
End Deck.

(** ** A measure of the ease *)

Module Ease.

(** The value of a positive finite float in units of [2^-57], in which
    every ease between 1.3 and 3.0 and the constants 0.2 and 0.05 of the
    scheduler are whole numbers. *)
Definition scaled (e : float) : Z :=
  match Prim2SF e with
  | S754_finite false m ex => Z.pos m * 2 ^ (ex + 57)
  | _ => 0
  end.

End Ease.

(** * Proofs *)

(** ** Binary64 arithmetic on the ease range

    The operations of primitive floats are specified by [SpecFloat]; the
    lemmas below bound the rounded results of [ease - 0.2], [ease - 0.05] and
    [ease + 0.05] for an ease between 1.3 and 3.0. *)

Ltac fold_Z :=
  change IntDef.Z.max with Z.max in *; change IntDef.Z.min with Z.min in *;
  change IntDef.Z.add with Z.add in *; change IntDef.Z.sub with Z.sub in *;
  change IntDef.Z.opp with Z.opp in *; change IntDef.Z.mul with Z.mul in *;
  change IntDef.Z.compare with Z.compare in *; change IntDef.Z.leb with Z.leb in *;
  change IntDef.Z.eqb with Z.eqb in *.

Ltac unfold_fexp :=
  unfold fexp, SpecFloat.emin, prec, emax in *; fold_Z.

Lemma digits2_pos_size p : digits2_pos p = Pos.size p.
Proof. induction p; simpl; congruence. Qed.

Lemma digits2_pos_log2 p : Z.pos (digits2_pos p) = Z.log2 (Z.pos p) + 1.
Proof.
  rewrite digits2_pos_size. destruct p; simpl; try reflexivity; rewrite Pos2Z.inj_succ; lia.
Qed.

Lemma digits2_pos_unique p d :
  0 < d → 2 ^ (d - 1) <= Z.pos p < 2 ^ d → Z.pos (digits2_pos p) = d.
Proof.
  intros Hd Hp. rewrite digits2_pos_log2.
  rewrite (Z.log2_unique (Z.pos p) (d - 1)); [lia | lia |].
  replace (Z.succ (d - 1)) with d by lia. exact Hp.
Qed.

Lemma shr_1_m r : 0 <= shr_m r → shr_m (shr_1 r) = shr_m r / 2.
Proof.
  destruct r as [m rb sb]; simpl. intros Hm.
  destruct m as [|[p|p|]|p]; cbn [shr_m]; try lia; try reflexivity.
  - apply Z.div_unique with 1; lia.
  - apply Z.div_unique with 0; lia.
Qed.

Lemma iter_shr_1_m p : ∀ r, 0 <= shr_m r →
  0 <= shr_m (SpecFloat.iter_pos shr_1 p r) ∧
  shr_m (SpecFloat.iter_pos shr_1 p r) = shr_m r / 2 ^ Z.pos p.
Proof.
  induction p as [p IH|p IH|]; intros r Hr; cbn [SpecFloat.iter_pos].
  - destruct (IH (shr_1 r)) as [H1 E1]; [rewrite shr_1_m by done; apply Z.div_pos; lia|].
    destruct (IH _ H1) as [H2 E2]. split; [done|].
    rewrite E2, E1, shr_1_m, !Z.div_div by (try apply Z.pow_pos_nonneg; lia).
    f_equal. rewrite (Pos2Z.inj_xI p), Z.pow_add_r, Z.pow_mul_r by lia.
    rewrite Z.pow_1_r, Z.pow_2_r, Z.pow_mul_l. lia.
  - destruct (IH r Hr) as [H1 E1]. destruct (IH _ H1) as [H2 E2]. split; [done|].
    rewrite E2, E1, !Z.div_div by (try apply Z.pow_pos_nonneg; lia).
    f_equal. rewrite (Pos2Z.inj_xO p), Z.pow_mul_r, Z.pow_2_r, Z.pow_mul_l by lia. lia.
  - rewrite shr_1_m by done. split; [apply Z.div_pos; lia | by rewrite Z.pow_1_r].
Qed.

Lemma digits2_pos_bounds p :
  2 ^ (Z.pos (digits2_pos p) - 1) <= Z.pos p < 2 ^ Z.pos (digits2_pos p).
Proof.
  rewrite digits2_pos_log2.
  pose proof (Z.log2_spec (Z.pos p) ltac:(lia)) as H.
  replace (Z.log2 (Z.pos p) + 1 - 1) with (Z.log2 (Z.pos p)) by lia.
  replace (Z.log2 (Z.pos p) + 1) with (Z.succ (Z.log2 (Z.pos p))) by lia. exact H.
Qed.

Lemma round_nearest_even_bounds m l :
  m <= round_nearest_even m l <= m + 1.
Proof.
  unfold round_nearest_even. destruct l as [|[]]; try destruct (Z.even m); lia.
Qed.

(** Rounding a positive integer [N] of more than 53 bits to binary64: the
    result is finite and within one unit in the last place of [N]. *)
Lemma binary_round_aux_bounds (N : positive) (e d : Z) :
  Z.pos (digits2_pos N) = d → 53 < d →
  -1074 <= e + d - 53 → e + d - 53 < 971 →
  ∃ R e', binary_round_aux prec emax false (Z.pos N) e loc_Exact = S754_finite false R e' ∧
    ((e' = e + (d - 53)
      ∧ Z.pos N - 2 ^ (d - 53) < 2 ^ (d - 53) * Z.pos R <= Z.pos N + 2 ^ (d - 53)
      ∧ Z.pos R < 2 ^ 53)
     ∨ (e' = e + (d - 53) + 1 ∧ Z.pos R = 2 ^ 52
        ∧ 2 ^ (d - 53) * (2 ^ 53 - 1) <= Z.pos N)).
Proof.
  intros Hd Hgt Hmin Hmax.
  pose proof (digits2_pos_bounds N) as HN. rewrite Hd in HN.
  assert (Hs : ∃ p, d - 53 = Z.pos p) by (destruct (d - 53) eqn:E; [lia | eauto | lia]).
  destruct Hs as [p Hp].
  unfold binary_round_aux, shr_fexp. cbn [Zdigits2]. rewrite Hd.
  replace (fexp prec emax (d + e) - e) with (Z.pos p) by (unfold_fexp; lia).
  cbn [shr shr_record_of_loc].
  destruct (iter_shr_1_m p {| shr_m := Z.pos N; shr_r := false; shr_s := false |})
    as [_ Hm]; [cbn; lia|]. cbn [shr_m] in Hm.
  set (r1 := SpecFloat.iter_pos shr_1 p _) in *.
  pose proof (round_nearest_even_bounds (shr_m r1) (loc_of_shr_record r1)) as HR0.
  set (R0 := round_nearest_even _ _) in *.
  rewrite Hp.
  assert (Hpow : 2 ^ (d - 1) = 2 ^ 52 * 2 ^ Z.pos p ∧ 2 ^ d = 2 ^ 53 * 2 ^ Z.pos p).
  { rewrite <- !Z.pow_add_r by lia. split; f_equal; lia. }
  destruct Hpow as [Hp1 Hp2].
  assert (Hpp : 0 < 2 ^ Z.pos p) by (apply Z.pow_pos_nonneg; lia).
  assert (Hm1 : 2 ^ 52 <= shr_m r1 < 2 ^ 53).
  { rewrite Hm. split.
    - apply Z.div_le_lower_bound; lia.
    - apply Z.div_lt_upper_bound; lia. }
  assert (Hdiv : 2 ^ Z.pos p * shr_m r1 <= Z.pos N < 2 ^ Z.pos p * (shr_m r1 + 1)).
  { rewrite Hm. split.
    - apply Z.mul_div_le; lia.
    - replace (Z.pos N / 2 ^ Z.pos p + 1) with (Z.succ (Z.pos N / 2 ^ Z.pos p)) by lia.
      apply Z.mul_succ_div_gt; lia. }
  clear Hm. generalize dependent (2 ^ Z.pos p). intros P Hp1 Hp2 Hpp Hdiv.
  destruct R0 as [|R|R] eqn:ER0; [lia| |lia].
  destruct (Z.eq_dec (Z.pos R) (2 ^ 53)) as [Heq|Hne].
  - assert (R = 9007199254740992%positive) as -> by lia.
    change (Zdigits2 (Z.pos 9007199254740992)) with 54.
    replace (fexp prec emax (54 + (e + Z.pos p)) - (e + Z.pos p)) with 1
      by (unfold_fexp; lia).
    cbn [shr shr_record_of_loc SpecFloat.iter_pos shr_1 shr_m orb].
    replace (e + Z.pos p + 1 <=? emax - prec) with true
      by (symmetry; apply Z.leb_le; unfold prec, emax; lia).
    eexists _, _. split; [reflexivity|]. right.
    split; [lia | split; [reflexivity | nia]].
  - assert (HdR : Z.pos (digits2_pos R) = 53) by (apply digits2_pos_unique; lia).
    cbn [Zdigits2]. rewrite HdR.
    replace (fexp prec emax (53 + (e + Z.pos p)) - (e + Z.pos p)) with 0
      by (unfold_fexp; lia).
    cbn [shr shr_record_of_loc shr_m].
    replace (e + Z.pos p <=? emax - prec) with true
      by (symmetry; apply Z.leb_le; unfold prec, emax; lia).
    eexists _, _. split; [reflexivity|]. left.
    split; [lia | split; [nia | lia]].
Qed.

Lemma binary_normalize_round_aux (N : positive) (e d : Z) :
  Z.pos (digits2_pos N) = d → 53 < d → -1074 <= e + d - 53 →
  binary_normalize prec emax (Z.pos N) e false
  = binary_round_aux prec emax false (Z.pos N) e loc_Exact.
Proof.
  intros Hd Hgt Hmin. unfold binary_normalize, binary_round, shl_align. rewrite Hd.
  replace (fexp prec emax (d + e) - e) with (d - 53)
    by (unfold_fexp; lia).
  destruct (d - 53) eqn:E; try lia; reflexivity.
Qed.

Lemma ease_in_range_SF (e : float) :
  Spec.ease_in_range e →
  ∃ m ex, Prim2SF e = S754_finite false m ex ∧
    ((ex = -52 ∧ 5854679515581645 <= Z.pos m < 2 ^ 53)
     ∨ (ex = -51 ∧ 2 ^ 52 <= Z.pos m <= 6755399441055744)).
Proof.
  intros [Hlo Hhi]. rewrite leb_spec in Hlo, Hhi.
  pose proof (Prim2SF_valid e) as Hv.
  change (Prim2SF 1.3) with (S754_finite false 5854679515581645 (-52)) in Hlo.
  change (Prim2SF 3.0) with (S754_finite false 6755399441055744 (-51)) in Hhi.
  destruct (Prim2SF e) as [s|s| |s m ex];
    [destruct s; discriminate | destruct s; discriminate | discriminate |].
  exists m, ex. unfold SFleb, SFcompare in Hlo, Hhi.
  destruct s; [discriminate|]. split; [reflexivity|].
  change (Pos.compare_cont Eq) with Pos.compare in *. fold_Z.
  cbn [valid_binary] in Hv. unfold bounded, canonical_mantissa in Hv.
  apply andb_prop in Hv as [Hc _]. apply Z.eqb_eq in Hc.
  destruct (-52 ?= ex) eqn:C1;
    [apply Z.compare_eq_iff in C1; subst ex
    |change (-52 < ex) in C1 | discriminate].
  - left. split; [reflexivity|].
    assert (Z.pos (digits2_pos m) = 53) as Hd
      by (unfold_fexp; lia).
    pose proof (digits2_pos_bounds m) as Hm. rewrite Hd in Hm.
    rewrite Pos2Z.inj_compare in Hlo.
    destruct (Z.compare_spec 5854679515581645 (Z.pos m)); try discriminate; lia.
  - destruct (ex ?= -51) eqn:C2;
      [apply Z.compare_eq_iff in C2; subst ex
      |change (ex < -51) in C2; lia | discriminate].
    right. split; [reflexivity|].
    assert (Z.pos (digits2_pos m) = 53) as Hd
      by (unfold_fexp; lia).
    pose proof (digits2_pos_bounds m) as Hm. rewrite Hd in Hm.
    rewrite Pos2Z.inj_compare in Hhi.
    destruct (Z.compare_spec (Z.pos m) 6755399441055744); try discriminate; lia.
Qed.

Lemma SFleb_finite_pos (m1 m2 : positive) (e1 e2 : Z) :
  e1 < e2 ∨ (e1 = e2 ∧ Z.pos m1 <= Z.pos m2) →
  SFleb (S754_finite false m1 e1) (S754_finite false m2 e2) = true.
Proof.
  intros Hc. unfold SFleb, SFcompare. fold_Z.
  change (Pos.compare_cont Eq) with Pos.compare. rewrite Pos2Z.inj_compare.
  destruct (Z.compare_spec e1 e2); [|reflexivity|lia].
  destruct (Z.compare_spec (Z.pos m1) (Z.pos m2)); [reflexivity|reflexivity|lia].
Qed.

Ltac round_to N e d :=
  let Hd := fresh "Hd" in
  assert (Hd : Z.pos (digits2_pos N) = d) by (apply digits2_pos_unique; lia);
  rewrite (binary_normalize_round_aux N e d Hd) by lia;
  let R := fresh "R" in let e' := fresh "e'" in
  let HR := fresh "HR" in let Hlt := fresh "Hlt" in let Hov := fresh "Hov" in
  destruct (binary_round_aux_bounds N e d Hd) as
    (R & e' & -> & [(-> & HR & Hlt) | (-> & HR & Hov)]); [lia | lia | lia | |];
  (let v := eval vm_compute in (2 ^ (d - 53)) in change (2 ^ (d - 53)) with v in *);
  apply SFleb_finite_pos; lia.

Lemma sub_02_le_3 (e : float) : Spec.ease_in_range e → (e - 0.2 <=? 3.0)%float = true.
Proof.
  intros H. destruct (ease_in_range_SF e H) as (m & ex & Hm & [[-> Hb] | [-> Hb]]);
    rewrite leb_spec, sub_spec, Hm;
    change (Prim2SF 0.2) with (S754_finite false 7205759403792794 (-55));
    change (Prim2SF 3.0) with (S754_finite false 6755399441055744 (-51)).
  - change (SF64sub _ _) with
      (binary_normalize prec emax (Z.pos m~0~0~0 - 7205759403792794) (-55) false).
    destruct (Z.pos m~0~0~0 - 7205759403792794) as [|N|N] eqn:EN; [lia| |lia].
    round_to N (-55) 56.
  - change (SF64sub _ _) with
      (binary_normalize prec emax (Z.pos m~0~0~0~0 - 7205759403792794) (-55) false).
    destruct (Z.pos m~0~0~0~0 - 7205759403792794) as [|N|N] eqn:EN; [lia| |lia].
    destruct (Z_lt_le_dec (Z.pos N) (2 ^ 56)).
    + round_to N (-55) 56.
    + round_to N (-55) 57.
Qed.

Lemma sub_005_le_3 (e : float) : Spec.ease_in_range e → (e - 0.05 <=? 3.0)%float = true.
Proof.
  intros H. destruct (ease_in_range_SF e H) as (m & ex & Hm & [[-> Hb] | [-> Hb]]);
    rewrite leb_spec, sub_spec, Hm;
    change (Prim2SF 0.05) with (S754_finite false 7205759403792794 (-57));
    change (Prim2SF 3.0) with (S754_finite false 6755399441055744 (-51)).
  - change (SF64sub _ _) with
      (binary_normalize prec emax (Z.pos m~0~0~0~0~0 - 7205759403792794) (-57) false).
    destruct (Z.pos m~0~0~0~0~0 - 7205759403792794) as [|N|N] eqn:EN; [lia| |lia].
    round_to N (-57) 58.
  - change (SF64sub _ _) with
      (binary_normalize prec emax (Z.pos m~0~0~0~0~0~0 - 7205759403792794) (-57) false).
    destruct (Z.pos m~0~0~0~0~0~0 - 7205759403792794) as [|N|N] eqn:EN; [lia| |lia].
    destruct (Z_lt_le_dec (Z.pos N) (2 ^ 58)).
    + round_to N (-57) 58.
    + round_to N (-57) 59.
Qed.

Lemma add_005_ge_13 (e : float) : Spec.ease_in_range e → (1.3 <=? e + 0.05)%float = true.
Proof.
  intros H. destruct (ease_in_range_SF e H) as (m & ex & Hm & [[-> Hb] | [-> Hb]]);
    rewrite leb_spec, add_spec, Hm;
    change (Prim2SF 0.05) with (S754_finite false 7205759403792794 (-57));
    change (Prim2SF 1.3) with (S754_finite false 5854679515581645 (-52)).
  - change (SF64add _ _) with
      (binary_normalize prec emax (Z.pos m~0~0~0~0~0 + 7205759403792794) (-57) false).
    destruct (Z.pos m~0~0~0~0~0 + 7205759403792794) as [|N|N] eqn:EN; [lia| |lia].
    destruct (Z_lt_le_dec (Z.pos N) (2 ^ 58)).
    + round_to N (-57) 58.
    + round_to N (-57) 59.
  - change (SF64add _ _) with
      (binary_normalize prec emax (Z.pos m~0~0~0~0~0~0 + 7205759403792794) (-57) false).
    destruct (Z.pos m~0~0~0~0~0~0 + 7205759403792794) as [|N|N] eqn:EN; [lia| |lia].
    destruct (Z_lt_le_dec (Z.pos N) (2 ^ 59)).
    + round_to N (-57) 59.
    + round_to N (-57) 60.
Qed.

Lemma ltb_leb (a b : float) : (a <? b)%float = true → (a <=? b)%float = true.
Proof.
  rewrite ltb_spec, leb_spec. unfold SFltb, SFleb.
  destruct (SFcompare _ _) as [[]|]; congruence.
Qed.

Lemma max_float_in_range (a : float) :
  (a <=? 3.0)%float = true → Spec.ease_in_range (max_float 1.3 a).
Proof.
  intros Ha. unfold max_float. destruct (1.3 <? a)%float eqn:E.
  - split; [by apply ltb_leb | done].
  - split; reflexivity.
Qed.

Lemma min_float_in_range (a : float) :
  (1.3 <=? a)%float = true → Spec.ease_in_range (min_float 3.0 a).
Proof.
  intros Ha. unfold min_float. destruct (a <? 3.0)%float eqn:E.
  - split; [done | by apply ltb_leb].
  - split; reflexivity.
Qed.

(** Every row of the ease column keeps the ease between 1.3 and 3.0. *)
Lemma ease_transition_in_range (g : Spec.grade) (e : float) :
  Spec.ease_in_range e → Spec.ease_in_range (Spec.ease_transition g e).
Proof.
  intros He. destruct g; cbn [Spec.ease_transition]; try done.
  - by apply max_float_in_range, sub_02_le_3.
  - by apply max_float_in_range, sub_005_le_3.
  - by apply min_float_in_range, add_005_ge_13.
Qed.

Lemma step_transition_in_range (g : Spec.grade) (s : Z) :
  Spec.step_in_range s → Spec.step_in_range (Spec.step_transition g Spec.K s).
Proof.
  unfold Spec.step_in_range. change Spec.K with 5.
  destruct g; cbn [Spec.step_transition]; lia.
Qed.

(** ** The calendar *)

Lemma days_before_year_succ (y : Z) :
  days_before_year (y + 1) = days_before_year y + (if is_leap y then 366 else 365).
Proof.
  unfold days_before_year, is_leap.
  replace (y + 1 - 1) with y by lia.
  destruct (Z.eqb_spec (y mod 4) 0), (Z.eqb_spec (y mod 100) 0),
    (Z.eqb_spec (y mod 400) 0); cbn [andb orb negb];
    Z.div_mod_to_equations; lia.
Qed.

Lemma days_before_year_add (y : Z) (n : nat) :
  days_before_year y + 365 * Z.of_nat n <= days_before_year (y + Z.of_nat n).
Proof.
  induction n as [|n IH].
  - replace (y + Z.of_nat 0) with y by lia. lia.
  - replace (y + Z.of_nat (S n)) with (y + Z.of_nat n + 1) by lia.
    rewrite days_before_year_succ. destruct (is_leap _); lia.
Qed.

Lemma days_before_year_mono (y1 y2 : Z) :
  y1 <= y2 → days_before_year y1 + 365 * (y2 - y1) <= days_before_year y2.
Proof.
  intros Hle. pose proof (days_before_year_add y1 (Z.to_nat (y2 - y1))) as Hadd.
  rewrite Z2Nat.id in Hadd by lia. by replace (y1 + (y2 - y1)) with y2 in Hadd by lia.
Qed.

Lemma valid_datetime_fields (dt : datetime) :
  valid_datetime dt = true →
  1 <= year dt <= 9999 ∧ 1 <= month dt <= 12
  ∧ 1 <= day dt <= days_in_month (year dt) (month dt)
  ∧ 0 <= hour dt < 24 ∧ 0 <= minute dt < 60 ∧ 0 <= second dt < 60
  ∧ 0 <= microsecond dt < 1000000.
Proof.
  unfold valid_datetime, MINYEAR, MAXYEAR. rewrite !andb_true_iff. lia.
Qed.

Ltac month_cases m :=
  assert (m = 1 ∨ m = 2 ∨ m = 3 ∨ m = 4 ∨ m = 5 ∨ m = 6 ∨ m = 7 ∨ m = 8 ∨ m = 9
          ∨ m = 10 ∨ m = 11 ∨ m = 12) as Hmonth by lia;
  destruct Hmonth as [->|[->|[->|[->|[->|[->|[->|[->|[->|[->|[->| ->]]]]]]]]]]].

Ltac eval_tables :=
  repeat match goal with
    | |- context [default 0 (?l !! ?i)] =>
        let v := eval vm_compute in (default 0 (l !! i)) in
        change (default 0 (l !! i)) with v
    | H : context [default 0 (?l !! ?i)] |- _ =>
        let v := eval vm_compute in (default 0 (l !! i)) in
        change (default 0 (l !! i)) with v in H
    end.

(** The ordinal of a valid date lies within its year. *)
Lemma ymd2ord_within_year (y m d : Z) :
  1 <= m <= 12 → 1 <= d <= days_in_month y m →
  days_before_year y < ymd2ord y m d <= days_before_year (y + 1).
Proof.
  intros Hm Hd. rewrite days_before_year_succ. unfold ymd2ord.
  unfold days_in_month in Hd. unfold days_before_month.
  month_cases m; destruct (is_leap y); cbn [andb Z.eqb Z.ltb Pos.eqb Z.compare Pos.compare Pos.compare_cont] in *;
    eval_tables; lia.
Qed.

Lemma days_before_year_decomp (a b c e : Z) :
  0 <= b <= 3 → 0 <= c <= 24 → 0 <= e <= 3 →
  days_before_year (400 * a + 100 * b + 4 * c + e + 1)
  = 146097 * a + 36524 * b + 1461 * c + 365 * e.
Proof.
  intros Hb Hc He. unfold days_before_year.
  replace (400 * a + 100 * b + 4 * c + e + 1 - 1) with (400 * a + 100 * b + 4 * c + e) by lia.
  Z.div_mod_to_equations. lia.
Qed.

Lemma is_leap_decomp (a b c e : Z) :
  0 <= b <= 3 → 0 <= c <= 24 → 0 <= e <= 3 →
  is_leap (400 * a + 100 * b + 4 * c + e + 1)
  = (e =? 3) && (negb (c =? 24) || (b =? 3)).
Proof.
  intros Hb Hc He. unfold is_leap.
  destruct (Z.eqb_spec e 3), (Z.eqb_spec c 24), (Z.eqb_spec b 3); cbn [andb orb negb];
    repeat match goal with
      | |- context [?x =? 0] => destruct (Z.eqb_spec x 0)
      end; cbn [andb orb negb]; try reflexivity; exfalso; Z.div_mod_to_equations; lia.
Qed.

Ltac calendar_cases :=
  repeat (eval_tables;
          match goal with
          | |- context [?a <? ?b] => destruct (Z.ltb_spec a b)
          | |- context [?a =? ?b] => destruct (Z.eqb_spec a b)
          | _ : context [?a <? ?b] |- _ => destruct (Z.ltb_spec a b)
          | _ : context [?a =? ?b] |- _ => destruct (Z.eqb_spec a b)
          end; cbn [andb orb negb] in *);
  eval_tables; lia.

Lemma month_day_spec (leapyear : bool) (r : Z) :
  0 <= r < 365 →
  let '(m, d) := month_day leapyear r in
  1 <= m <= 12
  ∧ 1 <= d <= (if (m =? 2) && leapyear then 29
               else default 0 (DAYS_IN_MONTH !! Z.to_nat (m - 1)))
  ∧ default 0 (DAYS_BEFORE_MONTH !! Z.to_nat (m - 1))
    + (if (2 <? m) && leapyear then 1 else 0) + d = r + 1.
Proof.
  intros Hr. unfold month_day. rewrite Z.shiftr_div_pow2 by lia.
  change (2 ^ 5) with 32.
  assert (1 <= (r + 50) / 32 <= 12) as Hm by (Z.div_mod_to_equations; lia).
  assert (32 * ((r + 50) / 32) <= r + 50 < 32 * ((r + 50) / 32) + 32) as Hq
    by (Z.div_mod_to_equations; lia).
  generalize dependent ((r + 50) / 32). intros m Hm Hq.
  month_cases m; destruct leapyear; calendar_cases.
Qed.

Lemma ord2ymd_spec (n : Z) :
  1 <= n →
  ∃ y m d, ord2ymd n = (y, m, d) ∧ 1 <= m <= 12 ∧ 1 <= d <= days_in_month y m
           ∧ ymd2ord y m d = n.
Proof.
  intros Hn. unfold ord2ymd.
  set (n0 := n - 1). set (a := n0 / DI400Y). set (r1 := n0 mod DI400Y).
  set (b := r1 / DI100Y). set (r2 := r1 mod DI100Y).
  set (c := r2 / DI4Y). set (r3 := r2 mod DI4Y).
  set (e := r3 / 365). set (r := r3 mod 365).
  assert (n = 146097 * a + 36524 * b + 1461 * c + 365 * e + r + 1
          ∧ 0 <= b <= 4 ∧ 0 <= c <= 24 ∧ 0 <= e <= 4 ∧ 0 <= r < 365
          ∧ (b = 4 → c = 0 ∧ e = 0 ∧ r = 0) ∧ (e = 4 → r = 0 ∧ c <= 23))
    as (Hdec & Hb & Hc & He & Hr & Hb4 & He4).
  { subst a r1 b r2 c r3 e r n0. unfold DI400Y, DI100Y, DI4Y.
    Z.div_mod_to_equations. lia. }
  clearbody a b c e r. clear n0 r1 r2 r3.
  destruct (Z.eqb_spec e 4) as [->|He'].
  - destruct He4 as [-> Hc']; [done|]. cbn [orb].
    eexists _, _, _. split; [reflexivity|]. unfold ymd2ord, days_in_month, days_before_month.
    replace (a * 400 + 1 + b * 100 + c * 4 + 4 - 1) with (400 * a + 100 * b + 4 * c + 3 + 1) by lia.
    assert (b ≠ 4) by lia.
    rewrite days_before_year_decomp, is_leap_decomp by lia.
    calendar_cases.
  - destruct (Z.eqb_spec b 4) as [->|Hb'].
    + destruct Hb4 as (-> & -> & ->); [done|]. cbn [orb].
      eexists _, _, _. split; [reflexivity|]. unfold ymd2ord, days_in_month, days_before_month.
      replace (a * 400 + 1 + 4 * 100 + 0 * 4 + 0 - 1) with (400 * a + 100 * 3 + 4 * 24 + 3 + 1) by lia.
      rewrite days_before_year_decomp, is_leap_decomp by lia.
      calendar_cases.
    + cbn [orb]. pose proof (month_day_spec ((e =? 3) && (negb (c =? 24) || (b =? 3))) r Hr) as Hmd.
      destruct (month_day _ r) as [m d]. destruct Hmd as (Hm & Hd & Hsum).
      exists (a * 400 + 1 + b * 100 + c * 4 + e), m, d. split; [reflexivity|].
      unfold ymd2ord, days_in_month, days_before_month.
      replace (a * 400 + 1 + b * 100 + c * 4 + e) with (400 * a + 100 * b + 4 * c + e + 1) by lia.
      rewrite days_before_year_decomp, is_leap_decomp by lia.
      split; [done|]. split; [done|]. lia.
Qed.

Lemma ord2ymd_year (n y m d : Z) :
  1 <= n <= MAXORDINAL → 1 <= m <= 12 → 1 <= d <= days_in_month y m →
  ymd2ord y m d = n → 1 <= y <= 9999.
Proof.
  intros Hn Hm Hd Ho. pose proof (ymd2ord_within_year y m d Hm Hd) as Hb.
  unfold MAXORDINAL in Hn. split.
  - destruct (Z_le_gt_dec 1 y); [done|].
    pose proof (days_before_year_mono (y + 1) 1 ltac:(lia)) as H1.
    change (days_before_year 1) with 0 in H1. lia.
  - destruct (Z_le_gt_dec y 9999); [done|].
    pose proof (days_before_year_mono 10000 y ltac:(lia)) as H1.
    change (days_before_year 10000) with 3652059 in H1. lia.
Qed.

(** [dt + timedelta(days=n)], when it returns, is the valid date [n] days
    after [dt] at the same time of day. *)
Lemma add_days_spec (dt dt' : datetime) (n : Z) :
  add_days dt n = Ok dt' →
  toordinal dt' = toordinal dt + n
  ∧ 1 <= year dt' <= 9999 ∧ 1 <= month dt' <= 12
  ∧ 1 <= day dt' <= days_in_month (year dt') (month dt')
  ∧ hour dt' = hour dt ∧ minute dt' = minute dt ∧ second dt' = second dt
  ∧ microsecond dt' = microsecond dt ∧ tzinfo dt' = tzinfo dt.
Proof.
  unfold add_days. destruct (999999999 <? Z.abs n); [done|].
  destruct (Z.ltb_spec 0 (toordinal dt + n)); [|done].
  destruct (Z.leb_spec (toordinal dt + n) MAXORDINAL); [|done]. cbn [andb].
  destruct (ord2ymd_spec (toordinal dt + n)) as (y & m & d & -> & Hm & Hd & Ho); [lia|].
  pose proof (ord2ymd_year (toordinal dt + n) y m d ltac:(lia) Hm Hd Ho).
  intros [= <-]. cbn. unfold toordinal; cbn. done.
Qed.

Lemma add_days_raise (dt : datetime) (n : Z) (e : exn) :
  add_days dt n = Raise e → e = OverflowError.
Proof.
  unfold add_days. destruct (999999999 <? Z.abs n); [congruence|].
  destruct ((0 <? toordinal dt + n) && (toordinal dt + n <=? MAXORDINAL)); [|congruence].
  by destruct (ord2ymd _) as [[y m] d].
Qed.

Lemma toordinal_bounds (dt : datetime) :
  valid_datetime dt = true →
  days_before_year (year dt) < toordinal dt <= days_before_year (year dt + 1).
Proof.
  intros Hv. apply valid_datetime_fields in Hv. unfold toordinal.
  apply ymd2ord_within_year; lia.
Qed.

(** A valid date before year 9999 has an ordinal to which the largest ladder
    interval can still be added. *)
Lemma clock_ok_ordinal (now : datetime) :
  Spec.clock_ok now → 0 < toordinal now ∧ toordinal now + 30 <= MAXORDINAL.
Proof.
  intros [Hv Hy]. pose proof (toordinal_bounds now Hv) as Hb.
  apply valid_datetime_fields in Hv. unfold MAXYEAR in Hy.
  pose proof (days_before_year_mono 1 (year now) ltac:(lia)) as H1.
  pose proof (days_before_year_mono (year now + 1) 9999 ltac:(lia)) as H2.
  change (days_before_year 1) with 0 in H1.
  change (days_before_year 9999) with 3651694 in H2.
  unfold MAXORDINAL. lia.
Qed.

(** ** The scheduler *)

Section srs_proofs.
Context `{Runtime}.

Implicit Types (card : gmap string value) (now : datetime) (q : string).

(** The [if]/[elif] chain is the transition table of the specification. *)
Lemma grade_table q (s : Z) (e : float) :
  Srs.grade q s e
  = (Spec.step_transition (Spec.grade_of q) Spec.K s,
     Spec.ease_transition (Spec.grade_of q) e).
Proof.
  unfold Srs.grade, Spec.grade_of. change (Z.of_nat _ - 1) with (Spec.K - 1).
  destruct (String.eqb_spec q "again"); [by rewrite decide_True|rewrite decide_False by done].
  destruct (String.eqb_spec q "hard"); [by rewrite decide_True|rewrite decide_False by done].
  destruct (String.eqb_spec q "good"); [by rewrite decide_True|rewrite decide_False by done].
  destruct (String.eqb_spec q "easy"); [by rewrite decide_True|rewrite decide_False by done].
  done.
Qed.

Lemma ease_of_get card (e : float) :
  Spec.ease_of card e ↔ py_float (dict_get_or card "ease" (VFloat DEFAULT_EASE)) = Ok e.
Proof.
  unfold dict_get_or. split.
  - intros [Hm|v e' Hv Hf]; [by rewrite Hm | by rewrite Hv].
  - destruct (card !! "ease") as [v|] eqn:E; cbn.
    + intros Hf. by eapply Spec.ease_given.
    + intros [= <-]. by apply Spec.ease_missing.
Qed.

Lemma step_of_get card (s : Z) :
  Spec.step_of card s ↔ py_int (dict_get_or card "step" (VInt 0)) = Ok s.
Proof.
  unfold dict_get_or. split.
  - intros [Hm|v s' Hv Hf]; [by rewrite Hm | by rewrite Hv].
  - destruct (card !! "step") as [v|] eqn:E; cbn.
    + intros Hf. by eapply Spec.step_given.
    + intros [= <-]. by apply Spec.step_missing.
Qed.

(** What a returning call of [schedule_next] went through. *)
Lemma schedule_next_inv now card q card' :
  Srs.schedule_next now card q = Ok card' →
  ∃ e s days next_due,
    Spec.ease_of card e ∧ Spec.step_of card s
    ∧ list_item SRS_INTERVALS_DAYS (Spec.step_transition (Spec.grade_of q) Spec.K s) = Ok days
    ∧ add_days (Srs._today now) days = Ok next_due
    ∧ card' = <["due" := VStr (isoformat next_due)]>
              (<["ease" := VFloat (Spec.ease_transition (Spec.grade_of q) e)]>
               (<["step" := VInt (Spec.step_transition (Spec.grade_of q) Spec.K s)]> card)).
Proof.
  unfold Srs.schedule_next.
  destruct (py_float _) as [e|] eqn:He; [|done].
  destruct (py_int _) as [s|] eqn:Hs; [|done]. cbn.
  rewrite grade_table.
  destruct (list_item _ _) as [days|] eqn:Hd; [|done]. cbn.
  destruct (add_days _ _) as [nd|] eqn:Hn; [|done]. cbn.
  intros [= <-]. exists e, s, days, nd.
  by rewrite ease_of_get, step_of_get.
Qed.

Lemma ladder_item (i : Z) :
  Spec.step_in_range i →
  ∃ days, list_item SRS_INTERVALS_DAYS i = Ok days ∧ 0 <= days <= 30.
Proof.
  unfold Spec.step_in_range. change Spec.K with 5. intros Hi.
  assert (i = 0 ∨ i = 1 ∨ i = 2 ∨ i = 3 ∨ i = 4) as [->|[->|[->|[->| ->]]]] by lia;
    (eexists; split; [reflexivity|lia]).
Qed.

Lemma add_days_today now (days : Z) :
  Spec.clock_ok now → 0 <= days <= 30 →
  ∃ nd, add_days (Srs._today now) days = Ok nd.
Proof.
  intros Hc Hd. apply clock_ok_ordinal in Hc. unfold add_days.
  change (toordinal (Srs._today now)) with (toordinal now).
  rewrite (proj2 (Z.ltb_ge _ _)) by lia.
  replace ((0 <? toordinal now + days) && (toordinal now + days <=? MAXORDINAL))
    with true by (symmetry; apply andb_true_iff; split; [apply Z.ltb_lt|apply Z.leb_le]; lia).
  destruct (ord2ymd _) as [[y m] d]. by eexists.
Qed.

(** With the scheduling fields readable, the step within the ladder and a
    clock before year 9999, [schedule_next] returns. *)
Lemma schedule_next_ok now card q (e : float) (s : Z) :
  Spec.ease_of card e → Spec.step_of card s → Spec.step_in_range s →
  Spec.clock_ok now →
  ∃ card', Srs.schedule_next now card q = Ok card'.
Proof.
  intros He Hs Hr Hc. unfold Srs.schedule_next.
  apply ease_of_get in He as ->. apply step_of_get in Hs as ->. cbn.
  rewrite grade_table.
  destruct (ladder_item (Spec.step_transition (Spec.grade_of q) Spec.K s))
    as (days & -> & Hdays); [by apply step_transition_in_range|]. cbn.
  destruct (add_days_today now days Hc Hdays) as (nd & ->). cbn. eauto.
Qed.
End srs_proofs.

Lemma string_length_app (s1 s2 : string) :
  String.length (s1 +:+ s2) = (String.length s1 + String.length s2)%nat.
Proof.
  induction s1 as [|c s1 IH]; [reflexivity|].
  change (S (String.length (s1 +:+ s2)) = S (String.length s1 + String.length s2)).
  by rewrite IH.
Qed.

Lemma zfill_length (w : nat) (n : Z) : String.length (zfill w n) = w.
Proof.
  revert n. induction w as [|w IH]; intros n; [done|]. cbn [zfill].
  rewrite string_length_app, IH. cbn [String.length]. lia.
Qed.

Lemma date_isoformat_length (y m d : Z) : String.length (date_isoformat y m d) = 10%nat.
Proof.
  unfold date_isoformat. rewrite !string_length_app, !zfill_length. done.
Qed.

Lemma due_text_length (y m d : Z) :
  String.length (date_isoformat y m d +:+ "T00:00:00") = 19%nat.
Proof. by rewrite string_length_app, date_isoformat_length. Qed.

Section scheduler_claims.
Context `{Runtime}.

Implicit Types (card : gmap string value) (now : datetime) (q : string).

Lemma ease_of_fun card (e1 e2 : float) :
  Spec.ease_of card e1 → Spec.ease_of card e2 → e1 = e2.
Proof. rewrite !ease_of_get. congruence. Qed.

Lemma step_of_fun card (s1 s2 : Z) :
  Spec.step_of card s1 → Spec.step_of card s2 → s1 = s2.
Proof. rewrite !step_of_get. congruence. Qed.

Lemma py_float_raise (v : value) (e : exn) :
  py_float v = Raise e → e ≠ IndexError.
Proof.
  destruct v; cbn; try congruence.
  - unfold Z_to_float. destruct (binary_normalize _ _ _ _ _); congruence.
  - destruct (str_to_float _); congruence.
Qed.

(** C2. [schedule_next] updates ease and step by the transition table of the
    specification: "again" resets the step and lowers the ease by 0.2 (not
    below 1.3), "hard" keeps the step and lowers the ease by 0.05 (not below
    1.3), "good" and any unrecognized grade advance the step by one (at most
    to K-1) and keep the ease, "easy" advances the step by two (at most to
    K-1) and raises the ease by 0.05 (not above 3.0); a missing ease enters
    as 2.5 and a missing step as 0. The call returns for every card whose
    step lies on the ladder. *)
Theorem schedule_next_transition now card q (e : float) (s : Z) :
  Spec.ease_of card e → Spec.step_of card s →
  (∀ card', Srs.schedule_next now card q = Ok card' →
      card' !! "ease" = Some (VFloat (Spec.ease_transition (Spec.grade_of q) e))
      ∧ card' !! "step" = Some (VInt (Spec.step_transition (Spec.grade_of q) Spec.K s)))
  ∧ (Spec.step_in_range s → Spec.clock_ok now →
      ∃ card', Srs.schedule_next now card q = Ok card').
Proof.
  intros He Hs. split.
  - intros card' Hret.
    apply schedule_next_inv in Hret as (e' & s' & days & nd & He' & Hs' & _ & _ & ->).
    rewrite (ease_of_fun card e e'), (step_of_fun card s s') by done.
    by simplify_map_eq.
  - intros Hr Hc. by eapply schedule_next_ok.
Qed.

(** C3, as the code has it. The due field is the ISO-8601 text of a
    datetime, not of a date: the calendar date that lies
    [interval_ladder[new step]] days after the current UTC date, followed by
    the midnight time of day ["T00:00:00"], with no timezone offset. *)
Theorem schedule_next_due now card q :
  (∀ card', Srs.schedule_next now card q = Ok card' →
      ∃ step' days next_due,
        card' !! "step" = Some (VInt step')
        ∧ list_item SRS_INTERVALS_DAYS step' = Ok days
        ∧ toordinal next_due = toordinal now + days
        ∧ 1 <= year next_due <= 9999 ∧ 1 <= month next_due <= 12
        ∧ 1 <= day next_due <= days_in_month (year next_due) (month next_due)
        ∧ card' !! "due"
          = Some (VStr (date_isoformat (year next_due) (month next_due) (day next_due)
                        +:+ "T00:00:00"))
        ∧ String.length (date_isoformat (year next_due) (month next_due) (day next_due)
                         +:+ "T00:00:00") = 19%nat)
  ∧ (∀ e s, Spec.ease_of card e → Spec.step_of card s → Spec.step_in_range s →
      Spec.clock_ok now → ∃ card', Srs.schedule_next now card q = Ok card').
Proof.
  split; [|intros; by eapply schedule_next_ok].
  intros card' Hret.
  apply schedule_next_inv in Hret as (e & s & days & nd & _ & _ & Hd & Hn & ->).
  apply add_days_spec in Hn as (Ho & Hy & Hm & Hday & Hh & Hmi & Hs & Hus & Htz).
  eexists _, days, nd. simplify_map_eq.
  split; [done|]. split; [done|]. split; [done|]. split; [done|].
  split; [done|]. split; [done|].
  split; [|exact (due_text_length (year nd) (month nd) (day nd))].
  unfold isoformat, time_isoformat.
  rewrite Hh, Hmi, Hs, Hus, Htz. done.
Qed.

(** The invariant of the data model is kept by one grading. *)
Lemma schedule_next_in_range now card q card' :
  Spec.card_in_range card → Srs.schedule_next now card q = Ok card' →
  Spec.card_in_range card'.
Proof.
  intros (e & s & He & Hs & Her & Hsr) Hret.
  apply schedule_next_inv in Hret as (e' & s' & days & nd & He' & Hs' & _ & _ & ->).
  rewrite <- (ease_of_fun card e e'), <- (step_of_fun card s s') by done.
  exists (Spec.ease_transition (Spec.grade_of q) e),
    (Spec.step_transition (Spec.grade_of q) Spec.K s).
  split; [eapply Spec.ease_given; [by simplify_map_eq|done]|].
  split; [eapply Spec.step_given; [by simplify_map_eq|done]|].
  split; [by apply ease_transition_in_range | by apply step_transition_in_range].
Qed.

Lemma schedule_seq_in_range card (l : list (datetime * string)) :
  Spec.card_in_range card → Forall Spec.clock_ok l.*1 →
  ∃ card', Spec.schedule_seq card l = Ok card' ∧ Spec.card_in_range card'.
Proof.
  revert card. induction l as [|[now q] l IH]; intros card Hr Hc.
  - by exists card.
  - apply Forall_cons in Hc as [Hnow Hc]. cbn [Spec.schedule_seq].
    destruct Hr as (e & s & He & Hs & Her & Hsr).
    destruct (schedule_next_ok now card q e s He Hs Hsr Hnow) as [card1 Hret].
    rewrite Hret. cbn. apply IH; [|done].
    eapply schedule_next_in_range; [|done]. by exists e, s.
Qed.

(** C5. A card with ease in [1.3, 3.0] and step in [0, K-1] is returned by
    [schedule_next] with ease in [1.3, 3.0] and step in [0, K-1], for every
    grade; consequently, for every sequence of gradings (repeated "again",
    repeated "easy", or any mix) every call returns and the bounds hold at
    the end. *)
Theorem schedule_next_keeps_range card :
  Spec.card_in_range card →
  (∀ now q card', Srs.schedule_next now card q = Ok card' → Spec.card_in_range card')
  ∧ (∀ l : list (datetime * string), Forall Spec.clock_ok l.*1 →
      ∃ card', Spec.schedule_seq card l = Ok card' ∧ Spec.card_in_range card').
Proof.
  intros Hr. split.
  - intros now q card' Hret. by eapply schedule_next_in_range.
  - intros l Hl. by apply schedule_seq_in_range.
Qed.

(** C10. When the step field is absent or an integer in [0, K-1], the index
    that [schedule_next] uses into the interval ladder is in [0, K-1] for
    every grade, so the subscript does not raise [IndexError]. *)
Theorem schedule_next_index_in_bounds card q :
  (card !! "step" = None
   ∨ ∃ s, card !! "step" = Some (VInt s) ∧ 0 <= s < Spec.K) →
  ∃ s0, Spec.step_of card s0
    ∧ (∀ e, 0 <= (Srs.grade q s0 e).1 < Spec.K
            ∧ is_ok (list_item SRS_INTERVALS_DAYS (Srs.grade q s0 e).1) = true)
    ∧ ∀ now, Srs.schedule_next now card q ≠ Raise IndexError.
Proof.
  intros Hstep.
  assert (∃ s0, Spec.step_of card s0 ∧ Spec.step_in_range s0) as (s0 & Hs0 & Hr).
  { destruct Hstep as [Hnone|(s & Hs & Hr)].
    - exists 0. split; [by apply Spec.step_missing|]. unfold Spec.step_in_range.
      change Spec.K with 5. lia.
    - exists s. split; [by eapply Spec.step_given|done]. }
  exists s0. split; [done|]. split.
  - intros e. rewrite grade_table. cbn [fst].
    pose proof (step_transition_in_range (Spec.grade_of q) s0 Hr) as Hr'.
    split; [done|]. by destruct (ladder_item _ Hr') as (days & -> & _).
  - intros now. unfold Srs.schedule_next.
    destruct (py_float _) as [e|e'] eqn:Hf;
      [|apply py_float_raise in Hf; cbn; congruence].
    apply step_of_get in Hs0 as ->. cbn. rewrite grade_table.
    destruct (ladder_item _ (step_transition_in_range (Spec.grade_of q) s0 Hr))
      as (days & -> & _). cbn.
    destruct (add_days _ _) as [nd|e'] eqn:Hadd; [done|].
    apply add_days_raise in Hadd as ->. done.
Qed.
End scheduler_claims.

(** ** Comparing datetimes *)

(** Ordinals grow with the date. *)
Lemma ymd2ord_lt (y1 m1 d1 y2 m2 d2 : Z) :
  1 <= m1 <= 12 → 1 <= d1 <= days_in_month y1 m1 →
  1 <= m2 <= 12 → 1 <= d2 <= days_in_month y2 m2 →
  y1 < y2 ∨ (y1 = y2 ∧ (m1 < m2 ∨ (m1 = m2 ∧ d1 < d2))) →
  ymd2ord y1 m1 d1 < ymd2ord y2 m2 d2.
Proof.
  intros Hm1 Hd1 Hm2 Hd2 [Hy|[<- Hmd]].
  - pose proof (ymd2ord_within_year y1 m1 d1 Hm1 Hd1).
    pose proof (ymd2ord_within_year y2 m2 d2 Hm2 Hd2).
    pose proof (days_before_year_mono (y1 + 1) y2 ltac:(lia)). lia.
  - unfold ymd2ord, days_before_month. unfold days_in_month in Hd1, Hd2.
    destruct Hmd as [Hm|[<- Hd]]; [|lia].
    month_cases m1; month_cases m2; try lia; destruct (is_leap y1);
      cbn [andb] in *; calendar_cases.
Qed.

(** On valid naive datetimes the field-wise comparison is the comparison of
    the points in time. *)
Lemma lex_compare_timestamp (a b : datetime) :
  valid_datetime a = true → valid_datetime b = true →
  match lex_compare (fields a) (fields b) with
  | Lt => Spec.timestamp a < Spec.timestamp b
  | Eq => Spec.timestamp a = Spec.timestamp b
  | Gt => Spec.timestamp b < Spec.timestamp a
  end.
Proof.
  intros Ha Hb. apply valid_datetime_fields in Ha, Hb.
  pose proof (ymd2ord_lt (year a) (month a) (day a) (year b) (month b) (day b)) as Hab.
  pose proof (ymd2ord_lt (year b) (month b) (day b) (year a) (month a) (day a)) as Hba.
  assert (year a = year b → month a = month b → day a = day b →
          toordinal a = toordinal b) as Heq by (unfold toordinal; congruence).
  unfold Spec.timestamp. fold (toordinal a) in *. fold (toordinal b) in *.
  generalize dependent (toordinal a). generalize dependent (toordinal b).
  intros ob oa Hab Hba Heq.
  unfold fields, lex_compare.
  repeat match goal with
    | |- context [?x ?= ?y] => destruct (Z.compare_spec x y)
    end; lia.
Qed.

Section due_claims.
Context `{Runtime}.

Implicit Types (card : gmap string value) (now : datetime).

Lemma today_valid now : valid_datetime now = true → valid_datetime (Srs._today now) = true.
Proof.
  intros Hv. apply valid_datetime_fields in Hv.
  unfold valid_datetime, Srs._today, MINYEAR, MAXYEAR.
  cbn [year month day hour minute second microsecond].
  repeat (apply andb_true_intro; split);
    try (apply Z.leb_le; lia); try (apply Z.ltb_lt; lia).
Qed.

End due_claims.

(** ** The card store *)

Import Storage.

Lemma index_get_set (k k' : key) (i j : nat) (ix : index) :
  index_get k' (index_set k i ix) = Some j → j = i ∨ index_get k' ix = Some j.
Proof.
  induction ix as [|[k0 j0] ix IH]; cbn.
  - destruct (key_eqb k k'); [intros [= <-]; by left | done].
  - destruct (key_eqb k0 k) eqn:E; cbn.
    + destruct (key_eqb k0 k'); [intros [= <-]; by left | by right].
    + destruct (key_eqb k0 k'); [by right | done].
Qed.

Lemma lookup_dict_update_non_null (c item : gmap string value) (f : string) :
  dict_update c (non_null item) !! f = Spec.merge_field (c !! f) (item !! f).
Proof.
  unfold dict_update, non_null, Spec.merge_field. rewrite lookup_union.
  destruct (item !! f) as [v|] eqn:Ev.
  - destruct (is_none v) eqn:En.
    + rewrite (proj2 (map_lookup_filter_None _ _ _)); [by destruct (c !! f)|].
      right. intros v' Hv'. simplify_eq. cbn. congruence.
    + rewrite (proj2 (map_lookup_filter_Some _ _ _ v)); [by destruct (c !! f)|done].
  - rewrite (proj2 (map_lookup_filter_None _ _ _)); [by destruct (c !! f)|by left].
Qed.

(** *** What [save_db] can write *)

Lemma map_fold_andb {A} (f : string → A → bool) (m : gmap string A) :
  map_fold (λ k w acc, f k w && acc) true m = true
  ↔ map_Forall (λ k w, f k w = true) m.
Proof.
  apply (map_fold_weak_ind (λ b m, b = true ↔ map_Forall (λ k w, f k w = true) m)).
  - split; [intros _; apply map_Forall_empty|done].
  - intros k w m' r Hk IH. rewrite andb_true_iff, IH, map_Forall_insert by done. done.
Qed.

Section encoding.
Context `{Runtime}.

Implicit Types (c item : gmap string value) (l : list value)
  (new : list (gmap string value)) (existing : index) (d : disk).

Lemma encodable_list l :
  encodable (VList l) = true ↔ Forall (λ v, encodable v = true) l.
Proof.
  change (encodable (VList l)) with (forallb encodable l).
  induction l as [|v l IH]; cbn [forallb]; [done|].
  by rewrite andb_true_iff, Forall_cons, IH.
Qed.

Lemma encodable_dict (m : gmap string value) :
  encodable (VDict m) = true
  ↔ map_Forall (λ k v, str_encodable k = true ∧ encodable v = true) m.
Proof.
  change (encodable (VDict m))
    with (map_fold (λ k w acc, str_encodable k && encodable w && acc) true m).
  rewrite (map_fold_andb (λ k w, str_encodable k && encodable w)).
  unfold map_Forall. by setoid_rewrite andb_true_iff.
Qed.

Lemma encodable_lookup (m : gmap string value) (k : string) (v : value) :
  encodable (VDict m) = true → m !! k = Some v → encodable v = true.
Proof. rewrite encodable_dict. intros Hm Hk. by destruct (Hm k v Hk). Qed.

Lemma encodable_insert (m : gmap string value) (k : string) (v : value) :
  ascii_only k = true → encodable v = true → encodable (VDict m) = true →
  encodable (VDict (<[k := v]> m)) = true.
Proof.
  rewrite !encodable_dict. intros Hk Hv Hm. apply map_Forall_insert_2; [|done].
  split; [|done]. unfold str_encodable. by rewrite Hk.
Qed.

Lemma encodable_insert_present (m : gmap string value) (k : string) (v : value) :
  is_Some (m !! k) → encodable v = true → encodable (VDict m) = true →
  encodable (VDict (<[k := v]> m)) = true.
Proof.
  rewrite !encodable_dict. intros [w Hw] Hv Hm. apply map_Forall_insert_2; [|done].
  split; [|done]. by destruct (Hm k w Hw).
Qed.

Lemma encodable_update c item :
  encodable (VDict c) = true → encodable (VDict item) = true →
  encodable (VDict (dict_update c (non_null item))) = true.
Proof.
  rewrite !encodable_dict. intros Hc Hitem. unfold dict_update, non_null.
  apply map_Forall_union_2; [|done].
  intros k v Hk. apply map_lookup_filter_Some in Hk as [Hk _]. by apply Hitem.
Qed.

Lemma upsert_one_encodable existing (st st' : value * Z) item :
  encodable st.1 = true → encodable (VDict item) = true →
  upsert_one existing st item = Ok st' → encodable st'.1 = true.
Proof.
  destruct st as [cards count]. unfold upsert_one. cbn [fst].
  intros Hc Hi Hret. destruct (card_key item) as [k|]; [|done]. cbn in Hret.
  destruct (index_get k existing) as [idx|].
  - unfold update_at in Hret. destruct cards as [| | | | |l|]; try done.
    destruct (l !! idx) as [[| | | | | |c]|] eqn:Hl; try done.
    cbn in Hret. simplify_eq. cbn [fst].
    apply encodable_list, Forall_insert; [by apply encodable_list|].
    apply encodable_update; [|done].
    rewrite encodable_list, Forall_lookup in Hc. by apply (Hc idx).
  - unfold append in Hret. destruct cards as [| | | | |l|]; try done.
    cbn in Hret. simplify_eq. cbn [fst].
    apply encodable_list, Forall_app. split; [by apply encodable_list|].
    by repeat constructor.
Qed.

Lemma upsert_loop_encodable existing new : ∀ (st st' : value * Z),
  encodable st.1 = true → Forall (λ a, encodable (VDict a) = true) new →
  upsert_loop existing st new = Ok st' → encodable st'.1 = true.
Proof.
  induction new as [|item new IH]; intros st st' Hst Hnew Hret; cbn [upsert_loop] in Hret.
  - by simplify_eq.
  - apply Forall_cons in Hnew as [Hitem Hnew].
    destruct (upsert_one existing st item) as [st1|] eqn:Hone; [|done]. cbn in Hret.
    apply (IH st1 st'); [|done..]. by eapply upsert_one_encodable.
Qed.

(** A document without lone surrogates and items without them give a
    document without them: the loop only moves values around. *)
Lemma upsert_in_memory_encodable (db db' : value) new (n : Z) :
  encodable db = true → Forall (λ a, encodable (VDict a) = true) new →
  upsert_in_memory db new = Ok (db', n) → encodable db' = true.
Proof.
  intros Hdb Hnew. unfold upsert_in_memory, subscript, dict_item.
  destruct db as [| | | | | |m]; try done.
  destruct (m !! "cards") as [cards|] eqn:Hcards; [|done]. cbn.
  destruct (py_iter cards) as [items|]; [|done]. cbn.
  destruct (build_index 0 items []) as [existing|]; [|done]. cbn.
  destruct (upsert_loop existing (cards, 0) new) as [[cards' count]|] eqn:Hloop; [|done].
  cbn. intros [= <- <-].
  apply encodable_insert_present; [by rewrite Hcards| |done].
  apply (upsert_loop_encodable existing new (cards, 0) (cards', count)); [|done..].
  by apply (encodable_lookup m "cards").
Qed.

Lemma save_db_ok (db : value) d :
  encodable db = true → save_db db d = (Ok (), mk_disk true (Some (Json db))).
Proof. intros Hdb. unfold save_db, _ensure_file. rewrite Hdb. by destruct (db_file d). Qed.

Lemma save_db_raise (db : value) d :
  encodable db = false →
  save_db db d = (Raise UnicodeEncodeError, mk_disk true (Some (Corrupt ""))).
Proof. intros Hdb. unfold save_db, _ensure_file. rewrite Hdb. by destruct (db_file d). Qed.

Lemma load_db_ensured d :
  (load_db d).2 = _ensure_file d ∧ load_db (_ensure_file d) = load_db d.
Proof.
  unfold load_db, _ensure_file. destruct d as [b [[raw|v]|]]; cbn; done.
Qed.

Lemma load_db_snd d : (load_db d).2 = _ensure_file d.
Proof. apply load_db_ensured. Qed.

(** The three ways [upsert_cards] ends: it returns with the document saved,
    it raises in [save_db] with the file emptied, or it raises before
    [save_db] with the disk as [load_db] left it. *)
Lemma upsert_cards_unfold new d :
  upsert_cards new d
  = match upsert_in_memory (load_db d).1 new with
    | Ok (db, count) =>
        if encodable db then (Ok count, mk_disk true (Some (Json db)))
        else (Raise UnicodeEncodeError, mk_disk true (Some (Corrupt "")))
    | Raise e => (Raise e, _ensure_file d)
    end.
Proof.
  unfold upsert_cards. rewrite <- load_db_snd. destruct (load_db d) as [db d1]. cbn.
  destruct (upsert_in_memory db new) as [[db' n]|e]; [|done].
  destruct (encodable db') eqn:Hdb'; [by rewrite save_db_ok|by rewrite save_db_raise].
Qed.

Lemma upsert_cards_saved new d (db' : value) (n : Z) :
  encodable (load_db d).1 = true → Forall (λ a, encodable (VDict a) = true) new →
  upsert_in_memory (load_db d).1 new = Ok (db', n) →
  upsert_cards new d = (Ok n, mk_disk true (Some (Json db'))).
Proof.
  intros Hdb Hnew Hmem. rewrite upsert_cards_unfold, Hmem.
  by rewrite (upsert_in_memory_encodable _ db' new n Hdb Hnew Hmem).
Qed.

Lemma upsert_cards_outcome new d (db' : value) (n : Z) :
  upsert_in_memory (load_db d).1 new = Ok (db', n) →
  upsert_cards new d = (Ok n, mk_disk true (Some (Json db')))
  ∨ upsert_cards new d = (Raise UnicodeEncodeError, mk_disk true (Some (Corrupt ""))).
Proof.
  intros Hmem. rewrite upsert_cards_unfold, Hmem. destruct (encodable db'); [by left|by right].
Qed.
End encoding.

Section store_proofs.
Context `{Runtime}.

Implicit Types (c item : gmap string value) (cs l : list value)
  (new : list (gmap string value)) (existing : index) (d : disk).

Lemma build_index_bound (cs : list value) : ∀ (i : nat) (ix ix' : index),
  build_index i cs ix = Ok ix' →
  (∀ k j, index_get k ix = Some j → (j < i)%nat) →
  ∀ k j, index_get k ix' = Some j → (j < i + length cs)%nat.
Proof.
  induction cs as [|c cs IH]; intros i ix ix' Hb Hix k j Hk; cbn in Hb.
  - injection Hb as <-. apply Hix in Hk. cbn. lia.
  - destruct (value_key c) as [kc|] eqn:Hc; [|done]. cbn in Hb.
    assert (j < S i + length cs)%nat as Hlt; [|cbn; lia].
    eapply (IH (S i) _ ix' Hb); [|done].
    intros k' j' Hk'. apply index_get_set in Hk' as [->|Hk']; [lia|].
    apply Hix in Hk'. lia.
Qed.

Lemma build_index_ok (cs : list value) : ∀ (i : nat) (ix : index),
  Forall Spec.keyed_value cs → ∃ ix', build_index i cs ix = Ok ix'.
Proof.
  induction cs as [|c cs IH]; intros i ix Hcs; cbn; [by eexists|].
  apply Forall_cons in Hcs as [Hc Hcs]. unfold Spec.keyed_value in Hc.
  destruct (value_key c) as [k|]; [|done]. cbn. by apply IH.
Qed.

(** One turn of the loop on a keyed item: the card at the item's target is
    updated in place, or the item is appended. *)
Lemma upsert_one_spec existing (n0 : nat) l (count : Z) item :
  (∀ k j, index_get k existing = Some j → (j < n0)%nat) →
  Spec.keyed item →
  (∀ i, (i < n0)%nat → ∃ c, l !! i = Some (VDict c)) →
  ∃ l1, upsert_one existing (VList l, count) item = Ok (VList l1, count + 1)
    ∧ (length l <= length l1)%nat
    ∧ (Spec.target existing item = None → l1 = l ++ [VDict item])
    ∧ (is_Some (Spec.target existing item) → length l1 = length l)
    ∧ ∀ i c, l !! i = Some (VDict c) →
        l1 !! i = Some (VDict (if decide (Spec.target existing item = Some i)
                               then dict_update c (non_null item) else c)).
Proof.
  intros Hbound Hitem Hl. unfold Spec.keyed in Hitem. unfold upsert_one, Spec.target.
  destruct (card_key item) as [k|] eqn:Hk; [|done]. cbn.
  destruct (index_get k existing) as [idx|] eqn:Hidx.
  - pose proof (Hbound _ _ Hidx) as Hlt.
    destruct (Hl idx Hlt) as [c Hc]. cbn. rewrite Hc. cbn.
    eexists. split; [done|]. split; [by rewrite length_insert|].
    split; [done|]. split; [intros _; by rewrite length_insert|].
    intros i c' Hc'. case_decide as Hd.
    + injection Hd as ->. simplify_eq.
      apply list_lookup_insert_eq. by eapply lookup_lt_Some.
    + rewrite list_lookup_insert_ne; [done|congruence].
  - cbn. eexists. split; [done|]. split; [rewrite length_app; lia|].
    split; [done|]. split; [by intros [? ?]|].
    intros i c Hc. rewrite decide_False by done.
    by apply lookup_app_l_Some.
Qed.

(** The loop over keyed items, started on a list whose first [n0] elements
    are cards: it returns, counts every item, keeps the length of the list
    at least, and leaves at each position of the starting list the card
    merged with the items that target it. *)
Lemma upsert_loop_spec existing (n0 : nat) :
  (∀ k j, index_get k existing = Some j → (j < n0)%nat) →
  ∀ new l (count : Z),
    Forall Spec.keyed new →
    (∀ i, (i < n0)%nat → ∃ c, l !! i = Some (VDict c)) →
    ∃ l', upsert_loop existing (VList l, count) new
          = Ok (VList l', count + Z.of_nat (length new))
      ∧ (length l <= length l')%nat
      ∧ ∀ i c, l !! i = Some (VDict c) →
          ∃ c', l' !! i = Some (VDict c')
            ∧ ∀ f, c' !! f = Spec.merged_field existing i f (c !! f) new.
Proof.
  intros Hbound. induction new as [|item new IH]; intros l count Hnew Hl.
  - exists l. cbn. split; [do 2 f_equal; lia|]. split; [done|].
    intros i c Hc. by exists c.
  - apply Forall_cons in Hnew as [Hitem Hnew]. cbn [upsert_loop].
    destruct (upsert_one_spec existing n0 l count item Hbound Hitem Hl)
      as (l1 & -> & Hlen & _ & _ & Hl1).
    cbn. destruct (IH l1 (count + 1)) as (l' & -> & Hlen' & Hl'); [done| |].
    { intros i Hi. destruct (Hl i Hi) as [c Hc]. rewrite (Hl1 i c Hc). by eexists. }
    exists l'. split; [do 2 f_equal; cbn [length]; lia|]. split; [lia|].
    intros i c Hc. destruct (Hl' i _ (Hl1 i c Hc)) as (c' & Hc' & Hf).
    exists c'. split; [done|]. intros f. rewrite Hf.
    unfold Spec.merged_field. cbn [foldl]. f_equal.
    case_decide; [apply lookup_dict_update_non_null|done].
Qed.
End store_proofs.

Section store_claims.
Context `{Runtime}.

Implicit Types (c item : gmap string value) (cs l : list value)
  (new : list (gmap string value)) (existing : index) (d : disk).

Lemma keyed_value_dict (v : value) :
  Spec.keyed_value v → ∃ c, v = VDict c.
Proof. destruct v; try done. by eexists. Qed.

Lemma merged_field_frame existing (i : nat) (f : string) (old : option value) new :
  Forall (λ item, item !! f = None ∨ item !! f = Some VNone) new →
  Spec.merged_field existing i f old new = old.
Proof.
  unfold Spec.merged_field. revert old.
  induction new as [|item new IH]; intros old Hnew; [done|].
  apply Forall_cons in Hnew as [Hitem Hnew]. cbn [foldl].
  rewrite (IH _ Hnew). case_decide; [|done].
  by destruct Hitem as [-> | ->].
Qed.

(** The part of [upsert_cards] between load and save, on a well-formed
    store and keyed items. *)
Lemma upsert_in_memory_spec (db : value) (m : gmap string value) cs new :
  Spec.well_formed db m cs → Forall Spec.keyed new →
  ∃ existing cs',
    build_index 0 cs [] = Ok existing
    ∧ upsert_in_memory db new
      = Ok (VDict (<["cards" := VList cs']> m), Z.of_nat (length new))
    ∧ (length cs <= length cs')%nat
    ∧ ∀ i c, cs !! i = Some (VDict c) →
        ∃ c', cs' !! i = Some (VDict c')
          ∧ ∀ f, c' !! f = Spec.merged_field existing i f (c !! f) new.
Proof.
  intros (-> & Hcards & Hcs) Hnew.
  destruct (build_index_ok cs 0 [] Hcs) as [existing Hex].
  assert (∀ k j, index_get k existing = Some j → (j < length cs)%nat) as Hbound.
  { intros k j Hk.
    by apply (build_index_bound cs 0 [] existing Hex ltac:(done) k j Hk). }
  destruct (upsert_loop_spec existing (length cs) Hbound new cs 0 Hnew)
    as (cs' & Hloop & Hlen & Hmerge).
  { intros i Hi. destruct (lookup_lt_is_Some_2 cs i Hi) as [v Hv].
    rewrite Forall_lookup in Hcs.
    destruct (keyed_value_dict v (Hcs i v Hv)) as [c ->]. by exists c. }
  exists existing, cs'. split; [done|]. split; [|done].
  unfold upsert_in_memory, subscript, dict_item. rewrite Hcards. cbn.
  rewrite Hex. cbn. by rewrite Hloop.
Qed.

(** C7. On a well-formed store and items that all have a [term], a call of
    [upsert_cards] that returns, returns the number of incoming items: items
    whose key is already in the store and items that repeat a key within the
    call are counted like the others. The loop always gets through; the one
    exception left is the [UnicodeEncodeError] of [save_db], which empties
    the file, and the call does return when neither the stored document nor
    an item holds a string that UTF-8 cannot encode. *)
Theorem upsert_cards_count new d (m : gmap string value) cs :
  Spec.well_formed (load_db d).1 m cs → Forall Spec.keyed new →
  (∀ n, (upsert_cards new d).1 = Ok n → n = Z.of_nat (length new))
  ∧ ((upsert_cards new d).1 = Ok (Z.of_nat (length new))
     ∨ upsert_cards new d
       = (Raise UnicodeEncodeError, mk_disk true (Some (Corrupt ""))))
  ∧ (encodable (load_db d).1 = true →
     Forall (λ a, encodable (VDict a) = true) new →
     (upsert_cards new d).1 = Ok (Z.of_nat (length new))).
Proof.
  intros Hwf Hnew.
  destruct (upsert_in_memory_spec _ m cs new Hwf Hnew) as (ex & cs' & _ & Hmem & _).
  split; [|split].
  - intros n. by destruct (upsert_cards_outcome new d _ _ Hmem) as [-> | ->]; intros [= <-].
  - destruct (upsert_cards_outcome new d _ _ Hmem) as [-> | ->]; [by left|by right].
  - intros Hdb Hitems. by rewrite (upsert_cards_saved new d _ _ Hdb Hitems Hmem).
Qed.

(** C6. After a call of [upsert_cards] that returns, every card that was in
    the store is still at its position, and each of its fields holds the
    last non-null value that an item merged into that position supplied for
    it, or its prior value when there is none; in particular a field (such
    as [ease], [step] or [due]) that every incoming item omits or supplies
    as null is unchanged on every stored card. The call returns, with this
    document [cs'] saved, or it raises [UnicodeEncodeError] in [save_db] and
    leaves the file empty; it returns when neither the stored document nor
    an item holds a string that UTF-8 cannot encode. *)
Theorem upsert_cards_merge new d (m : gmap string value) cs :
  Spec.well_formed (load_db d).1 m cs → Forall Spec.keyed new →
  ∃ existing cs',
    build_index 0 cs [] = Ok existing
    ∧ (upsert_cards new d
       = (Ok (Z.of_nat (length new)),
          mk_disk true (Some (Json (VDict (<["cards" := VList cs']> m)))))
       ∨ upsert_cards new d
         = (Raise UnicodeEncodeError, mk_disk true (Some (Corrupt ""))))
    ∧ (encodable (load_db d).1 = true →
       Forall (λ a, encodable (VDict a) = true) new →
       upsert_cards new d
       = (Ok (Z.of_nat (length new)),
          mk_disk true (Some (Json (VDict (<["cards" := VList cs']> m))))))
    ∧ (length cs <= length cs')%nat
    ∧ ∀ i c, cs !! i = Some (VDict c) →
        ∃ c', cs' !! i = Some (VDict c')
          ∧ (∀ f, c' !! f = Spec.merged_field existing i f (c !! f) new)
          ∧ (∀ f, Forall (λ item, item !! f = None ∨ item !! f = Some VNone) new →
                  c' !! f = c !! f).
Proof.
  intros Hwf Hnew.
  destruct (upsert_in_memory_spec _ m cs new Hwf Hnew)
    as (ex & cs' & Hex & Hmem & Hlen & Hmerge).
  exists ex, cs'. split; [done|].
  split; [by apply upsert_cards_outcome|].
  split; [intros Hdb Hitems; by apply upsert_cards_saved|]. split; [done|].
  intros i c Hc. destruct (Hmerge i c Hc) as (c' & Hc' & Hf).
  exists c'. split; [done|]. split; [done|].
  intros f Hnull. rewrite Hf. by apply merged_field_frame.
Qed.

Lemma upsert_loop_missing_term existing new : ∀ (st : value * Z),
  (∃ item, item ∈ new ∧ item !! "term" = None) →
  ∃ e, upsert_loop existing st new = Raise e.
Proof.
  induction new as [|item new IH]; intros st (bad & Hin & Hbad).
  - by apply elem_of_nil in Hin.
  - cbn [upsert_loop]. destruct (upsert_one existing st item) as [st'|e] eqn:Hone.
    + cbn. apply IH. exists bad. split; [|done].
      apply elem_of_cons in Hin as [->|Hin]; [|done].
      unfold upsert_one, card_key, dict_item in Hone. rewrite Hbad in Hone.
      by destruct st.
    + by exists e.
Qed.

(** C8. When an incoming item has no [term], [upsert_cards] raises, whatever
    the store holds, and [save_db] is not reached: the disk is as [load_db]
    left it, so an existing document is untouched (the disk is literally
    unchanged when the document and its directory exist) and the store reads
    back as before. *)
Theorem upsert_cards_missing_term new d :
  (∃ item, item ∈ new ∧ item !! "term" = None) →
  ∃ e, (upsert_cards new d).1 = Raise e
    ∧ (upsert_cards new d).2 = _ensure_file d
    ∧ (load_db (upsert_cards new d).2).1 = (load_db d).1
    ∧ (∀ content, db_file d = Some content →
        db_file (upsert_cards new d).2 = Some content)
    ∧ (parent_exists d = true → is_Some (db_file d) → (upsert_cards new d).2 = d).
Proof.
  intros Hbad. unfold upsert_cards.
  destruct (load_db_ensured d) as [Hd2 Hre].
  destruct (load_db d) as [db d1] eqn:Hload. cbn in Hd2. subst d1.
  assert (∃ e, upsert_in_memory db new = Raise e) as [e ->].
  { unfold upsert_in_memory.
    destruct (subscript db "cards") as [cards|e]; [|by eexists]. cbn.
    destruct (py_iter cards) as [items|e]; [|by eexists]. cbn.
    destruct (build_index 0 items []) as [existing|e]; [|by eexists]. cbn.
    destruct (upsert_loop_missing_term existing new (cards, 0) Hbad) as [e ->].
    by eexists. }
  exists e. cbn. split; [done|]. split; [done|]. split; [by rewrite Hre|].
  split.
  - intros content Hc. unfold _ensure_file. by rewrite Hc.
  - intros Hp [content Hc]. unfold _ensure_file. rewrite Hc.
    destruct d as [p f]. cbn in *. by subst.
Qed.

(** C9. [load_db] returns the empty schema [{lessons: [], cards: []}] when
    the document is missing and when it does not parse; a missing document
    is created with the empty schema, together with its parent directory. *)
Theorem load_db_default (b : bool) (raw : string) :
  load_db (mk_disk b None)
  = (empty_schema, mk_disk true (Some (Json empty_schema)))
  ∧ load_db (mk_disk b (Some (Corrupt raw)))
    = (empty_schema, mk_disk true (Some (Corrupt raw)))
  ∧ _ensure_file (mk_disk b None) = mk_disk true (Some (Json empty_schema)).
Proof. done. Qed.
End store_claims.

(** ** Identity keys across an upsert *)

Section unique.
Context `{Runtime}.
Implicit Types (c item : gmap string value) (cs l : list value)
  (new : list (gmap string value)) (existing : index) (d : disk) (k : string * string).

Lemma identity_card_key c k : Spec.identity c = Some k → card_key c = Ok (Spec.skey k).
Proof.
  unfold Spec.identity, card_key, dict_item, lower.
  destruct (c !! "term") as [[]|]; try done.
  destruct (dict_get_or c "lang" (VStr "auto")) eqn:E; try done.
  by intros [= <-].
Qed.

Lemma key_eqb_skey k1 k2 : key_eqb (Spec.skey k1) (Spec.skey k2) = true ↔ k1 = k2.
Proof.
  unfold key_eqb, Spec.skey. cbn. rewrite andb_true_iff, !String.eqb_eq.
  destruct k1, k2; cbn. split; [intros [-> ->]; done | by intros [= -> ->]].
Qed.

Lemma key_eqb_skey_false k1 k2 : k1 ≠ k2 → key_eqb (Spec.skey k1) (Spec.skey k2) = false.
Proof. intros Hne. apply not_true_is_false. by rewrite key_eqb_skey. Qed.

Lemma index_set_sindex k i ix : Spec.sindex ix → Spec.sindex (index_set (Spec.skey k) i ix).
Proof.
  unfold Spec.sindex. induction ix as [|[k0 j] ix IH]; intros Hix; cbn.
  - repeat constructor. by exists k.
  - apply Forall_cons in Hix as [Hk0 Hix]. destruct (key_eqb k0 (Spec.skey k)).
    + by constructor.
    + constructor; [done|by apply IH].
Qed.

Lemma index_get_set_eq k i ix :
  Spec.sindex ix → index_get (Spec.skey k) (index_set (Spec.skey k) i ix) = Some i.
Proof.
  unfold Spec.sindex. induction ix as [|[k0 j] ix IH]; intros Hix; cbn.
  - by rewrite (proj2 (key_eqb_skey k k)).
  - apply Forall_cons in Hix as [[k0' Hk0] Hix]. cbn in Hk0. subst k0. cbn.
    destruct (key_eqb (Spec.skey k0') (Spec.skey k)) eqn:E; cbn; rewrite E; [done|by apply IH].
Qed.

Lemma index_get_set_ne k k' i ix :
  Spec.sindex ix → k ≠ k' → index_get (Spec.skey k') (index_set (Spec.skey k) i ix) = index_get (Spec.skey k') ix.
Proof.
  unfold Spec.sindex. intros Hix Hne. induction ix as [|[k0 j] ix IH]; cbn.
  - by rewrite key_eqb_skey_false.
  - apply Forall_cons in Hix as [[k0' Hk0] Hix]. cbn in Hk0. subst k0. cbn.
    destruct (key_eqb (Spec.skey k0') (Spec.skey k)) eqn:E; cbn.
    + apply key_eqb_skey in E as ->. by rewrite key_eqb_skey_false.
    + destruct (key_eqb (Spec.skey k0') (Spec.skey k')); [done|by apply IH].
Qed.

(** The index built over cards with identities: a key is found exactly when
    a card has it, and then at the position of such a card. *)
Lemma build_index_ids cs : ∀ (i0 : nat) (ix ix' : index),
  Forall is_Some (Spec.ids cs) → Spec.sindex ix →
  build_index i0 cs ix = Ok ix' →
  Spec.sindex ix'
  ∧ ∀ k, (Some k ∉ Spec.ids cs → index_get (Spec.skey k) ix' = index_get (Spec.skey k) ix)
       ∧ (Some k ∈ Spec.ids cs →
           ∃ p, index_get (Spec.skey k) ix' = Some (i0 + p)%nat ∧ Spec.ids cs !! p = Some (Some k)).
Proof.
  induction cs as [|v cs IH]; intros i0 ix ix' Hcs Hix Hb; cbn [build_index] in Hb.
  - injection Hb as <-. split; [done|]. intros k. split; [done|].
    intros Hin. by apply elem_of_nil in Hin.
  - cbn in Hcs. apply Forall_cons in Hcs as [[kv Hv] Hcs].
    destruct v as [| | | | | |c]; try done. cbn in Hv. cbn [value_key] in Hb.
    rewrite (identity_card_key c kv Hv) in Hb. cbn in Hb.
    destruct (IH (S i0) _ ix' Hcs (index_set_sindex kv i0 ix Hix) Hb) as [Hix' Hk].
    split; [done|]. intros k. destruct (Hk k) as [Hnot Hin].
    cbn [Spec.ids fmap list_fmap]. fold (Spec.ids cs). rewrite Hv. split.
    + intros Hk'. apply not_elem_of_cons in Hk' as [Hne Hk'].
      rewrite (Hnot Hk'). apply index_get_set_ne; [done|congruence].
    + intros Hk'. destruct (decide (Some k ∈ Spec.ids cs)) as [Hc|Hc].
      * destruct (Hin Hc) as (p & Hp & Hpk). exists (S p). split; [|done].
        rewrite Hp. f_equal. lia.
      * apply elem_of_cons in Hk' as [[= ->]|Hk']; [|done].
        exists 0%nat. split; [|done]. rewrite (Hnot Hc), index_get_set_eq by done.
        f_equal. lia.
Qed.

Lemma merge_identity c item k :
  Spec.identity c = Some k → Spec.identity item = Some k →
  Spec.identity (dict_update c (non_null item)) = Some k.
Proof.
  unfold Spec.identity, dict_get_or. rewrite !lookup_dict_update_non_null.
  destruct (item !! "term") as [[]|]; try done. cbn.
  destruct (c !! "term") as [[]|]; try done.
  destruct (item !! "lang") as [[]|], (c !! "lang") as [[]|]; cbn; try done; congruence.
Qed.

Lemma ids_lookup_dict l (i : nat) k :
  Spec.ids l !! i = Some (Some k) → ∃ c, l !! i = Some (VDict c) ∧ Spec.identity c = Some k.
Proof.
  unfold Spec.ids. rewrite list_lookup_fmap.
  destruct (l !! i) as [[]|]; cbn; try done. intros [= Hk]. by eexists.
Qed.

(** Where an item with an identity goes: to the position of a card with
    that identity, or nowhere when no card has it. *)
Lemma target_ids cs existing item k :
  Forall is_Some (Spec.ids cs) → build_index 0 cs [] = Ok existing →
  Spec.identity item = Some k →
  (Some k ∉ Spec.ids cs → Spec.target existing item = None)
  ∧ (Some k ∈ Spec.ids cs →
      ∃ p, Spec.target existing item = Some p ∧ Spec.ids cs !! p = Some (Some k)).
Proof.
  intros Hcs Hex Hk. unfold Spec.target. rewrite (identity_card_key item k Hk).
  destruct (build_index_ids cs 0 [] existing Hcs ltac:(constructor) Hex) as [_ Hix].
  destruct (Hix k) as [Hnot Hin]. split; [by intros ?; rewrite Hnot|].
  intros Hk'. destruct (Hin Hk') as (p & Hp & Hpk). by exists p.
Qed.

Lemma upsert_loop_ids cs existing :
  Forall is_Some (Spec.ids cs) → build_index 0 cs [] = Ok existing →
  ∀ new l (count : Z) (tail : list (option (string * string))),
    Forall (λ a, is_Some (Spec.identity a)) new →
    Spec.ids l = Spec.ids cs ++ tail →
    ∃ l', upsert_loop existing (VList l, count) new
          = Ok (VList l', count + Z.of_nat (length new))
      ∧ Spec.ids l' = Spec.ids cs ++ tail ++ (Spec.identity <$> Spec.fresh cs new).
Proof.
  intros Hcs Hex. induction new as [|item new IH]; intros l count tail Hnew Hl.
  - exists l. cbn. split; [do 2 f_equal; lia|]. by rewrite app_nil_r.
  - apply Forall_cons in Hnew as [[k Hk] Hnew]. cbn [upsert_loop upsert_one].
    set (F := Spec.fresh cs (item :: new)).
    rewrite (identity_card_key item k Hk). cbn.
    destruct (target_ids cs existing item k Hcs Hex Hk) as [Hnot Hin].
    unfold Spec.target in Hnot, Hin. rewrite (identity_card_key item k Hk) in Hnot, Hin.
    destruct (decide (Some k ∈ Spec.ids cs)) as [Hc|Hc].
    + destruct (Hin Hc) as (p & -> & Hp).
      assert (Spec.ids l !! p = Some (Some k)) as Hlp
        by (rewrite Hl; by apply lookup_app_l_Some).
      destruct (ids_lookup_dict l p k Hlp) as (c & Hlc & Hck).
      cbn. rewrite Hlc. cbn.
      destruct (IH (<[p := VDict (dict_update c (non_null item))]> l) (count + 1) tail Hnew)
        as (l' & -> & Hl').
      { rewrite <- Hl. unfold Spec.ids. rewrite list_fmap_insert. cbn.
        rewrite (merge_identity c item k Hck Hk). apply list_insert_id.
        by rewrite list_lookup_fmap, Hlc; cbn; rewrite Hck. }
      exists l'. split; [do 2 f_equal; cbn [length]; lia|].
      rewrite Hl'. subst F. unfold Spec.fresh.
      destruct (decide (Spec.identity item ∉ Spec.ids cs)) as [Hd|Hd]; [|done].
      rewrite Hk in Hd. done.
    + rewrite (Hnot Hc). cbn.
      destruct (IH (l ++ [VDict item]) (count + 1) (tail ++ [Some k]) Hnew)
        as (l' & -> & Hl').
      { unfold Spec.ids. rewrite fmap_app. fold (Spec.ids l). rewrite Hl. cbn.
        by rewrite Hk, app_assoc. }
      exists l'. split; [do 2 f_equal; cbn [length]; lia|].
      rewrite Hl'. subst F. unfold Spec.fresh.
      destruct (decide (Spec.identity item ∉ Spec.ids cs)) as [Hd|Hd];
        [|rewrite Hk in Hd; done].
      rewrite fmap_cons, Hk. by rewrite <- !app_assoc.
Qed.

Lemma ids_keyed cs : Forall is_Some (Spec.ids cs) → Forall Spec.keyed_value cs.
Proof.
  unfold Spec.ids. rewrite Forall_fmap. intros Hcs.
  eapply Forall_impl; [exact Hcs|]. intros v [k Hk]. cbn in Hk.
  destruct v; try done. unfold Spec.keyed_value. cbn [value_key].
  by rewrite (identity_card_key _ k Hk).
Qed.

(** X16. The identity keys in the store after [upsert_cards], for cards and
    items of the data model's types that hold no string UTF-8 cannot encode:
    those of the store before, in place, followed by those of the incoming
    items that no stored card had, one entry per item. The store therefore
    stays free of duplicate keys exactly when these items have pairwise
    different keys. *)
Theorem upsert_cards_identities new d (m : gmap string value) cs :
  (load_db d).1 = VDict m → m !! "cards" = Some (VList cs) →
  Forall is_Some (Spec.ids cs) → Forall (λ a, is_Some (Spec.identity a)) new →
  encodable (VDict m) = true → Forall (λ a, encodable (VDict a) = true) new →
  ∃ cs',
    (upsert_cards new d).1 = Ok (Z.of_nat (length new))
    ∧ db_file (upsert_cards new d).2 = Some (Json (VDict (<["cards" := VList cs']> m)))
    ∧ Spec.ids cs' = Spec.ids cs ++ (Spec.identity <$> Spec.fresh cs new)
    ∧ (NoDup (Spec.ids cs) →
       (NoDup (Spec.ids cs') ↔ NoDup (Spec.identity <$> Spec.fresh cs new))).
Proof.
  intros Hdb Hcards Hcs Hnew Henc Hitems.
  destruct (build_index_ok cs 0 [] (ids_keyed cs Hcs)) as [existing Hex].
  destruct (upsert_loop_ids cs existing Hcs Hex new cs 0 [] Hnew) as (cs' & Hloop & Hids);
    [by rewrite app_nil_r|].
  assert (upsert_in_memory (load_db d).1 new
          = Ok (VDict (<["cards" := VList cs']> m), Z.of_nat (length new))) as Hmem.
  { rewrite Hdb. unfold upsert_in_memory, subscript, dict_item. rewrite Hcards. cbn.
    rewrite Hex. cbn. by rewrite Hloop. }
  rewrite <- Hdb in Henc. rewrite (upsert_cards_saved new d _ _ Henc Hitems Hmem).
  exists cs'. split; [done|]. split; [done|]. split; [done|].
  intros Hnd. rewrite Hids. cbn. rewrite NoDup_app. split; [by intros (_ & _ & ?)|].
  intros Hfresh. split; [done|]. split; [|done].
  intros x Hx Hx'. apply list_elem_of_fmap in Hx' as (a & -> & Ha).
  unfold Spec.fresh in Ha. apply list_elem_of_filter in Ha as [Ha _]. done.
Qed.
End unique.

(** * Further properties of the code *)

(** ** The scheduler beyond the transition table *)

Section scheduler_more.
Context `{Runtime}.

Implicit Types (card : gmap string value) (now later : datetime) (q : string).

Lemma schedule_next_other_fields now card q card' (f : string) :
  Srs.schedule_next now card q = Ok card' →
  f ≠ "ease" → f ≠ "step" → f ≠ "due" → card' !! f = card !! f.
Proof.
  intros Hret Hease Hstep Hdue.
  apply schedule_next_inv in Hret as (e & s & days & nd & _ & _ & _ & _ & ->).
  rewrite !lookup_insert_ne by congruence. done.
Qed.

(** X1. [schedule_next] writes the three fields [ease], [step] and [due] and
    nothing else: every other field of the card ([term], [translation],
    [lang], ...) is returned as it was, and the returned card has exactly the
    keys of the given one together with these three. *)
Theorem schedule_next_frame now card q card' :
  Srs.schedule_next now card q = Ok card' →
  (∀ f, f ≠ "ease" → f ≠ "step" → f ≠ "due" → card' !! f = card !! f)
  ∧ dom card' = {[ "due"; "ease"; "step" ]} ∪ dom card.
Proof.
  intros Hret. split.
  - intros f. exact (schedule_next_other_fields now card q card' f Hret).
  - apply schedule_next_inv in Hret as (e & s & days & nd & _ & _ & _ & _ & ->).
    rewrite !dom_insert_L. by rewrite !(assoc_L (∪)).
Qed.

Lemma py_int_raise (v : value) (e : exn) :
  py_int v = Raise e → e ≠ IndexError.
Proof.
  destruct v; cbn; try congruence.
  - unfold SF_trunc. destruct (Prim2SF _); congruence.
  - destruct (str_to_int _); congruence.
Qed.

(** The subscript [SRS_INTERVALS_DAYS[i]]: an index from [-K] to [-1] counts
    from the end of the ladder, as every Python list subscript does. *)
Lemma list_item_ladder (i : Z) :
  (Spec.K <= i ∨ i < - Spec.K → list_item SRS_INTERVALS_DAYS i = Raise IndexError)
  ∧ (0 <= i < Spec.K → ∃ days, SRS_INTERVALS_DAYS !! Z.to_nat i = Some days
                          ∧ list_item SRS_INTERVALS_DAYS i = Ok days ∧ 1 <= days <= 30)
  ∧ (- Spec.K <= i < 0 → ∃ days, SRS_INTERVALS_DAYS !! Z.to_nat (Spec.K + i) = Some days
                          ∧ list_item SRS_INTERVALS_DAYS i = Ok days ∧ 1 <= days <= 30).
Proof.
  change Spec.K with 5. unfold list_item. change (Z.of_nat (length SRS_INTERVALS_DAYS)) with 5.
  split; [|split].
  - intros Hi. destruct (Z.ltb_spec i 0).
    + rewrite (proj2 (Z.leb_gt _ _)) by lia. done.
    + rewrite (proj2 (Z.leb_le _ _)) by lia. rewrite (proj2 (Z.ltb_ge _ _)) by lia. done.
  - intros Hi.
    assert (i = 0 ∨ i = 1 ∨ i = 2 ∨ i = 3 ∨ i = 4) as [->|[->|[->|[->| ->]]]] by lia;
      (eexists; split; [reflexivity|]; split; [reflexivity|lia]).
  - intros Hi.
    assert (i = -1 ∨ i = -2 ∨ i = -3 ∨ i = -4 ∨ i = -5) as [->|[->|[->|[->| ->]]]] by lia;
      (eexists; split; [reflexivity|]; split; [reflexivity|lia]).
Qed.

(** X2. [schedule_next] raises [IndexError] exactly when the ease and the
    step can be read and the new step lies outside [-K, K-1]; no other
    failure of a call is an [IndexError]. *)
Theorem schedule_next_index_error now card q :
  Srs.schedule_next now card q = Raise IndexError
  ↔ ∃ e s, Spec.ease_of card e ∧ Spec.step_of card s
      ∧ (Spec.step_transition (Spec.grade_of q) Spec.K s < - Spec.K
         ∨ Spec.K <= Spec.step_transition (Spec.grade_of q) Spec.K s).
Proof.
  unfold Srs.schedule_next. split.
  - destruct (py_float _) as [e|x] eqn:He; [|intros [= ->]; by apply py_float_raise in He].
    destruct (py_int _) as [s|x] eqn:Hs; [|intros [= ->]; by apply py_int_raise in Hs].
    cbn. rewrite grade_table. intros Hr. exists e, s.
    rewrite ease_of_get, step_of_get. split; [done|]. split; [done|].
    set (s' := Spec.step_transition _ _ _) in *.
    destruct (list_item_ladder s') as (_ & Hin & Hneg).
    destruct (decide (s' < - Spec.K)); [by left|].
    destruct (decide (Spec.K <= s')); [by right|]. exfalso.
    assert (∃ days, list_item SRS_INTERVALS_DAYS s' = Ok days) as [days Hd].
    { destruct (decide (0 <= s')).
      - destruct Hin as (days & _ & ? & _); [lia|by exists days].
      - destruct Hneg as (days & _ & ? & _); [lia|by exists days]. }
    rewrite Hd in Hr. cbn in Hr.
    destruct (add_days _ _) as [nd|x] eqn:Hadd; [done|].
    apply add_days_raise in Hadd as ->. done.
  - intros (e & s & He & Hs & Hout).
    apply ease_of_get in He as ->. apply step_of_get in Hs as ->. cbn.
    rewrite grade_table.
    rewrite (proj1 (list_item_ladder _)); [done|].
    destruct Hout; [by right|by left].
Qed.

(** X3. The defaults apply to a missing field only. A card whose [ease] is
    present and null (or a list, or an object) makes [schedule_next] raise
    [TypeError], and so does such a [step] on a card whose ease can be
    read. *)
Theorem schedule_next_null_field now card q (v : value) :
  (v = VNone ∨ (∃ l, v = VList l) ∨ (∃ d, v = VDict d)) →
  (card !! "ease" = Some v → Srs.schedule_next now card q = Raise TypeError)
  ∧ (card !! "step" = Some v → ∀ e, Spec.ease_of card e →
       Srs.schedule_next now card q = Raise TypeError).
Proof.
  intros Hv. unfold Srs.schedule_next, dict_get_or. split.
  - intros ->. by destruct Hv as [->|[[l ->]|[d ->]]].
  - intros Hs e He. apply ease_of_get in He. unfold dict_get_or in He. rewrite He, Hs.
    by destruct Hv as [->|[[l ->]|[d ->]]].
Qed.

(** X4. A new step between [-K] and [-1] does not raise: the subscript
    counts from the end of the ladder, so the card is scheduled
    [ladder[K + step]] days ahead and the negative step is stored. *)
Theorem schedule_next_negative_step now card q (e : float) (s : Z) :
  Spec.ease_of card e → Spec.step_of card s → Spec.clock_ok now →
  - Spec.K <= Spec.step_transition (Spec.grade_of q) Spec.K s < 0 →
  ∃ card' days next_due,
    Srs.schedule_next now card q = Ok card'
    ∧ card' !! "step" = Some (VInt (Spec.step_transition (Spec.grade_of q) Spec.K s))
    ∧ SRS_INTERVALS_DAYS
        !! Z.to_nat (Spec.K + Spec.step_transition (Spec.grade_of q) Spec.K s) = Some days
    ∧ card' !! "due" = Some (VStr (isoformat next_due))
    ∧ toordinal next_due = toordinal now + days.
Proof.
  intros He Hs Hc Hneg. unfold Srs.schedule_next.
  apply ease_of_get in He as ->. apply step_of_get in Hs as ->. cbn.
  rewrite grade_table.
  destruct (list_item_ladder (Spec.step_transition (Spec.grade_of q) Spec.K s))
    as (_ & _ & Hwrap).
  destruct (Hwrap Hneg) as (days & Hl & -> & Hdays). cbn.
  destruct (add_days_today now days Hc ltac:(lia)) as (nd & Hadd). rewrite Hadd. cbn.
  apply add_days_spec in Hadd as (Ho & _).
  eexists _, days, nd. split; [done|]. by simplify_map_eq.
Qed.

Lemma schedule_next_advance now card q (s : Z) :
  Spec.card_in_range card → Spec.step_of card s → Spec.clock_ok now →
  q ≠ "again" → q ≠ "hard" →
  ∃ card' s', Srs.schedule_next now card q = Ok card' ∧ Spec.card_in_range card'
    ∧ Spec.step_of card' s' ∧ Z.min (s + 1) (Spec.K - 1) <= s' <= Spec.K - 1.
Proof.
  intros Hr Hs Hc Ha Hh. pose proof Hr as (e & s0 & He & Hs0 & Her & Hsr).
  rewrite (step_of_fun card s0 s Hs0 Hs) in Hsr.
  destruct (schedule_next_ok now card q e s He Hs Hsr Hc) as [card' Hret].
  exists card', (Spec.step_transition (Spec.grade_of q) Spec.K s).
  split; [done|]. split; [by eapply schedule_next_in_range|].
  apply schedule_next_inv in Hret as (e' & s1 & days & nd & _ & Hs1 & _ & _ & ->).
  rewrite (step_of_fun card s1 s Hs1 Hs). split.
  - eapply Spec.step_given; [by simplify_map_eq|done].
  - unfold Spec.grade_of. rewrite !decide_False by done. unfold Spec.step_in_range in Hsr.
    repeat case_decide; cbn; lia.
Qed.

(** X5. Grades other than "again" and "hard" only move a card up the ladder:
    after at least K-1 of them in a row, at any clock readings, a card that
    satisfied the invariant of the data model is on the last step. *)
Theorem schedule_seq_reaches_top card (l : list (datetime * string)) :
  Spec.card_in_range card → Forall Spec.clock_ok l.*1 →
  Forall (λ q, q ≠ "again" ∧ q ≠ "hard") l.*2 →
  (Z.to_nat (Spec.K - 1) <= length l)%nat →
  ∃ card', Spec.schedule_seq card l = Ok card' ∧ Spec.step_of card' (Spec.K - 1).
Proof.
  intros Hr Hc Hq Hlen.
  assert (∀ l card s, Spec.card_in_range card → Spec.step_of card s →
            Forall Spec.clock_ok l.*1 → Forall (λ q, q ≠ "again" ∧ q ≠ "hard") l.*2 →
            ∃ card' s', Spec.schedule_seq card l = Ok card' ∧ Spec.step_of card' s'
              ∧ Z.min (s + Z.of_nat (length l)) (Spec.K - 1) <= s' <= Spec.K - 1)
    as Hgen.
  { clear. intros l. induction l as [|[now q] l IH]; intros card s Hr Hs Hc Hq.
    - exists card, s. split; [done|]. split; [done|].
      destruct Hr as (e & s0 & _ & Hs0 & _ & Hsr).
      rewrite (step_of_fun card s0 s Hs0 Hs) in Hsr. unfold Spec.step_in_range in Hsr.
      cbn. lia.
    - apply Forall_cons in Hc as [Hnow Hc]. apply Forall_cons in Hq as [[Ha Hh] Hq].
      cbn in Hnow, Ha, Hh.
      destruct (schedule_next_advance now card q s Hr Hs Hnow Ha Hh)
        as (card1 & s1 & Hret & Hr1 & Hs1 & Hb).
      destruct (IH card1 s1 Hr1 Hs1 Hc Hq) as (card' & s' & Hseq & Hs' & Hb').
      exists card', s'. cbn [Spec.schedule_seq]. rewrite Hret. cbn.
      split; [done|]. split; [done|]. cbn [length]. lia. }
  destruct Hr as (e & s & He & Hs & Her & Hsr).
  destruct (Hgen l card s ltac:(by exists e, s) Hs Hc Hq) as (card' & s' & Hseq & Hs' & Hb).
  exists card'. split; [done|].
  unfold Spec.step_in_range in Hsr. replace (Spec.K - 1) with s'; [done|].
  change Spec.K with 5 in *. lia.
Qed.
End scheduler_more.

(** ** The drift of the ease

    The ease of a card is measured in units of [2^-57]; one "again" lowers
    it by 0.2 up to the rounding of the subtraction, one "easy" raises it by
    0.05 up to the rounding of the addition. *)

Lemma scaled_in_range (e : float) :
  Spec.ease_in_range e → 187349744498612640 <= Ease.scaled e <= 432345564227567616.
Proof.
  intros H. unfold Ease.scaled.
  destruct (ease_in_range_SF e H) as (m & ex & -> & [[-> Hb] | [-> Hb]]).
  - change (2 ^ (-52 + 57)) with 32. change (2 ^ 53) with 9007199254740992 in Hb. lia.
  - change (2 ^ (-51 + 57)) with 64. change (2 ^ 52) with 4503599627370496 in Hb. lia.
Qed.

Ltac round_bounds N e d :=
  let Hd := fresh "Hd" in
  assert (Hd : Z.pos (digits2_pos N) = d) by (apply digits2_pos_unique; lia);
  rewrite (binary_normalize_round_aux N e d Hd) by lia;
  let R := fresh "R" in let e' := fresh "e'" in
  let HR := fresh "HR" in let Hlt := fresh "Hlt" in let Hov := fresh "Hov" in
  destruct (binary_round_aux_bounds N e d Hd) as
    (R & e' & -> & [(-> & HR & Hlt) | (-> & HR & Hov)]); [lia | lia | lia | |];
  (let v := eval vm_compute in (2 ^ (d - 53)) in change (2 ^ (d - 53)) with v in *);
  (eexists R, _; split; [reflexivity|]; split; [lia|]).

Ltac eval_pow :=
  repeat match goal with
    | |- context [2 ^ ?x] =>
        let v := eval vm_compute in (2 ^ x) in change (2 ^ x) with v
    | H : context [2 ^ ?x] |- _ =>
        let v := eval vm_compute in (2 ^ x) in change (2 ^ x) with v in H
    end.

Lemma sub_02_scaled (e : float) :
  Spec.ease_in_range e →
  ∃ R e', Prim2SF (e - 0.2) = S754_finite false R e'
    ∧ -52 <= e' <= -50
    ∧ Z.pos R * 2 ^ (e' + 57) <= Ease.scaled e - 28823037615171112.
Proof.
  intros H. unfold Ease.scaled.
  destruct (ease_in_range_SF e H) as (m & ex & Hm & [[-> Hb] | [-> Hb]]);
    rewrite sub_spec, Hm;
    change (Prim2SF 0.2) with (S754_finite false 7205759403792794 (-55)).
  - change (SF64sub _ _) with
      (binary_normalize prec emax (Z.pos m~0~0~0 - 7205759403792794) (-55) false).
    destruct (Z.pos m~0~0~0 - 7205759403792794) as [|N|N] eqn:EN; [lia| |lia].
    round_bounds N (-55) 56; eval_pow; lia.
  - change (SF64sub _ _) with
      (binary_normalize prec emax (Z.pos m~0~0~0~0 - 7205759403792794) (-55) false).
    destruct (Z.pos m~0~0~0~0 - 7205759403792794) as [|N|N] eqn:EN; [lia| |lia].
    destruct (Z_lt_le_dec (Z.pos N) (2 ^ 56)).
    + round_bounds N (-55) 56; eval_pow; lia.
    + round_bounds N (-55) 57; eval_pow; lia.
Qed.

Lemma add_005_scaled (e : float) :
  Spec.ease_in_range e →
  ∃ R e', Prim2SF (e + 0.05) = S754_finite false R e'
    ∧ -52 <= e' <= -50
    ∧ Ease.scaled e + 7205759403792666 <= Z.pos R * 2 ^ (e' + 57).
Proof.
  intros H. unfold Ease.scaled.
  destruct (ease_in_range_SF e H) as (m & ex & Hm & [[-> Hb] | [-> Hb]]);
    rewrite add_spec, Hm;
    change (Prim2SF 0.05) with (S754_finite false 7205759403792794 (-57)).
  - change (SF64add _ _) with
      (binary_normalize prec emax (Z.pos m~0~0~0~0~0 + 7205759403792794) (-57) false).
    destruct (Z.pos m~0~0~0~0~0 + 7205759403792794) as [|N|N] eqn:EN; [lia| |lia].
    destruct (Z_lt_le_dec (Z.pos N) (2 ^ 58)).
    + round_bounds N (-57) 58; eval_pow; lia.
    + round_bounds N (-57) 59; eval_pow; lia.
  - change (SF64add _ _) with
      (binary_normalize prec emax (Z.pos m~0~0~0~0~0~0 + 7205759403792794) (-57) false).
    destruct (Z.pos m~0~0~0~0~0~0 + 7205759403792794) as [|N|N] eqn:EN; [lia| |lia].
    destruct (Z_lt_le_dec (Z.pos N) (2 ^ 59)).
    + round_bounds N (-57) 59; eval_pow; lia.
    + round_bounds N (-57) 60; eval_pow; lia.
Qed.

Lemma again_step (e : float) :
  Spec.ease_in_range e →
  max_float 1.3 (e - 0.2) = 1.3%float
  ∨ Ease.scaled (max_float 1.3 (e - 0.2)) <= Ease.scaled e - 28823037615171112.
Proof.
  intros H. unfold max_float. destruct (1.3 <? e - 0.2)%float; [right|by left].
  destruct (sub_02_scaled e H) as (R & e' & HR & _ & Hle).
  unfold Ease.scaled at 1. by rewrite HR.
Qed.

Lemma easy_step (e : float) :
  Spec.ease_in_range e →
  min_float 3.0 (e + 0.05) = 3.0%float
  ∨ Ease.scaled e + 7205759403792666 <= Ease.scaled (min_float 3.0 (e + 0.05)).
Proof.
  intros H. unfold min_float. destruct (e + 0.05 <? 3.0)%float; [right|by left].
  destruct (add_005_scaled e H) as (R & e' & HR & _ & Hle).
  unfold Ease.scaled at 2. by rewrite HR.
Qed.

Section drift.
Context `{Runtime}.

Implicit Types (card : gmap string value) (now : datetime) (q : string).

Lemma schedule_next_ease now card q (e : float) :
  Spec.card_in_range card → Spec.ease_of card e → Spec.clock_ok now →
  ∃ card', Srs.schedule_next now card q = Ok card' ∧ Spec.card_in_range card'
    ∧ Spec.ease_of card' (Spec.ease_transition (Spec.grade_of q) e).
Proof.
  intros Hr He Hc. pose proof Hr as (e0 & s & He0 & Hs & Her & Hsr).
  destruct (schedule_next_ok now card q e s He Hs Hsr Hc) as [card' Hret].
  exists card'. split; [done|]. split; [by eapply schedule_next_in_range|].
  apply schedule_next_inv in Hret as (e1 & s1 & days & nd & He1 & _ & _ & _ & ->).
  rewrite (ease_of_fun card e e1 He He1).
  eapply Spec.ease_given; [by simplify_map_eq|done].
Qed.

(** X25. The floor of the ease is reached: after nine "again" in a row, at
    any clock readings, a card that satisfied the invariant of the data model
    has the ease 1.3 exactly (and the step 0), from whatever ease between 1.3
    and 3.0 it started; further "again" leave it there. *)
Theorem schedule_seq_again_floor card (l : list datetime) :
  Spec.card_in_range card → Forall Spec.clock_ok l → (9 <= length l)%nat →
  ∃ card', Spec.schedule_seq card ((λ now, (now, "again")) <$> l) = Ok card'
    ∧ Spec.ease_of card' 1.3 ∧ Spec.step_of card' 0.
Proof.
  intros Hr Hl Hlen.
  assert (∀ l card (e : float) (k : Z),
            Spec.card_in_range card → Spec.ease_of card e → Forall Spec.clock_ok l →
            e = 1.3%float ∨ Ease.scaled e + k * 28823037615171112 <= 432345564227567616 →
            ∃ card' (e' : float),
              Spec.schedule_seq card ((λ now, (now, "again")) <$> l) = Ok card'
              ∧ Spec.card_in_range card' ∧ Spec.ease_of card' e'
              ∧ (l ≠ [] → Spec.step_of card' 0)
              ∧ (e' = 1.3%float
                 ∨ Ease.scaled e' + (k + Z.of_nat (length l)) * 28823037615171112
                   <= 432345564227567616)) as Hgen.
  { clear. intros l. induction l as [|now l IH]; intros card e k Hr He Hl Hinv.
    - exists card, e. split; [done|]. split; [done|]. split; [done|]. split; [done|].
      cbn [length]. destruct Hinv; [by left|right; lia].
    - apply Forall_cons in Hl as [Hnow Hl]. cbn [fmap list_fmap Spec.schedule_seq].
      destruct (schedule_next_ease now card "again" e Hr He Hnow) as (card1 & Hret & Hr1 & He1).
      rewrite Hret. cbn [mbind result_bind].
      change (Spec.ease_transition (Spec.grade_of "again") e)
        with (max_float 1.3 (e - 0.2)) in He1.
      assert (Spec.step_of card1 0) as Hs1.
      { apply schedule_next_inv in Hret as (e2 & s2 & days & nd & _ & _ & _ & _ & ->).
        eapply Spec.step_given; [by simplify_map_eq|done]. }
      assert (Spec.ease_in_range e) as Her.
      { destruct Hr as (e0 & s0 & He0 & _ & Her & _). by rewrite (ease_of_fun card e e0). }
      destruct (IH card1 (max_float 1.3 (e - 0.2)) (k + 1) Hr1 He1 Hl)
        as (card' & e' & Hseq & Hr' & He' & Hs' & Hinv').
      { destruct Hinv as [->|Hinv]; [by left|].
        destruct (again_step e Her) as [->|Hstep]; [by left|right]. lia. }
      exists card', e'. split; [done|]. split; [done|]. split; [done|]. split.
      + intros _. destruct l as [|now' l]; [|by apply Hs'].
        cbn in Hseq. by simplify_eq.
      + destruct Hinv' as [->|Hinv']; [by left|right]. cbn [length]. lia. }
  destruct Hr as (e & s & He & Hs & Her & Hsr).
  destruct (Hgen l card e 0 ltac:(by exists e, s) He Hl) as (card' & e' & Hseq & Hr' & He' & Hs' & Hinv).
  { right. pose proof (scaled_in_range e Her). lia. }
  exists card'. split; [done|].
  assert (e' = 1.3%float) as ->.
  { destruct Hinv as [->|Hinv]; [done|]. exfalso.
    destruct Hr' as (e0 & s0 & He0 & _ & Her0 & _).
    rewrite (ease_of_fun card' e' e0 He' He0) in Hinv.
    pose proof (scaled_in_range e0 Her0). lia. }
  split; [done|]. apply Hs'. intros ->. cbn in Hlen. lia.
Qed.

(** X26. The ceiling of the ease is reached: after thirty-five "easy" in a
    row, at any clock readings, a card that satisfied the invariant of the
    data model has the ease 3.0 exactly and stands on the last step. *)
Theorem schedule_seq_easy_ceiling card (l : list datetime) :
  Spec.card_in_range card → Forall Spec.clock_ok l → (35 <= length l)%nat →
  ∃ card', Spec.schedule_seq card ((λ now, (now, "easy")) <$> l) = Ok card'
    ∧ Spec.ease_of card' 3.0 ∧ Spec.step_of card' (Spec.K - 1).
Proof.
  intros Hr Hl Hlen.
  assert (∀ l card (e : float) (s k : Z),
            Spec.card_in_range card → Spec.ease_of card e → Spec.step_of card s →
            Forall Spec.clock_ok l →
            e = 3.0%float ∨ 187349744498612640 + k * 7205759403792666 <= Ease.scaled e →
            ∃ card' (e' : float) (s' : Z),
              Spec.schedule_seq card ((λ now, (now, "easy")) <$> l) = Ok card'
              ∧ Spec.card_in_range card' ∧ Spec.ease_of card' e' ∧ Spec.step_of card' s'
              ∧ Z.min (s + Z.of_nat (length l)) (Spec.K - 1) <= s'
              ∧ (e' = 3.0%float
                 ∨ 187349744498612640 + (k + Z.of_nat (length l)) * 7205759403792666
                   <= Ease.scaled e')) as Hgen.
  { clear. intros l. induction l as [|now l IH]; intros card e s k Hr He Hs Hl Hinv.
    - exists card, e, s. split; [done|]. split; [done|]. split; [done|]. split; [done|].
      cbn [length]. split; [lia|]. destruct Hinv; [by left|right; lia].
    - apply Forall_cons in Hl as [Hnow Hl]. cbn [fmap list_fmap Spec.schedule_seq].
      destruct (schedule_next_ease now card "easy" e Hr He Hnow) as (card1 & Hret & Hr1 & He1).
      rewrite Hret. cbn [mbind result_bind].
      change (Spec.ease_transition (Spec.grade_of "easy") e)
        with (min_float 3.0 (e + 0.05)) in He1.
      assert (Spec.step_of card1 (Z.min (s + 2) (Spec.K - 1))) as Hs1.
      { apply schedule_next_inv in Hret as (e2 & s2 & days & nd & _ & Hs2 & _ & _ & ->).
        rewrite (step_of_fun card s s2 Hs Hs2).
        eapply Spec.step_given; [by simplify_map_eq|done]. }
      assert (Spec.ease_in_range e) as Her.
      { destruct Hr as (e0 & s0 & He0 & _ & Her & _). by rewrite (ease_of_fun card e e0). }
      destruct (IH card1 (min_float 3.0 (e + 0.05)) (Z.min (s + 2) (Spec.K - 1)) (k + 1)
                  Hr1 He1 Hs1 Hl)
        as (card' & e' & s' & Hseq & Hr' & He' & Hs' & Hstep' & Hinv').
      { destruct Hinv as [->|Hinv]; [by left|].
        destruct (easy_step e Her) as [->|Hstep]; [by left|right]. lia. }
      exists card', e', s'. split; [done|]. split; [done|]. split; [done|]. split; [done|].
      split; [cbn [length]; lia|].
      destruct Hinv' as [->|Hinv']; [by left|right]. cbn [length]. lia. }
  destruct Hr as (e & s & He & Hs & Her & Hsr).
  destruct (Hgen l card e s 0 ltac:(by exists e, s) He Hs Hl)
    as (card' & e' & s' & Hseq & Hr' & He' & Hs' & Hstep & Hinv).
  { right. pose proof (scaled_in_range e Her). lia. }
  exists card'. split; [done|].
  destruct Hr' as (e0 & s0 & He0 & Hs0 & Her0 & Hsr0).
  rewrite (step_of_fun card' s' s0 Hs' Hs0) in Hstep.
  assert (e' = 3.0%float) as ->.
  { destruct Hinv as [->|Hinv]; [done|]. exfalso.
    rewrite (ease_of_fun card' e' e0 He' He0) in Hinv.
    pose proof (scaled_in_range e0 Her0). lia. }
  split; [done|]. unfold Spec.step_in_range in Hsr, Hsr0. change Spec.K with 5 in *.
  replace (5 - 1) with s0 by lia. done.
Qed.
End drift.

(** ** Due dates over time *)

Lemma lex_compare_cons (x y : Z) (a b : list Z) :
  lex_compare (x :: a) (y :: b) = match x ?= y with Eq => lex_compare a b | c => c end.
Proof. reflexivity. Qed.

Lemma lex_compare_antisym (a : list Z) : ∀ b, lex_compare b a = CompOpp (lex_compare a b).
Proof.
  induction a as [|x a IH]; intros [|y b]; try reflexivity.
  rewrite !lex_compare_cons, (Z.compare_antisym x y).
  destruct (x ?= y); cbn; [apply IH|done..].
Qed.

Lemma lex_compare_trans (a : list Z) : ∀ b c,
  lex_compare a b ≠ Gt → lex_compare b c ≠ Gt → lex_compare a c ≠ Gt.
Proof.
  induction a as [|x a IH]; intros [|y b] [|z c]; try done.
  rewrite !lex_compare_cons.
  destruct (Z.compare_spec x y), (Z.compare_spec y z), (Z.compare_spec x z);
    try done; try lia; subst; eauto.
Qed.

Lemma valid_datetime_intro (dt : datetime) :
  1 <= year dt <= 9999 → 1 <= month dt <= 12 →
  1 <= day dt <= days_in_month (year dt) (month dt) →
  hour dt = 0 → minute dt = 0 → second dt = 0 → microsecond dt = 0 →
  valid_datetime dt = true.
Proof.
  intros Hy Hm Hd Hh Hmi Hs Hus.
  unfold valid_datetime, MINYEAR, MAXYEAR. rewrite Hh, Hmi, Hs, Hus.
  repeat (apply andb_true_intro; split);
    try (apply Z.leb_le; lia); try (apply Z.ltb_lt; lia).
Qed.

Lemma isoformat_midnight (dt : datetime) :
  hour dt = 0 → minute dt = 0 → second dt = 0 → microsecond dt = 0 → tzinfo dt = None →
  isoformat dt = date_isoformat (year dt) (month dt) (day dt) +:+ "T00:00:00".
Proof.
  intros Hh Hmi Hs Hus Htz. unfold isoformat, time_isoformat.
  by rewrite Hh, Hmi, Hs, Hus, Htz.
Qed.

Lemma isoformat_midnight_truthy (dt : datetime) :
  hour dt = 0 → minute dt = 0 → second dt = 0 → microsecond dt = 0 → tzinfo dt = None →
  truthy (VStr (isoformat dt)) = true.
Proof.
  intros Hh Hmi Hs Hus Htz. rewrite isoformat_midnight by done. cbn.
  pose proof (due_text_length (year dt) (month dt) (day dt)) as Hlen.
  destruct (String.eqb_spec (date_isoformat (year dt) (month dt) (day dt) +:+ "T00:00:00") "")
    as [E|E]; [|done].
  rewrite E in Hlen. done.
Qed.

Section due_more.
Context `{Runtime}.

Implicit Types (card : gmap string value) (now later : datetime) (q : string).

(** Among valid clock readings, the day of a later one is not before. *)
Lemma today_le now later :
  valid_datetime now = true → valid_datetime later = true →
  toordinal now <= toordinal later →
  lex_compare (fields (Srs._today now)) (fields (Srs._today later)) ≠ Gt.
Proof.
  intros Hn Hl Hle Hgt.
  pose proof (lex_compare_timestamp _ _ (today_valid now Hn) (today_valid later Hl)) as Hc.
  rewrite Hgt in Hc. unfold Spec.timestamp in Hc.
  change (toordinal (Srs._today now)) with (toordinal now) in Hc.
  change (toordinal (Srs._today later)) with (toordinal later) in Hc.
  cbn [hour minute second microsecond Srs._today] in Hc. lia.
Qed.

(** X6. A card that is due stays due: if [is_due] is true at one clock
    reading it is true at every reading of the same or a later day, whatever
    the due field holds. *)
Theorem is_due_monotone now later card :
  valid_datetime now = true → valid_datetime later = true →
  toordinal now <= toordinal later →
  Srs.is_due now card = true → Srs.is_due later card = true.
Proof.
  intros Hn Hl Hle. unfold Srs.is_due.
  destruct (negb (truthy _)); [done|].
  destruct (fromisoformat _) as [d|]; [|done]. cbn.
  unfold datetime_ge. cbn [tzinfo Srs._today].
  destruct (tzinfo d); [done|].
  change (mk_datetime (year now) (month now) (day now) 0 0 0 0 None) with (Srs._today now).
  change (mk_datetime (year later) (month later) (day later) 0 0 0 0 None)
    with (Srs._today later).
  pose proof (today_le now later Hn Hl Hle) as Hnl.
  rewrite !negb_true_iff, !bool_decide_eq_false. intros Hnd Hld.
  pose proof (lex_compare_trans (fields d) (fields (Srs._today now))
                (fields (Srs._today later))) as Htrans.
  rewrite (lex_compare_antisym (fields (Srs._today later)) (fields d)) in Htrans.
  rewrite (lex_compare_antisym (fields (Srs._today now)) (fields d)) in Htrans.
  rewrite Hld in Htrans.
  destruct (lex_compare (fields (Srs._today now)) (fields d)); [| done |];
    by apply Htrans.
Qed.

(** X7. What [schedule_next] writes, [is_due] reads back. The due field of
    the returned card is the text of the date [days] days after today, for
    the interval [days] of the new step, between 1 and 30; when the runtime
    parses that text back to that date, the card is not due on the day of the
    grading, and at any clock reading it is due exactly from the day [days]
    days later on. *)
Theorem schedule_next_then_is_due now card q card' :
  valid_datetime now = true →
  Srs.schedule_next now card q = Ok card' →
  ∃ step' days next_due,
    card' !! "step" = Some (VInt step')
    ∧ list_item SRS_INTERVALS_DAYS step' = Ok days ∧ 1 <= days <= 30
    ∧ add_days (Srs._today now) days = Ok next_due
    ∧ card' !! "due" = Some (VStr (isoformat next_due))
    ∧ (parse_isoformat (isoformat next_due) = Some next_due →
        Srs.is_due now card' = false
        ∧ ∀ later, valid_datetime later = true →
            (Srs.is_due later card' = true ↔ toordinal now + days <= toordinal later)).
Proof.
  intros Hn Hret.
  apply schedule_next_inv in Hret as (e & s & days & nd & _ & _ & Hd & Hadd & ->).
  eexists _, days, nd. split; [by simplify_map_eq|]. split; [done|].
  assert (1 <= days <= 30) as Hdays.
  { set (s' := Spec.step_transition _ _ _) in *.
    destruct (list_item_ladder s') as (Hout & Hin & Hneg).
    destruct (decide (Spec.K <= s' ∨ s' < - Spec.K)) as [Ho|Ho];
      [rewrite (Hout Ho) in Hd; done|].
    destruct (decide (0 <= s')).
    - destruct Hin as (days' & _ & Hd' & ?); [lia|]. congruence.
    - destruct Hneg as (days' & _ & Hd' & ?); [lia|]. congruence. }
  split; [done|]. split; [done|]. split; [by simplify_map_eq|].
  intros Hparse.
  pose proof Hadd as Hspec.
  apply add_days_spec in Hspec as (Ho & Hy & Hm & Hday & Hh & Hmi & Hs & Hus & Htz).
  cbn [Srs._today hour minute second microsecond tzinfo] in Hh, Hmi, Hs, Hus, Htz.
  change (toordinal (Srs._today now)) with (toordinal now) in Ho.
  assert (valid_datetime nd = true) as Hvnd by (by apply valid_datetime_intro).
  assert (∀ later, valid_datetime later = true →
            (Srs.is_due later (<["due":=VStr (isoformat nd)]> (<["ease":=VFloat (Spec.ease_transition (Spec.grade_of q) e)]> (<["step":=VInt (Spec.step_transition (Spec.grade_of q) Spec.K s)]> card))) = true
             ↔ toordinal now + days <= toordinal later)) as Hiff.
  { intros later Hl. unfold Srs.is_due, dict_get. rewrite lookup_insert_eq. unfold default; cbn [from_option id].
    rewrite isoformat_midnight_truthy by done. cbn [negb fromisoformat].
    rewrite Hparse. cbn. unfold datetime_ge. cbn [tzinfo Srs._today]. rewrite Htz.
    change (mk_datetime (year later) (month later) (day later) 0 0 0 0 None)
      with (Srs._today later).
    pose proof (lex_compare_timestamp (Srs._today later) nd (today_valid later Hl) Hvnd)
      as Hcmp.
    unfold Spec.timestamp in Hcmp.
    change (toordinal (Srs._today later)) with (toordinal later) in Hcmp.
    cbn [hour minute second microsecond Srs._today] in Hcmp.
    rewrite Hh, Hmi, Hs, Hus in Hcmp.
    destruct (lex_compare _ _); case_bool_decide; try done; cbn [negb];
      split; intros; (done || lia). }
  split; [|done].
  apply not_true_is_false. rewrite (Hiff now Hn). lia.
Qed.
End due_more.

(** ** The store after an upsert *)

Section store_more.
Context `{Runtime}.

Implicit Types (c item a : gmap string value) (cs l : list value)
  (new : list (gmap string value)) (existing : index) (d : disk).

(** The loop keeps the list it started on in place, up to the merged cards,
    and puts the new items behind it in the order of the input. *)
Lemma upsert_loop_shape existing (n0 : nat) :
  (∀ k j, index_get k existing = Some j → (j < n0)%nat) →
  ∀ new l (count : Z),
    Forall Spec.keyed new →
    (∀ i, (i < n0)%nat → ∃ c, l !! i = Some (VDict c)) →
    (n0 <= length l)%nat →
    ∃ l0, upsert_loop existing (VList l, count) new
          = Ok (VList (l0 ++ (VDict <$> Deck.appended existing new)),
                count + Z.of_nat (length new))
      ∧ length l0 = length l ∧ drop n0 l0 = drop n0 l.
Proof.
  intros Hbound. induction new as [|item new IH]; intros l count Hnew Hl Hn0.
  - exists l. cbn. rewrite app_nil_r. split; [do 2 f_equal; lia|done].
  - apply Forall_cons in Hnew as [Hitem Hnew]. cbn [upsert_loop].
    unfold Deck.appended. rewrite filter_cons. fold (Deck.appended existing new).
    unfold Spec.keyed in Hitem. unfold upsert_one at 1.
    destruct (card_key item) as [k|] eqn:Hk; [|done]. cbn.
    assert (Spec.target existing item = index_get k existing) as Ht
      by (unfold Spec.target; by rewrite Hk).
    destruct (index_get k existing) as [idx|] eqn:Hidx.
    + pose proof (Hbound _ _ Hidx) as Hlt.
      destruct (Hl idx Hlt) as [c Hc]. cbn. rewrite Hc. cbn.
      destruct (IH (<[idx := VDict (dict_update c (non_null item))]> l) (count + 1) Hnew)
        as (l0 & -> & Hlen & Hdrop).
      { intros i Hi. destruct (decide (i = idx)) as [->|Hne].
        - rewrite list_lookup_insert_eq by (by eapply lookup_lt_Some). by eexists.
        - rewrite list_lookup_insert_ne by done. by apply Hl. }
      { by rewrite length_insert. }
      rewrite decide_False by (by rewrite Ht).
      exists l0. split; [do 2 f_equal; cbn [length]; lia|].
      rewrite length_insert in Hlen. split; [done|].
      rewrite Hdrop. by rewrite drop_insert_lt by lia.
    + cbn.
      destruct (IH (l ++ [VDict item]) (count + 1) Hnew) as (l0 & -> & Hlen & Hdrop).
      { intros i Hi. destruct (Hl i Hi) as [c Hc]. exists c. by apply lookup_app_l_Some. }
      { rewrite length_app. lia. }
      rewrite decide_True by (by rewrite Ht).
      rewrite drop_app_le in Hdrop by done. rewrite length_app in Hlen. cbn in Hlen.
      exists (take n0 l0 ++ drop n0 l). split; [|split].
      * do 2 f_equal; [|cbn [length]; lia]. f_equal.
        rewrite <- (take_drop n0 l0) at 1. rewrite Hdrop.
        rewrite fmap_cons. by rewrite <- !app_assoc.
      * rewrite length_app, length_take, length_drop. lia.
      * rewrite drop_app_length'; [done|]. rewrite length_take. lia.
Qed.

Lemma keyed_merge c item :
  Spec.keyed c → Spec.keyed item → Spec.keyed (dict_update c (non_null item)).
Proof.
  unfold Spec.keyed, card_key, dict_item, dict_get_or.
  rewrite !lookup_dict_update_non_null.
  destruct (item !! "term") as [[]|]; try done. cbn.
  destruct (c !! "term") as [[]|]; try done. cbn.
  destruct (item !! "lang") as [[]|], (c !! "lang") as [[]|]; cbn; done.
Qed.

Lemma upsert_loop_keyed existing : ∀ new l (count : Z) l' (count' : Z),
  Forall Spec.keyed new → Forall Spec.keyed_value l →
  upsert_loop existing (VList l, count) new = Ok (VList l', count') →
  Forall Spec.keyed_value l'.
Proof.
  induction new as [|item new IH]; intros l count l' count' Hnew Hl Hret.
  - cbn in Hret. by simplify_eq.
  - apply Forall_cons in Hnew as [Hitem Hnew]. cbn [upsert_loop] in Hret.
    unfold upsert_one at 1 in Hret.
    destruct (card_key item) as [k|] eqn:Hk; [|done]. cbn in Hret.
    destruct (index_get k existing) as [idx|] eqn:Hidx; cbn in Hret.
    + destruct (l !! idx) as [v|] eqn:Hv; [|done].
      destruct v as [| | | | | |c]; try done. cbn in Hret.
      eapply IH; [done| |exact Hret].
      apply Forall_insert; [done|]. unfold Spec.keyed_value. cbn [value_key].
      apply keyed_merge; [|done].
      rewrite Forall_lookup in Hl. exact (Hl idx _ Hv).
    + eapply IH; [done| |exact Hret].
      apply Forall_app. split; [done|]. by repeat constructor.
Qed.

Lemma upsert_in_memory_shape (db : value) (m : gmap string value) cs new :
  Spec.well_formed db m cs → Forall Spec.keyed new →
  ∃ existing merged,
    build_index 0 cs [] = Ok existing
    ∧ upsert_in_memory db new
      = Ok (VDict (<["cards" := VList (merged ++ (VDict <$> Deck.appended existing new))]> m),
            Z.of_nat (length new))
    ∧ length merged = length cs
    ∧ Forall Spec.keyed_value (merged ++ (VDict <$> Deck.appended existing new)).
Proof.
  intros (-> & Hcards & Hcs) Hnew.
  destruct (build_index_ok cs 0 [] Hcs) as [existing Hex].
  assert (∀ k j, index_get k existing = Some j → (j < length cs)%nat) as Hbound.
  { intros k j Hk.
    by apply (build_index_bound cs 0 [] existing Hex ltac:(done) k j Hk). }
  destruct (upsert_loop_shape existing (length cs) Hbound new cs 0 Hnew)
    as (merged & Hloop & Hlen & _); [|done|].
  { intros i Hi. destruct (lookup_lt_is_Some_2 cs i Hi) as [v Hv].
    rewrite Forall_lookup in Hcs.
    destruct (keyed_value_dict v (Hcs i v Hv)) as [c ->]. by exists c. }
  exists existing, merged. split; [done|]. split; [|split; [done|]].
  - unfold upsert_in_memory, subscript, dict_item. rewrite Hcards. cbn.
    rewrite Hex. cbn. by rewrite Hloop.
  - by eapply upsert_loop_keyed.
Qed.

Lemma merged_field_untargeted existing (i : nat) (f : string) (o : option value) new :
  Forall (λ a, Spec.target existing a ≠ Some i) new →
  Spec.merged_field existing i f o new = o.
Proof.
  unfold Spec.merged_field. revert o.
  induction new as [|a new IH]; intros o Hnew; [done|].
  apply Forall_cons in Hnew as [Ha Hnew]. cbn [foldl].
  rewrite (IH _ Hnew). by rewrite decide_False.
Qed.

Lemma upsert_in_memory_full (db : value) (m : gmap string value) cs new :
  Spec.well_formed db m cs → Forall Spec.keyed new →
  ∃ existing cs',
    build_index 0 cs [] = Ok existing
    ∧ upsert_in_memory db new
      = Ok (VDict (<["cards" := VList cs']> m), Z.of_nat (length new))
    ∧ length cs' = (length cs + length (Deck.appended existing new))%nat
    ∧ drop (length cs) cs' = VDict <$> Deck.appended existing new
    ∧ Forall Spec.keyed_value cs'
    ∧ ∀ i c, cs !! i = Some (VDict c) →
        ∃ c', cs' !! i = Some (VDict c')
          ∧ ∀ f, c' !! f = Spec.merged_field existing i f (c !! f) new.
Proof.
  intros Hwf Hkeyed.
  destruct (upsert_in_memory_spec _ m cs new Hwf Hkeyed)
    as (existing & cs1 & Hex & Hmem & _ & Hmerge).
  destruct (upsert_in_memory_shape _ m cs new Hwf Hkeyed)
    as (ex2 & merged & Hex2 & Hmem2 & Hlen & Hkv).
  assert (ex2 = existing) as -> by congruence.
  assert (cs1 = merged ++ (VDict <$> Deck.appended existing new)) as Hcs1.
  { rewrite Hmem in Hmem2. injection Hmem2 as Heq.
    apply (f_equal (λ m, m !! "cards")) in Heq. rewrite !lookup_insert_eq in Heq.
    congruence. }
  exists existing, cs1. split; [done|]. split; [done|].
  split; [by rewrite Hcs1, length_app, length_fmap, Hlen|].
  split; [rewrite Hcs1; by apply drop_app_length'|].
  split; [by rewrite Hcs1|done].
Qed.

(** X8. [upsert_cards] never removes or moves a card. On a well-formed store
    and for items with a key, none of them holding a string that UTF-8 cannot
    encode, it saves a document in which every card that was there stands at
    its position, with the fields the items merged into it gave it and
    unchanged when no item has its key in the index; behind them stand the
    incoming items whose key was not in the index, in the order of the input
    and as they came. Every top-level field of the document other than
    [cards] (the lessons) is saved as it was loaded. *)
Theorem upsert_cards_shape new d (m : gmap string value) cs :
  Spec.well_formed (load_db d).1 m cs → Forall Spec.keyed new →
  encodable (load_db d).1 = true → Forall (λ a, encodable (VDict a) = true) new →
  ∃ existing cs' m',
    build_index 0 cs [] = Ok existing
    ∧ upsert_cards new d
      = (Ok (Z.of_nat (length new)), mk_disk true (Some (Json (VDict m'))))
    ∧ m' !! "cards" = Some (VList cs')
    ∧ (∀ k, k ≠ "cards" → m' !! k = m !! k)
    ∧ length cs' = (length cs + length (Deck.appended existing new))%nat
    ∧ drop (length cs) cs' = VDict <$> Deck.appended existing new
    ∧ ∀ (i : nat) v, cs !! i = Some v →
        ∃ c c', v = VDict c ∧ cs' !! i = Some (VDict c')
          ∧ (∀ f, c' !! f = Spec.merged_field existing i f (c !! f) new)
          ∧ (Forall (λ a, Spec.target existing a ≠ Some i) new → c' = c).
Proof.
  intros Hwf Hnew Henc Hitems.
  destruct (upsert_in_memory_full _ m cs new Hwf Hnew)
    as (existing & cs' & Hex & Hmem & Hlen & Hdrop & _ & Hmerge).
  exists existing, cs'. eexists. split; [done|].
  rewrite (upsert_cards_saved new d _ _ Henc Hitems Hmem). split; [done|].
  split; [by rewrite lookup_insert_eq|].
  split; [intros k Hk; by rewrite lookup_insert_ne|].
  split; [done|]. split; [done|].
  intros i v Hv. destruct Hwf as (_ & _ & Hcs). rewrite Forall_lookup in Hcs.
  destruct (keyed_value_dict v (Hcs i v Hv)) as [c ->].
  destruct (Hmerge i c Hv) as (c' & Hc' & Hf).
  exists c, c'. split; [done|]. split; [done|]. split; [done|].
  intros Hfree. apply map_eq. intros f. rewrite Hf.
  by apply merged_field_untargeted.
Qed.

Lemma load_db_fresh d :
  (db_file d = None ∨ ∃ raw, db_file d = Some (Corrupt raw)) →
  (load_db d).1 = empty_schema.
Proof.
  unfold load_db, _ensure_file. intros [->|[raw ->]]; done.
Qed.

Lemma appended_nil new : Deck.appended [] new = new.
Proof.
  unfold Deck.appended. induction new as [|a new IH]; [done|].
  rewrite filter_cons, IH. rewrite decide_True; [done|].
  unfold Spec.target. by destruct (card_key a).
Qed.

Lemma encodable_empty_schema : encodable empty_schema = true.
Proof.
  unfold empty_schema. apply encodable_insert; [done..|].
  rewrite <- insert_empty. apply encodable_insert; [done..|].
  apply encodable_dict, map_Forall_empty.
Qed.

(** X9. On a missing or an unparseable document [upsert_cards] writes, for
    items with a key that hold no string UTF-8 cannot encode, a new document
    that holds no lessons and exactly the incoming items, in order and
    unchanged (a repeated key included); what an unparseable document held
    is overwritten. *)
Theorem upsert_cards_fresh_store new d :
  (db_file d = None ∨ ∃ raw, db_file d = Some (Corrupt raw)) →
  Forall Spec.keyed new → Forall (λ a, encodable (VDict a) = true) new →
  upsert_cards new d
  = (Ok (Z.of_nat (length new)),
     mk_disk true (Some (Json (VDict {[ "lessons" := VList [];
                                        "cards" := VList (VDict <$> new) ]})))).
Proof.
  intros Hd Hnew Hitems.
  destruct (upsert_in_memory_shape empty_schema
              {[ "lessons" := VList []; "cards" := VList [] ]} [] new)
    as (existing & merged & Hex & Hmem & Hlen & _); [by repeat split|done|].
  cbn in Hex. injection Hex as <-. destruct merged as [|? ?]; [|done].
  rewrite appended_nil in Hmem. cbn [app] in Hmem.
  rewrite <- (load_db_fresh d Hd) in Hmem.
  rewrite (upsert_cards_saved new d _ _ ltac:(rewrite (load_db_fresh d Hd); apply encodable_empty_schema) Hitems Hmem).
  reflexivity.
Qed.

Lemma upsert_cards_keeps_well_formed new d (m : gmap string value) cs :
  Spec.well_formed (load_db d).1 m cs → Forall Spec.keyed new →
  encodable (load_db d).1 = true → Forall (λ a, encodable (VDict a) = true) new →
  ∃ m' cs',
    upsert_cards new d
    = (Ok (Z.of_nat (length new)), mk_disk true (Some (Json (VDict m'))))
    ∧ Spec.well_formed (VDict m') m' cs'
    ∧ encodable (VDict m') = true
    ∧ (length cs <= length cs')%nat.
Proof.
  intros Hwf Hnew Henc Hitems.
  destruct (upsert_in_memory_shape _ m cs new Hwf Hnew)
    as (existing & merged & Hex & Hmem & Hlen & Hkeyed).
  rewrite (upsert_cards_saved new d _ _ Henc Hitems Hmem).
  eexists _, _. split; [done|].
  split; [split; [done|split; [by rewrite lookup_insert_eq|done]]|].
  split; [by eapply upsert_in_memory_encodable|].
  rewrite length_app. lia.
Qed.

(** X10. Well-formedness of the store is an invariant of [upsert_cards]:
    through any sequence of calls whose items all have an identity key and
    hold no string that UTF-8 cannot encode, started on a document that holds
    none either, every call returns the number of its items, the store stays
    well-formed and the number of cards never goes down. *)
Theorem upsert_calls_return (calls : list (list (gmap string value))) :
  Forall (Forall Spec.keyed) calls →
  Forall (Forall (λ a, encodable (VDict a) = true)) calls →
  ∀ d (m : gmap string value) cs,
    Spec.well_formed (load_db d).1 m cs → encodable (load_db d).1 = true →
    (Deck.upsert_calls calls d).1 = (λ new, Ok (Z.of_nat (length new))) <$> calls
    ∧ ∃ m' cs', Spec.well_formed (load_db (Deck.upsert_calls calls d).2).1 m' cs'
        ∧ (length cs <= length cs')%nat.
Proof.
  induction calls as [|new calls IH]; intros Hcalls Hclean d m cs Hwf Henc.
  - split; [done|]. by exists m, cs.
  - apply Forall_cons in Hcalls as [Hnew Hcalls].
    apply Forall_cons in Hclean as [Hitems Hclean]. cbn [Deck.upsert_calls].
    destruct (upsert_cards_keeps_well_formed new d m cs Hwf Hnew Henc Hitems)
      as (m1 & cs1 & -> & Hwf1 & Henc1 & Hlen1).
    destruct (IH Hcalls Hclean (mk_disk true (Some (Json (VDict m1)))) m1 cs1 Hwf1 Henc1)
      as (Hrs & m' & cs' & Hwf' & Hlen').
    destruct (Deck.upsert_calls calls _) as [rs d']. cbn in *.
    split; [by rewrite Hrs|]. exists m', cs'. split; [done|lia].
Qed.

Lemma upsert_loop_app existing new1 : ∀ new2 (st : value * Z),
  upsert_loop existing st (new1 ++ new2)
  = (st' ← upsert_loop existing st new1; upsert_loop existing st' new2).
Proof.
  induction new1 as [|a new1 IH]; intros new2 st; [done|].
  cbn [app upsert_loop]. destruct (upsert_one existing st a) as [st1|e]; [|done].
  cbn. apply IH.
Qed.

Lemma card_key_raise c (e : exn) :
  card_key c = Raise e →
  (c !! "term" = None → e = KeyError)
  ∧ (∀ v, c !! "term" = Some v → (∀ s, v ≠ VStr s) → e = AttributeError)
  ∧ (∀ s, c !! "term" = Some (VStr s) → e = TypeError).
Proof.
  unfold card_key, dict_item, lower.
  destruct (c !! "term") as [v|]; cbn.
  - destruct v as [| | | |s| |]; cbn;
      try (intros [= <-]; split; [done|]; split; [done|]; intros s' [=]).
    destruct (hashable _); [done|]. intros [= <-].
    split; [done|]. split; [|done]. intros v [= <-] Hv. by destruct (Hv s).
  - intros [= <-]. split; [done|]. split; [done|]. done.
Qed.

(** X11. [upsert_cards] fails on the first incoming item without an identity
    key, with the exception of that item: [KeyError] for a missing [term],
    [AttributeError] for a [term] that is not a string (null included),
    [TypeError] for a [lang] that cannot be hashed. Nothing is saved, also
    not the items before it. *)
Theorem upsert_cards_first_bad_item good bad rest d (m : gmap string value) cs :
  Spec.well_formed (load_db d).1 m cs → Forall Spec.keyed good → ¬ Spec.keyed bad →
  ∃ e, upsert_cards (good ++ bad :: rest) d = (Raise e, _ensure_file d)
    ∧ card_key bad = Raise e
    ∧ (bad !! "term" = None → e = KeyError)
    ∧ (∀ v, bad !! "term" = Some v → (∀ s, v ≠ VStr s) → e = AttributeError)
    ∧ (∀ s, bad !! "term" = Some (VStr s) → e = TypeError).
Proof.
  intros Hwf Hgood Hbad. unfold Spec.keyed in Hbad.
  destruct (card_key bad) as [k|e] eqn:Hk; [done|]. exists e.
  split; [|split; [done|by apply card_key_raise]].
  rewrite upsert_cards_unfold. destruct Hwf as (-> & Hcards & Hcs).
  destruct (build_index_ok cs 0 [] Hcs) as [existing Hex].
  assert (∀ (kk : key) j, index_get kk existing = Some j → (j < length cs)%nat) as Hbound.
  { intros kk j Hkj.
    by apply (build_index_bound cs 0 [] existing Hex ltac:(done) kk j Hkj). }
  destruct (upsert_loop_shape existing (length cs) Hbound good cs 0 Hgood)
    as (l0 & Hloop & _); [|done|].
  { intros i Hi. destruct (lookup_lt_is_Some_2 cs i Hi) as [v Hv].
    rewrite Forall_lookup in Hcs.
    destruct (keyed_value_dict v (Hcs i v Hv)) as [c ->]. by exists c. }
  unfold upsert_in_memory, subscript, dict_item. rewrite Hcards. cbn.
  rewrite Hex. cbn. rewrite upsert_loop_app, Hloop. cbn [mbind result_bind upsert_loop].
  unfold upsert_one. by rewrite Hk.
Qed.

Lemma build_index_bad cs : ∀ (i : nat) (ix : index),
  Exists (λ v, ¬ Spec.keyed_value v) cs → ∃ e, build_index i cs ix = Raise e.
Proof.
  induction cs as [|v cs IH]; intros i ix Hbad; [by apply Exists_nil in Hbad|].
  cbn [build_index]. unfold Spec.keyed_value in Hbad.
  destruct (value_key v) as [k|e] eqn:Hv; [|by exists e]. cbn.
  apply IH. apply Exists_cons in Hbad as [Hbad|Hbad]; [|done].
  by rewrite Hv in Hbad.
Qed.

(** X12. One stored element without an identity key (a card without [term],
    say) makes every call of [upsert_cards] raise while the index is built,
    whatever the incoming items are, and the document stays as it is. *)
Theorem upsert_cards_bad_store new d (m : gmap string value) cs :
  (load_db d).1 = VDict m → m !! "cards" = Some (VList cs) →
  Exists (λ v, ¬ Spec.keyed_value v) cs →
  ∃ e, upsert_cards new d = (Raise e, _ensure_file d)
    ∧ (load_db (_ensure_file d)).1 = VDict m.
Proof.
  intros Hdb Hcards Hbad.
  destruct (build_index_bad cs 0 [] Hbad) as [e He]. exists e.
  rewrite upsert_cards_unfold, Hdb. split.
  - unfold upsert_in_memory, subscript, dict_item. rewrite Hcards. cbn. by rewrite He.
  - by rewrite (proj2 (load_db_ensured d)).
Qed.

(** The index holds, for a key, the position of the last card with it. *)
Lemma build_index_last cs : ∀ (i0 : nat) (ix ix' : index),
  Forall is_Some (Spec.ids cs) → Spec.sindex ix →
  build_index i0 cs ix = Ok ix' →
  ∀ k, Some k ∈ Spec.ids cs →
    ∃ p, index_get (Spec.skey k) ix' = Some (i0 + p)%nat
      ∧ Spec.ids cs !! p = Some (Some k)
      ∧ ∀ p', Spec.ids cs !! p' = Some (Some k) → (p' <= p)%nat.
Proof.
  induction cs as [|v cs IH]; intros i0 ix ix' Hcs Hix Hb k Hin.
  - by apply elem_of_nil in Hin.
  - pose proof Hb as Hb0. cbn [build_index] in Hb.
    cbn in Hcs. apply Forall_cons in Hcs as [[kv Hv] Hcs].
    destruct v as [| | | | | |c]; try done. cbn in Hv. cbn [value_key] in Hb.
    rewrite (identity_card_key c kv Hv) in Hb. cbn in Hb.
    destruct (decide (Some k ∈ Spec.ids cs)) as [Hc|Hc].
    + destruct (IH (S i0) _ ix' Hcs (index_set_sindex kv i0 ix Hix) Hb k Hc)
        as (p & Hp & Hpk & Hlast).
      exists (S p). split; [rewrite Hp; f_equal; lia|]. split; [done|].
      intros [|p'] Hp'; [lia|]. apply Hlast in Hp'. lia.
    + destruct (build_index_ids cs (S i0) _ ix' Hcs (index_set_sindex kv i0 ix Hix) Hb)
        as [_ Hk]. destruct (Hk k) as [Hnot _].
      cbn [Spec.ids fmap list_fmap] in Hin. fold (Spec.ids cs) in Hin. rewrite Hv in Hin.
      apply elem_of_cons in Hin as [[= ->]|Hin]; [|done].
      exists 0%nat. split; [|split].
      * rewrite (Hnot Hc), index_get_set_eq by done. f_equal. lia.
      * cbn. by rewrite Hv.
      * intros [|p'] Hp'; [lia|]. cbn in Hp'. apply list_elem_of_lookup_2 in Hp'. done.
Qed.

(** X14. An incoming item whose key is in the store changes exactly one
    card: the last one with that key. When neither the document nor the item
    holds a string that UTF-8 cannot encode, that card is updated with the
    non-null fields of the item, every other card and every top-level field
    is saved as it was, and the call returns 1. *)
Theorem upsert_cards_merges_into_last item d (m : gmap string value) cs k :
  (load_db d).1 = VDict m → m !! "cards" = Some (VList cs) →
  Forall is_Some (Spec.ids cs) →
  Spec.identity item = Some k → Some k ∈ Spec.ids cs →
  encodable (VDict m) = true → encodable (VDict item) = true →
  ∃ (p : nat) c,
    cs !! p = Some (VDict c) ∧ Spec.identity c = Some k
    ∧ (∀ p', Spec.ids cs !! p' = Some (Some k) → (p' <= p)%nat)
    ∧ upsert_cards [item] d
      = (Ok 1, mk_disk true
                 (Some (Json (VDict (<["cards" :=
                    VList (<[p := VDict (dict_update c (non_null item))]> cs)]> m))))).
Proof.
  intros Hdb Hcards Hcs Hk Hin Henc Hitem.
  destruct (build_index_ok cs 0 [] (ids_keyed cs Hcs)) as [existing Hex].
  destruct (build_index_last cs 0 [] existing Hcs ltac:(constructor) Hex k Hin)
    as (p & Hp & Hpk & Hlast).
  destruct (ids_lookup_dict cs p k Hpk) as (c & Hc & Hck).
  exists p, c. split; [done|]. split; [done|]. split; [done|].
  rewrite <- Hdb in Henc.
  apply (upsert_cards_saved [item] d _ _ Henc); [by repeat constructor|].
  rewrite Hdb. unfold upsert_in_memory, subscript, dict_item. rewrite Hcards. cbn.
  rewrite Hex. cbn. unfold upsert_one. rewrite (identity_card_key item k Hk). cbn.
  rewrite Hp. cbn. rewrite Hc. done.
Qed.

Lemma identity_keyed a k : Spec.identity a = Some k → Spec.keyed a.
Proof. intros Hk. unfold Spec.keyed. by rewrite (identity_card_key a k Hk). Qed.

Lemma merged_field_snoc existing (i : nat) (f : string) (o : option value) new a :
  Spec.merged_field existing i f o (new ++ [a])
  = if decide (Spec.target existing a = Some i)
    then Spec.merge_field (Spec.merged_field existing i f o new) (a !! f)
    else Spec.merged_field existing i f o new.
Proof. unfold Spec.merged_field. by rewrite foldl_snoc. Qed.

Lemma merged_field_idem existing (i : nat) (f : string) new : ∀ (o : option value),
  Spec.merged_field existing i f (Spec.merged_field existing i f o new) new
  = Spec.merged_field existing i f o new.
Proof.
  induction new as [|a new IH] using rev_ind; intros o; [done|].
  rewrite !merged_field_snoc. case_decide as Ht; [|apply IH].
  unfold Spec.merge_field.
  destruct (a !! f) as [v|]; [destruct (is_none v)|]; [apply IH|done|apply IH].
Qed.

Lemma merged_field_ext existing existing' (i : nat) (f : string) new :
  Forall (λ a, Spec.target existing' a = Some i ↔ Spec.target existing a = Some i) new →
  ∀ o, Spec.merged_field existing' i f o new = Spec.merged_field existing i f o new.
Proof.
  unfold Spec.merged_field. induction new as [|a new IH]; intros Hnew o; [done|].
  apply Forall_cons in Hnew as [Ha Hnew]. cbn [foldl]. rewrite (IH Hnew).
  f_equal. repeat case_decide; tauto.
Qed.

Lemma merged_field_self existing (i : nat) (f : string) a0 new :
  Forall (λ a, Spec.target existing a = Some i → a = a0) new →
  Spec.merged_field existing i f (a0 !! f) new = a0 !! f.
Proof.
  unfold Spec.merged_field. induction new as [|a new IH]; intros Hnew; [done|].
  apply Forall_cons in Hnew as [Ha Hnew]. cbn [foldl].
  case_decide as Ht; [|by apply IH]. rewrite (Ha Ht).
  replace (Spec.merge_field (a0 !! f) (a0 !! f)) with (a0 !! f); [by apply IH|].
  unfold Spec.merge_field. destruct (a0 !! f) as [v|]; [|done]. by destruct (is_none v).
Qed.

Lemma appended_fresh cs existing new :
  Forall is_Some (Spec.ids cs) → build_index 0 cs [] = Ok existing →
  Forall (λ a, is_Some (Spec.identity a)) new →
  Deck.appended existing new = Spec.fresh cs new.
Proof.
  intros Hcs Hex. unfold Deck.appended, Spec.fresh.
  induction new as [|a new IH]; intros Hnew; [done|].
  apply Forall_cons in Hnew as [[k Hk] Hnew]. rewrite !filter_cons, (IH Hnew).
  destruct (target_ids cs existing a k Hcs Hex Hk) as [Hnot Hin].
  rewrite Hk. destruct (decide (Some k ∈ Spec.ids cs)) as [Hc|Hc].
  - destruct (Hin Hc) as (p & Hp & _). rewrite decide_False by (by rewrite Hp).
    by rewrite decide_False by (by intros ?).
  - rewrite decide_True by (by apply Hnot). by rewrite decide_True.
Qed.

(** [upsert_cards] in memory, for cards and items of the data model's
    types. *)
Lemma upsert_typed_spec (m : gmap string value) cs new :
  m !! "cards" = Some (VList cs) →
  Forall is_Some (Spec.ids cs) → Forall (λ a, is_Some (Spec.identity a)) new →
  ∃ existing cs1,
    build_index 0 cs [] = Ok existing
    ∧ upsert_in_memory (VDict m) new
      = Ok (VDict (<["cards" := VList cs1]> m), Z.of_nat (length new))
    ∧ Spec.ids cs1 = Spec.ids cs ++ (Spec.identity <$> Spec.fresh cs new)
    ∧ drop (length cs) cs1 = VDict <$> Spec.fresh cs new
    ∧ (∀ i c, cs !! i = Some (VDict c) →
        ∃ c', cs1 !! i = Some (VDict c')
          ∧ ∀ f, c' !! f = Spec.merged_field existing i f (c !! f) new)
    ∧ (∀ a k, a ∈ new → Spec.identity a = Some k → Some k ∈ Spec.ids cs →
        ∃ p, Spec.target existing a = Some p ∧ Spec.ids cs !! p = Some (Some k)
          ∧ ∀ p', Spec.ids cs !! p' = Some (Some k) → (p' <= p)%nat)
    ∧ (∀ a k, a ∈ new → Spec.identity a = Some k → Some k ∉ Spec.ids cs →
        Spec.target existing a = None).
Proof.
  intros Hcards Hcs Hnew.
  assert (Spec.well_formed (VDict m) m cs) as Hwf
    by (split; [done|split; [done|by apply ids_keyed]]).
  assert (Forall Spec.keyed new) as Hkeyed.
  { eapply Forall_impl; [exact Hnew|]. intros a [k Hk]. by eapply identity_keyed. }
  destruct (upsert_in_memory_spec _ m cs new Hwf Hkeyed)
    as (existing & cs1 & Hex & Hmem & _ & Hmerge).
  destruct (upsert_in_memory_shape _ m cs new Hwf Hkeyed)
    as (ex2 & merged & Hex2 & Hmem2 & Hlen & _).
  assert (ex2 = existing) as -> by congruence.
  assert (cs1 = merged ++ (VDict <$> Deck.appended existing new)) as Hcs1.
  { rewrite Hmem in Hmem2. injection Hmem2 as Heq.
    apply (f_equal (λ m, m !! "cards")) in Heq. rewrite !lookup_insert_eq in Heq.
    congruence. }
  rewrite (appended_fresh cs existing new Hcs Hex Hnew) in Hcs1.
  destruct (upsert_loop_ids cs existing Hcs Hex new cs 0 [] Hnew) as (cs1' & Hloop & Hids);
    [by rewrite app_nil_r|].
  assert (cs1' = cs1) as ->.
  { unfold upsert_in_memory, subscript, dict_item in Hmem. rewrite Hcards in Hmem.
    cbn in Hmem. rewrite Hex in Hmem. cbn in Hmem. rewrite Hloop in Hmem. cbn in Hmem.
    injection Hmem as Heq.
    apply (f_equal (λ m, m !! "cards")) in Heq. rewrite !lookup_insert_eq in Heq.
    congruence. }
  exists existing, cs1. split; [done|]. split; [done|]. split; [done|].
  split; [rewrite Hcs1; by apply drop_app_length'|]. split; [done|]. split.
  - intros a k _ Hk Hin. unfold Spec.target. rewrite (identity_card_key a k Hk).
    destruct (build_index_last cs 0 [] existing Hcs ltac:(constructor) Hex k Hin)
      as (p & Hp & Hpk & Hlast). by exists p.
  - intros a k _ Hk Hin. by apply (target_ids cs existing a k Hcs Hex Hk).
Qed.

Lemma filter_none {A} (P : A → Prop) `{∀ x, Decision (P x)} (l : list A) :
  Forall (λ x, ¬ P x) l → filter P l = [].
Proof.
  induction l as [|x l IH]; intros Hl; [done|].
  apply Forall_cons in Hl as [Hx Hl]. by rewrite filter_cons, decide_False, IH.
Qed.

Lemma ids_length cs : length (Spec.ids cs) = length cs.
Proof. unfold Spec.ids. apply length_fmap. Qed.

Lemma fresh_identity cs new a k :
  a ∈ Spec.fresh cs new → Spec.identity a = Some k → Some k ∉ Spec.ids cs.
Proof.
  unfold Spec.fresh. intros Ha Hk. apply list_elem_of_filter in Ha as [Ha _].
  by rewrite Hk in Ha.
Qed.

(** X15. [upsert_cards] is idempotent on items with pairwise different new
    keys, for a document and items that hold no string UTF-8 cannot encode:
    the first call saves, and calling it a second time with the same items
    returns the same count and leaves the document exactly as the first call
    saved it. *)
Theorem upsert_cards_idempotent new d (m : gmap string value) cs :
  (load_db d).1 = VDict m → m !! "cards" = Some (VList cs) →
  Forall is_Some (Spec.ids cs) → Forall (λ a, is_Some (Spec.identity a)) new →
  NoDup (Spec.identity <$> Spec.fresh cs new) →
  encodable (VDict m) = true → Forall (λ a, encodable (VDict a) = true) new →
  (upsert_cards new d).1 = Ok (Z.of_nat (length new))
  ∧ upsert_cards new (upsert_cards new d).2
    = (Ok (Z.of_nat (length new)), (upsert_cards new d).2).
Proof.
  intros Hdb Hcards Hcs Hnew Hnd Henc Hitems.
  destruct (upsert_typed_spec m cs new Hcards Hcs Hnew)
    as (ex & cs1 & Hex & Hmem & Hids & Hdrop & Hmerge & Hin & Hout).
  set (m1 := <["cards" := VList cs1]> m).
  assert (encodable (VDict m1) = true) as Henc1
    by (by eapply upsert_in_memory_encodable).
  assert (upsert_cards new d
          = (Ok (Z.of_nat (length new)), mk_disk true (Some (Json (VDict m1))))) as ->.
  { apply upsert_cards_saved; [by rewrite Hdb|done|by rewrite Hdb]. }
  split; [done|]. cbn [snd].
  assert (Forall is_Some (Spec.ids cs1)) as Hcs1.
  { rewrite Hids. apply Forall_app. split; [done|]. rewrite Forall_fmap.
    unfold Spec.fresh. apply Forall_forall. intros a Ha.
    apply list_elem_of_filter in Ha as [_ Ha]. rewrite Forall_forall in Hnew. by apply Hnew. }
  assert (length cs <= length cs1)%nat as Hlen.
  { rewrite <- (ids_length cs1), <- (ids_length cs), Hids, length_app. lia. }
  assert (∀ a k, a ∈ new → Spec.identity a = Some k → Some k ∈ Spec.ids cs1) as Hall.
  { intros a k Ha Hk. rewrite Hids. apply elem_of_app.
    destruct (decide (Some k ∈ Spec.ids cs)) as [Hc|Hc]; [by left|right].
    apply list_elem_of_fmap. exists a. split; [done|].
    unfold Spec.fresh. apply list_elem_of_filter. by rewrite Hk. }
  destruct (upsert_typed_spec m1 cs1 new ltac:(by subst m1; rewrite lookup_insert_eq)
              Hcs1 Hnew)
    as (ex1 & cs2 & Hex1 & Hmem1 & Hids1 & _ & Hmerge1 & Hin1 & _).
  rewrite (upsert_cards_saved new (mk_disk true (Some (Json (VDict m1)))) _ _
             Henc1 Hitems Hmem1).
  assert (Spec.fresh cs1 new = []) as Hnone.
  { unfold Spec.fresh. apply filter_none. rewrite Forall_forall. intros a Ha Hfresh.
    rewrite Forall_forall in Hnew. destruct (Hnew a Ha) as [k Hk].
    rewrite Hk in Hfresh. by apply Hfresh, (Hall a k). }
  rewrite Hnone, app_nil_r in Hids1.
  (* the positions of the keys in the store after the first call *)
  assert (∀ a k p1, a ∈ new → Spec.identity a = Some k →
            Spec.target ex1 a = Some p1 →
            (Some k ∈ Spec.ids cs → Spec.target ex a = Some p1)
            ∧ (Some k ∉ Spec.ids cs → (length cs <= p1)%nat
                 ∧ Spec.fresh cs new !! (p1 - length cs)%nat = Some a)) as Hpos.
  { intros a k p1 Ha Hk Hp1.
    destruct (Hin1 a k Ha Hk (Hall a k Ha Hk)) as (p1' & Hp1' & Hk1 & Hlast1).
    assert (p1' = p1) as -> by congruence.
    pose proof (ids_length cs) as Hlids.
    split.
    - intros Hc. destruct (Hin a k Ha Hk Hc) as (p & Hp & Hpk & Hlast).
      rewrite Hp. f_equal.
      assert (p <= p1)%nat by (apply Hlast1; rewrite Hids; by apply lookup_app_l_Some).
      rewrite Hids in Hk1. destruct (decide (p1 < length cs)%nat) as [Hlt|Hge].
      + rewrite lookup_app_l in Hk1 by lia. apply Hlast in Hk1. lia.
      + rewrite lookup_app_r in Hk1 by lia.
        apply list_elem_of_lookup_2, list_elem_of_fmap in Hk1 as (b & Hb & Hbin).
        by destruct (fresh_identity cs new b k Hbin).
    - intros Hc. rewrite Hids in Hk1.
      assert (length cs <= p1)%nat as Hge.
      { destruct (decide (p1 < length cs)%nat) as [Hlt|Hge]; [|lia].
        rewrite lookup_app_l in Hk1 by lia. by apply list_elem_of_lookup_2 in Hk1. }
      split; [done|]. rewrite lookup_app_r, Hlids in Hk1 by lia.
      assert (a ∈ Spec.fresh cs new) as Hfa
        by (unfold Spec.fresh; apply list_elem_of_filter; by rewrite Hk).
      apply list_elem_of_lookup_1 in Hfa as [j Hj].
      assert ((Spec.identity <$> Spec.fresh cs new) !! j = Some (Some k)) as Hjk
        by (by rewrite list_lookup_fmap, Hj; cbn; rewrite Hk).
      by rewrite (NoDup_lookup _ _ _ _ Hnd Hk1 Hjk). }
  assert (cs2 = cs1) as ->; [|subst m1; by rewrite insert_insert_eq].
  assert (length cs2 = length cs1) as Hlen2.
  { by rewrite <- (ids_length cs2), <- (ids_length cs1), Hids1. }
  apply list_eq_same_length with (length cs1); [done..|].
  intros i v2 v1 Hi Hv2 Hv1.
  assert (∃ c1, v1 = VDict c1) as [c1 ->].
  { rewrite Forall_lookup in Hcs1.
    assert (Spec.ids cs1 !! i = Some (match v1 with VDict c => Spec.identity c | _ => None end))
      as Hi1 by (unfold Spec.ids; by rewrite list_lookup_fmap, Hv1).
    destruct (Hcs1 _ _ Hi1) as [k Hk]. destruct v1; try done. by eexists. }
  destruct (Hmerge1 i c1 Hv1) as (c2 & Hc2 & Hf2).
  assert (v2 = VDict c2) as -> by congruence. f_equal. apply map_eq. intros f.
  rewrite Hf2. clear Hf2 Hc2 Hv2.
  destruct (decide (i < length cs)%nat) as [Hlt|Hge].
  - destruct (lookup_lt_is_Some_2 cs i Hlt) as [v Hv].
    assert (∃ c, v = VDict c) as [c ->].
    { rewrite Forall_lookup in Hcs.
      assert (Spec.ids cs !! i = Some (match v with VDict c => Spec.identity c | _ => None end))
        as Hi0 by (unfold Spec.ids; by rewrite list_lookup_fmap, Hv).
      destruct (Hcs _ _ Hi0) as [k Hk]. destruct v; try done. by eexists. }
    destruct (Hmerge i c Hv) as (c1' & Hc1' & Hf1).
    assert (c1' = c1) as -> by congruence. rewrite Hf1.
    rewrite (merged_field_ext ex ex1); [apply merged_field_idem|].
    rewrite Forall_forall. intros a Ha. rewrite Forall_forall in Hnew.
    destruct (Hnew a Ha) as [k Hk]. split.
    + intros Ht. destruct (Hpos a k i Ha Hk Ht) as [Hyes Hno].
      destruct (decide (Some k ∈ Spec.ids cs)) as [Hc|Hc]; [by apply Hyes|].
      destruct (Hno Hc). lia.
    + intros Ht.
      destruct (decide (Some k ∈ Spec.ids cs)) as [Hc|Hc];
        [|by rewrite (Hout a k Ha Hk Hc) in Ht].
      destruct (Hin1 a k Ha Hk (Hall a k Ha Hk)) as (p1 & Hp1 & _).
      destruct (Hpos a k p1 Ha Hk Hp1) as [Hyes _]. rewrite (Hyes Hc) in Ht. congruence.
  - assert (Spec.fresh cs new !! (i - length cs)%nat = Some c1) as Hfresh.
    { assert ((VDict <$> Spec.fresh cs new) !! (i - length cs)%nat = Some (VDict c1)) as Hd.
      { rewrite <- Hdrop, lookup_drop. rewrite <- Hv1. f_equal. lia. }
      rewrite list_lookup_fmap in Hd.
      destruct (Spec.fresh cs new !! (i - length cs)%nat); cbn in Hd; by simplify_eq. }
    apply merged_field_self. rewrite Forall_forall. intros a Ha Ht.
    rewrite Forall_forall in Hnew. destruct (Hnew a Ha) as [k Hk].
    destruct (Hpos a k i Ha Hk Ht) as [Hyes Hno].
    destruct (decide (Some k ∈ Spec.ids cs)) as [Hc|Hc].
    + destruct (Hin a k Ha Hk Hc) as (p & Hp & Hpk & _). rewrite (Hyes Hc) in Hp.
      apply lookup_lt_Some in Hpk. rewrite ids_length in Hpk.
      injection Hp as ->. lia.
    + destruct (Hno Hc) as [_ Hfa]. congruence.
Qed.

(** X13. One string that UTF-8 cannot encode costs the whole store. When
    the last incoming item holds such a string in a field (a lone surrogate
    in a translation, say), on a well-formed store and items that all have a
    key, the loop gets through, [save_db] raises [UnicodeEncodeError] after
    the file has been emptied, and the next [load_db] returns the empty
    schema: the cards that were stored are gone. *)
Theorem upsert_cards_unencodable new bad d (m : gmap string value) cs (f t : string) :
  Spec.well_formed (load_db d).1 m cs → Forall Spec.keyed new → Spec.keyed bad →
  bad !! f = Some (VStr t) → str_encodable t = false →
  upsert_cards (new ++ [bad]) d
  = (Raise UnicodeEncodeError, mk_disk true (Some (Corrupt "")))
  ∧ (load_db (upsert_cards (new ++ [bad]) d).2).1 = empty_schema.
Proof.
  intros Hwf Hnew Hbad Hf Ht.
  assert (Forall Spec.keyed (new ++ [bad])) as Hall
    by (apply Forall_app; split; [done|by repeat constructor]).
  destruct (upsert_in_memory_full _ m cs (new ++ [bad]) Hwf Hall)
    as (existing & cs' & Hex & Hmem & _ & Hdrop & _ & Hmerge).
  assert (∃ c', VDict c' ∈ cs' ∧ c' !! f = Some (VStr t)) as (c' & Hin & Hc').
  { destruct (Spec.target existing bad) as [i|] eqn:Htarget.
    - assert (i < length cs)%nat as Hlt.
      { unfold Spec.target in Htarget.
        destruct (card_key bad) as [kb|]; [|done].
        by apply (build_index_bound cs 0 [] existing Hex ltac:(done) kb i Htarget). }
      destruct (lookup_lt_is_Some_2 cs i Hlt) as [v Hv].
      destruct Hwf as (_ & _ & Hcs). rewrite Forall_lookup in Hcs.
      destruct (keyed_value_dict v (Hcs i v Hv)) as [c ->].
      destruct (Hmerge i c Hv) as (c' & Hi & Hfields).
      exists c'. split; [by eapply list_elem_of_lookup_2|].
      rewrite Hfields, merged_field_snoc, decide_True by done.
      unfold Spec.merge_field. by rewrite Hf.
    - exists bad. split; [|done].
      assert (VDict bad ∈ drop (length cs) cs') as Hd.
      { rewrite Hdrop. apply list_elem_of_fmap. exists bad. split; [done|].
        unfold Deck.appended. apply list_elem_of_filter. split; [done|].
        apply elem_of_app. right. by left. }
      apply list_elem_of_lookup_1 in Hd as [j Hj]. rewrite lookup_drop in Hj.
      by eapply list_elem_of_lookup_2. }
  assert (encodable (VDict (<["cards" := VList cs']> m)) = false) as Hno.
  { apply not_true_is_false. intros Hyes.
    pose proof (encodable_lookup _ "cards" _ Hyes (lookup_insert_eq _ _ _)) as Hl.
    rewrite encodable_list, Forall_forall in Hl.
    pose proof (encodable_lookup _ f _ (Hl _ Hin) Hc') as Hs.
    cbn in Hs. congruence. }
  rewrite upsert_cards_unfold, Hmem, Hno. done.
Qed.

Lemma card_in_range_ext c c' :
  c' !! "ease" = c !! "ease" → c' !! "step" = c !! "step" →
  Spec.card_in_range c → Spec.card_in_range c'.
Proof.
  intros He Hs (e & st & Hce & Hcs & Her & Hsr). exists e, st.
  split; [|split; [|done]].
  - destruct Hce as [Hm|v e' Hv Hf];
      [apply Spec.ease_missing|eapply Spec.ease_given]; by rewrite ?He.
  - destruct Hcs as [Hm|v s' Hv Hf];
      [apply Spec.step_missing|eapply Spec.step_given]; by rewrite ?Hs.
Qed.

Lemma card_in_range_unscheduled a :
  a !! "ease" = None → a !! "step" = None → Spec.card_in_range a.
Proof.
  intros He Hs. exists DEFAULT_EASE, 0.
  split; [by apply Spec.ease_missing|]. split; [by apply Spec.step_missing|].
  split; [done|]. unfold Spec.step_in_range. change Spec.K with 5. lia.
Qed.

Lemma stored_saved (m : gmap string value) cs :
  m !! "cards" = Some (VList cs) → Deck.stored (mk_disk true (Some (Json (VDict m)))) m cs.
Proof. done. Qed.

Lemma stored_ensured d (m : gmap string value) cs : Deck.stored d m cs → Deck.stored (_ensure_file d) m cs.
Proof. intros [Hdb Hcards]. split; [|done]. by rewrite (proj2 (load_db_ensured d)). Qed.

Lemma is_due_ext now c c' :
  c' !! "due" = c !! "due" → Srs.is_due now c' = Srs.is_due now c.
Proof. intros Hd. unfold Srs.is_due, dict_get. by rewrite Hd. Qed.

Lemma is_due_unscheduled now a :
  a !! "due" = None ∨ a !! "due" = Some VNone → Srs.is_due now a = true.
Proof. unfold Srs.is_due, dict_get. by intros [-> | ->]. Qed.

(** X27. [upsert_cards] does not change which stored cards are due, and
    what it appends is due at once: for items that carry no due date, and
    when neither the document nor an item holds a string that UTF-8 cannot
    encode, every card that was in the store is due after the call exactly
    when it was due before, at any clock reading, and every card added by it
    is due. *)
Theorem upsert_cards_keeps_due now new d (m : gmap string value) cs :
  Spec.well_formed (load_db d).1 m cs → Forall Spec.keyed new →
  Forall (λ a, a !! "due" = None ∨ a !! "due" = Some VNone) new →
  encodable (load_db d).1 = true → Forall (λ a, encodable (VDict a) = true) new →
  ∃ m' cs',
    Deck.stored (upsert_cards new d).2 m' cs'
    ∧ (∀ (i : nat) v, cs !! i = Some v →
         ∃ v', cs' !! i = Some v' ∧ Deck.due_now now v' = Deck.due_now now v)
    ∧ (∀ (i : nat) v', cs' !! i = Some v' → (length cs <= i)%nat →
         Deck.due_now now v' = true).
Proof.
  intros Hwf Hkeyed Hplain Henc Hitems.
  destruct (upsert_in_memory_full _ m cs new Hwf Hkeyed)
    as (existing & cs' & Hex & Hmem & _ & Hdrop & _ & Hmerge).
  rewrite (upsert_cards_saved new d _ _ Henc Hitems Hmem). cbn [snd].
  eexists _, cs'. split; [apply stored_saved, lookup_insert_eq|]. split.
  - intros i v Hv. destruct Hwf as (_ & _ & Hcs). rewrite Forall_lookup in Hcs.
    destruct (keyed_value_dict v (Hcs i v Hv)) as [c ->].
    destruct (Hmerge i c Hv) as (c' & Hc' & Hf). exists (VDict c'). split; [done|].
    cbn [Deck.due_now]. apply is_due_ext. rewrite Hf. by apply merged_field_frame.
  - intros i v' Hv' Hge.
    assert ((VDict <$> Deck.appended existing new) !! (i - length cs)%nat = Some v') as Hd.
    { rewrite <- Hdrop, lookup_drop. rewrite <- Hv'. f_equal. lia. }
    apply list_elem_of_lookup_2, list_elem_of_fmap in Hd as (a & -> & Ha).
    unfold Deck.appended in Ha. apply list_elem_of_filter in Ha as [_ Ha].
    rewrite Forall_forall in Hplain. cbn [Deck.due_now].
    by apply is_due_unscheduled, Hplain.
Qed.

(** X17. The ranges of the data model are an invariant of the store under
    [upsert_cards] for items that carry no [ease] and no [step], as
    extraction produces them, when neither the document nor an item holds a
    string that UTF-8 cannot encode: if every stored card has its ease in
    [1.3, 3.0] and its step in [0, K-1] before the call, so has every card
    saved by it, merged or new. *)
Theorem upsert_cards_keeps_range new d (m : gmap string value) cs :
  Spec.well_formed (load_db d).1 m cs → Forall Spec.keyed new →
  Forall (λ a, a !! "ease" = None ∧ a !! "step" = None) new →
  Forall Deck.in_range cs →
  encodable (load_db d).1 = true → Forall (λ a, encodable (VDict a) = true) new →
  ∃ m' cs',
    Deck.stored (upsert_cards new d).2 m' cs' ∧ Forall Deck.in_range cs'.
Proof.
  intros Hwf Hkeyed Hplain Hr Henc Hitems.
  destruct (upsert_in_memory_full _ m cs new Hwf Hkeyed)
    as (existing & cs' & Hex & Hmem & _ & Hdrop & _ & Hmerge).
  rewrite (upsert_cards_saved new d _ _ Henc Hitems Hmem). cbn [snd].
  eexists _, cs'. split; [apply stored_saved, lookup_insert_eq|].
  rewrite Forall_lookup. intros i v' Hv'.
  destruct (decide (i < length cs)%nat) as [Hlt|Hge].
  - destruct (lookup_lt_is_Some_2 cs i Hlt) as [v Hv].
    rewrite Forall_lookup in Hr. destruct (Hr i v Hv) as (c & -> & Hc).
    destruct (Hmerge i c Hv) as (c' & Hc' & Hf).
    exists c'. split; [congruence|].
    apply (card_in_range_ext c); [| |done]; rewrite Hf; apply merged_field_frame;
      (eapply Forall_impl; [exact Hplain|]); intros a [? ?]; by left.
  - assert ((VDict <$> Deck.appended existing new) !! (i - length cs)%nat = Some v') as Hd.
    { rewrite <- Hdrop, lookup_drop. rewrite <- Hv'. f_equal. lia. }
    apply list_elem_of_lookup_2, list_elem_of_fmap in Hd as (a & -> & Ha).
    unfold Deck.appended in Ha. apply list_elem_of_filter in Ha as [_ Ha].
    rewrite Forall_forall in Hplain. destruct (Hplain a Ha) as [He Hs].
    exists a. split; [done|]. by apply card_in_range_unscheduled.
Qed.
End store_more.

(** ** The review session *)

(** What [isoformat] writes is ASCII. *)
Lemma ascii_only_app (a b : string) :
  ascii_only (a +:+ b) = ascii_only a && ascii_only b.
Proof.
  induction a as [|c a IH]; [reflexivity|].
  change (ascii_char c && ascii_only (a +:+ b)
          = ascii_char c && ascii_only a && ascii_only b).
  by rewrite IH, andb_assoc.
Qed.

Lemma digit_ascii (n : Z) : ascii_char (digit n) = true.
Proof.
  unfold digit. assert (0 <= n mod 10 < 10) as Hn by (apply Z.mod_pos_bound; lia).
  assert (∃ k, (k < 10)%nat ∧ Z.to_nat (n mod 10) = k) as (k & Hk & ->)
    by (eexists; split; [|done]; lia).
  do 10 (destruct k as [|k]; [reflexivity|]). lia.
Qed.

Lemma zfill_ascii (w : nat) : ∀ n, ascii_only (zfill w n) = true.
Proof.
  induction w as [|w IH]; intros n; [done|]. cbn [zfill].
  rewrite ascii_only_app, IH.
  change (ascii_only (String (digit n) "")) with (ascii_char (digit n) && true).
  by rewrite digit_ascii.
Qed.

Lemma isoformat_ascii (dt : datetime) : ascii_only (isoformat dt) = true.
Proof.
  assert (∀ off, ascii_only (format_offset off) = true) as Hoff.
  { intros off. unfold format_offset. cbv zeta.
    destruct (off <? 0), (_ =? 0); by rewrite !ascii_only_app, !zfill_ascii. }
  unfold isoformat, date_isoformat, time_isoformat.
  destruct (microsecond dt =? 0), (tzinfo dt);
    by rewrite !ascii_only_app, !zfill_ascii, ?Hoff.
Qed.

Section review.
Context `{Runtime}.

Implicit Types (c card item a : gmap string value) (cs l items : list value)
  (new : list (gmap string value))
  (now : datetime) (q : string) (k : string * string) (s : App.session).

Lemma due_filter_spec (now_at : nat → datetime) items : ∀ (i0 : nat),
  (Forall (λ v, Deck.is_dict v = true) items →
    ∃ l, App.due_filter now_at i0 items = Ok l
      ∧ l `sublist_of` items
      ∧ (∀ v, v ∈ l → ∃ i c, items !! i = Some v ∧ v = VDict c
                        ∧ Srs.is_due (now_at (i0 + i)%nat) c = true)
      ∧ (∀ i c, items !! i = Some (VDict c) →
           Srs.is_due (now_at (i0 + i)%nat) c = true → VDict c ∈ l))
  ∧ (Exists (λ v, Deck.is_dict v = false) items →
      App.due_filter now_at i0 items = Raise AttributeError).
Proof.
  induction items as [|v items IH]; intros i0.
  - split; [|by intros ?%Exists_nil]. intros _. exists []. cbn.
    split; [done|]. split; [done|]. split; [by intros ? ?%elem_of_nil|done].
  - destruct (IH (S i0)) as [IHok IHbad]. split.
    + intros Hall. apply Forall_cons in Hall as [Hv Hall].
      destruct v as [| | | | | |c]; try done. cbn [App.due_filter App.is_due_value].
      destruct (IHok Hall) as (l & -> & Hsub & Hdue & Hfull). cbn.
      destruct (Srs.is_due (now_at i0) c) eqn:Hc.
      * exists (VDict c :: l). split; [done|]. split; [by constructor|]. split.
        -- intros v Hin. apply elem_of_cons in Hin as [->|Hin].
           ++ exists 0%nat, c. by rewrite Nat.add_0_r.
           ++ destruct (Hdue v Hin) as (i & c' & Hi & -> & Hd).
              exists (S i), c'. by rewrite Nat.add_succ_r.
        -- intros [|i] c' Hi Hd; cbn in Hi.
           ++ simplify_eq. by left.
           ++ right. apply (Hfull i c' Hi). by rewrite Nat.add_succ_r in Hd.
      * exists l. split; [done|]. split; [by constructor|]. split.
        -- intros v Hin. destruct (Hdue v Hin) as (i & c' & Hi & -> & Hd).
           exists (S i), c'. by rewrite Nat.add_succ_r.
        -- intros [|i] c' Hi Hd; cbn in Hi.
           ++ simplify_eq. rewrite Nat.add_0_r in Hd. congruence.
           ++ apply (Hfull i c' Hi). by rewrite Nat.add_succ_r in Hd.
    + intros Hbad. cbn [App.due_filter].
      destruct v as [| | | | | |c]; try done. cbn [App.is_due_value].
      apply Exists_cons in Hbad as [Hbad|Hbad]; [done|].
      rewrite (IHbad Hbad). done.
Qed.

(** X18. The cards of a review session: at most [REVIEW_BATCH_SIZE] cards
    of the store, in the order of the store, each of them due at the clock
    reading of its check, and all the due cards when there are fewer than
    [REVIEW_BATCH_SIZE] of them. A stored element that is not an object makes
    the computation raise [AttributeError], wherever it stands in the
    store. *)
Theorem due_cards_batch (now_at : nat → datetime) (m : gmap string value) cs :
  m !! "cards" = Some (VList cs) →
  (Forall (λ v, Deck.is_dict v = true) cs →
    ∃ l, App.due_cards now_at (VDict m) = Ok l
      ∧ (length l <= REVIEW_BATCH_SIZE)%nat
      ∧ l `sublist_of` cs
      ∧ (∀ v, v ∈ l → ∃ i c, cs !! i = Some v ∧ v = VDict c
                        ∧ Srs.is_due (now_at i) c = true)
      ∧ ((length l < REVIEW_BATCH_SIZE)%nat →
          ∀ i c, cs !! i = Some (VDict c) → Srs.is_due (now_at i) c = true →
                 VDict c ∈ l))
  ∧ (Exists (λ v, Deck.is_dict v = false) cs →
      App.due_cards now_at (VDict m) = Raise AttributeError).
Proof.
  intros Hcards. unfold App.due_cards, subscript, dict_item. rewrite Hcards. cbn.
  destruct (due_filter_spec now_at cs 0) as [Hok Hbad]. split.
  - intros Hall. destruct (Hok Hall) as (l & -> & Hsub & Hdue & Hfull). cbn.
    exists (take REVIEW_BATCH_SIZE l). split; [done|].
    split; [rewrite length_take; lia|].
    split; [etrans; [apply sublist_take|done]|]. split.
    + intros v Hin. apply Hdue. by eapply elem_of_take in Hin as (i & ?%list_elem_of_lookup_2 & _).
    + rewrite length_take. intros Hlt i c Hi Hd.
      rewrite take_ge by lia. by eapply Hfull.
  - intros Hex. by rewrite (Hbad Hex).
Qed.

Lemma same_card_identity c card k1 k2 :
  Spec.identity c = Some k1 → Spec.identity card = Some k2 →
  App.same_card (VDict c) card = Ok (bool_decide (k1 = k2)).
Proof.
  unfold Spec.identity, App.same_card, dict_item, lower.
  destruct (c !! "term") as [[| | | |t| |]|]; try done.
  destruct (dict_get_or c "lang" _) as [| | | |lc| |]; try done.
  destruct (card !! "term") as [[| | | |t'| |]|]; try done.
  destruct (dict_get_or card "lang" _) as [| | | |lk| |]; try done.
  intros [= <-] [= <-]. cbn. f_equal.
  destruct (String.eqb_spec (str_lower t) (str_lower t')) as [->|Hne],
           (String.eqb_spec lc lk) as [->|Hne']; cbn;
    (by rewrite bool_decide_eq_true_2) || (rewrite bool_decide_eq_false_2; [done|congruence]).
Qed.

(** The loop of [_grade] stops at the first card with the identity of the
    graded one. *)
Lemma grade_loop_first now card q k items : ∀ (j : nat),
  Forall is_Some (Spec.ids items) → Spec.identity card = Some k →
  (Some k ∉ Spec.ids items → App.grade_loop now card q j items = Ok None)
  ∧ (∀ (p : nat) c, items !! p = Some (VDict c) → Spec.identity c = Some k →
       (∀ p', (p' < p)%nat → Spec.ids items !! p' ≠ Some (Some k)) →
       App.grade_loop now card q j items
       = (c' ← Srs.schedule_next now c q; Ok (Some ((j + p)%nat, c')))).
Proof.
  induction items as [|v items IH]; intros j Hitems Hk.
  - split; [done|]. intros p c Hp. by rewrite lookup_nil in Hp.
  - cbn in Hitems. apply Forall_cons in Hitems as [[kv Hv] Hitems].
    destruct v as [| | | | | |cv]; try done. cbn in Hv.
    destruct (IH (S j) Hitems Hk) as [IHnone IHsome].
    cbn [App.grade_loop]. rewrite (same_card_identity cv card kv k Hv Hk). cbn.
    cbn [Spec.ids fmap list_fmap]. fold (Spec.ids items). rewrite Hv. split.
    + intros Hnot. apply not_elem_of_cons in Hnot as [Hne Hnot].
      rewrite bool_decide_eq_false_2 by congruence. by apply IHnone.
    + intros [|p] c Hp Hc Hfirst; cbn in Hp.
      * simplify_eq. rewrite bool_decide_eq_true_2 by congruence.
        by rewrite Nat.add_0_r.
      * rewrite bool_decide_eq_false_2.
        -- rewrite (IHsome p c Hp Hc); [by rewrite Nat.add_succ_r|].
           intros p' Hp'. apply (Hfirst (S p')). lia.
        -- intros ->. by apply (Hfirst 0%nat ltac:(lia)).
Qed.

(** The three ways [_grade] ends: it returns with the document saved and
    the session moved on, it raises in [save_db] with the file emptied, or it
    raises before [save_db] with the disk as [load_db] left it. *)
Lemma grade_unfold now card q s :
  App._grade now card q s
  = match App.grade_in_memory now card q (load_db (App.store s)).1 with
    | Ok db2 =>
        if encodable db2
        then (Ok (), App.mk_session (mk_disk true (Some (Json db2))) (App.review_idx s + 1))
        else (Raise UnicodeEncodeError,
              App.mk_session (mk_disk true (Some (Corrupt ""))) (App.review_idx s))
    | Raise e => (Raise e, App.mk_session (_ensure_file (App.store s)) (App.review_idx s))
    end.
Proof.
  unfold App._grade. rewrite <- load_db_snd. destruct (load_db _) as [db d]. cbn.
  destruct (App.grade_in_memory _ _ _ _) as [db2|]; [|done].
  destruct (encodable db2) eqn:Hdb2; [by rewrite save_db_ok|by rewrite save_db_raise].
Qed.

(** [schedule_next] writes two numbers and an ASCII text. *)
Lemma schedule_next_encodable now c q c' :
  encodable (VDict c) = true → Srs.schedule_next now c q = Ok c' →
  encodable (VDict c') = true.
Proof.
  intros Hc Hret.
  apply schedule_next_inv in Hret as (e & st & days & nd & _ & _ & _ & _ & ->).
  apply encodable_insert; [done| |].
  { cbn. unfold str_encodable. by rewrite isoformat_ascii. }
  apply encodable_insert; [done..|]. by apply encodable_insert.
Qed.

Lemma encodable_graded now (m : gmap string value) cs (p : nat) c q c' :
  encodable (VDict m) = true → m !! "cards" = Some (VList cs) →
  cs !! p = Some (VDict c) → Srs.schedule_next now c q = Ok c' →
  encodable (VDict (<["cards" := VList (<[p := VDict c']> cs)]> m)) = true.
Proof.
  intros Hm Hcards Hp Hret.
  pose proof (encodable_lookup m "cards" _ Hm Hcards) as Hcs.
  rewrite encodable_list in Hcs.
  apply encodable_insert; [done| |done].
  apply encodable_list, Forall_insert; [done|].
  eapply schedule_next_encodable; [|done].
  rewrite Forall_lookup in Hcs. by apply (Hcs p).
Qed.

Lemma grade_in_memory_spec now card q (m : gmap string value) cs k :
  m !! "cards" = Some (VList cs) → Forall is_Some (Spec.ids cs) →
  Spec.identity card = Some k →
  (Some k ∉ Spec.ids cs → App.grade_in_memory now card q (VDict m) = Ok (VDict m))
  ∧ (∀ (p : nat) c, cs !! p = Some (VDict c) → Spec.identity c = Some k →
       (∀ p', (p' < p)%nat → Spec.ids cs !! p' ≠ Some (Some k)) →
       App.grade_in_memory now card q (VDict m)
       = (c' ← Srs.schedule_next now c q;
          Ok (VDict (<["cards" := VList (<[p := VDict c']> cs)]> m)))).
Proof.
  intros Hcards Hcs Hk.
  unfold App.grade_in_memory, subscript, dict_item. rewrite Hcards. cbn.
  destruct (grade_loop_first now card q k cs 0 Hcs Hk) as [Hnone Hsome]. split.
  - intros Hnot. by rewrite (Hnone Hnot).
  - intros p c Hp Hc Hfirst. rewrite (Hsome p c Hp Hc Hfirst).
    by destruct (Srs.schedule_next now c q).
Qed.

(** X19. [_grade] reschedules one card: the first card of the store whose
    identity key is that of the card shown. When the document holds no string
    that UTF-8 cannot encode, it is saved with the result of [schedule_next]
    at that position and everything else as it was, and the session moves to
    the next position; when [schedule_next] raises, [_grade] raises, nothing
    is saved and the position stays. *)
Theorem grade_first_match now card q s (m : gmap string value) cs k (p : nat) c :
  Deck.stored (App.store s) m cs → Forall is_Some (Spec.ids cs) →
  encodable (VDict m) = true →
  Spec.identity card = Some k →
  cs !! p = Some (VDict c) → Spec.identity c = Some k →
  (∀ p', (p' < p)%nat → Spec.ids cs !! p' ≠ Some (Some k)) →
  App._grade now card q s
  = match Srs.schedule_next now c q with
    | Ok c' =>
        (Ok (),
         App.mk_session
           (mk_disk true (Some (Json (VDict (<["cards" := VList (<[p := VDict c']> cs)]> m)))))
           (App.review_idx s + 1))
    | Raise e => (Raise e, App.mk_session (_ensure_file (App.store s)) (App.review_idx s))
    end.
Proof.
  intros [Hdb Hcards] Hcs Henc Hk Hp Hc Hfirst. rewrite grade_unfold, Hdb.
  destruct (grade_in_memory_spec now card q m cs k Hcards Hcs Hk) as [_ Hsome].
  rewrite (Hsome p c Hp Hc Hfirst).
  destruct (Srs.schedule_next now c q) as [c'|] eqn:Hret; [|done].
  cbn [mbind result_bind]. by rewrite (encodable_graded now m cs p c q c').
Qed.

(** X20. When no stored card has the identity key of the card shown,
    [_grade] saves the document as it was, provided it holds no string that
    UTF-8 cannot encode, and still moves the session to the next position. *)
Theorem grade_no_match now card q s (m : gmap string value) cs k :
  Deck.stored (App.store s) m cs → Forall is_Some (Spec.ids cs) →
  encodable (VDict m) = true →
  Spec.identity card = Some k → Some k ∉ Spec.ids cs →
  App._grade now card q s
  = (Ok (), App.mk_session (mk_disk true (Some (Json (VDict m)))) (App.review_idx s + 1)).
Proof.
  intros [Hdb Hcards] Hcs Henc Hk Hnot. rewrite grade_unfold, Hdb.
  destruct (grade_in_memory_spec now card q m cs k Hcards Hcs Hk) as [Hnone _].
  by rewrite (Hnone Hnot), Henc.
Qed.

Lemma grade_loop_raise now card q items : ∀ (j p : nat) v (e : exn),
  items !! p = Some v → App.same_card v card = Raise e →
  (∀ p', (p' < p)%nat → ∃ v', items !! p' = Some v' ∧ App.same_card v' card = Ok false) →
  App.grade_loop now card q j items = Raise e.
Proof.
  induction items as [|v0 items IH]; intros j p v e Hp Hv Hbefore; [done|].
  cbn [App.grade_loop]. destruct p as [|p]; cbn in Hp.
  - simplify_eq. by rewrite Hv.
  - destruct (Hbefore 0%nat ltac:(lia)) as (v' & Hv' & Hsame). cbn in Hv'. simplify_eq.
    rewrite Hsame. cbn. apply (IH (S j) p v e Hp Hv).
    intros p' Hp'. apply (Hbefore (S p')). lia.
Qed.

(** X28. The loop of [_grade] reads the cards of the store in order up to
    the match. A stored element before it on which the comparison raises (no
    [term], a [term] that is not a string, not an object) makes [_grade]
    raise that exception, [KeyError] for a missing [term] and [TypeError] for
    an element that is not an object; nothing is saved and the session stays
    at its position. *)
Theorem grade_bad_store now card q s (m : gmap string value) cs (p : nat) v (e : exn) :
  Deck.stored (App.store s) m cs →
  cs !! p = Some v → App.same_card v card = Raise e →
  (∀ p', (p' < p)%nat → ∃ v', cs !! p' = Some v' ∧ App.same_card v' card = Ok false) →
  App._grade now card q s
  = (Raise e, App.mk_session (_ensure_file (App.store s)) (App.review_idx s))
  ∧ (∀ c, v = VDict c → c !! "term" = None → e = KeyError)
  ∧ ((∀ c, v ≠ VDict c) → e = TypeError).
Proof.
  intros [Hdb Hcards] Hp Hv Hbefore. split; [|split].
  - rewrite grade_unfold, Hdb.
    unfold App.grade_in_memory, subscript, dict_item. rewrite Hcards. cbn.
    by rewrite (grade_loop_raise now card q cs 0 p v e Hp Hv Hbefore).
  - intros c -> Hc. unfold App.same_card, dict_item in Hv. rewrite Hc in Hv.
    cbn in Hv. congruence.
  - intros Hnd. destruct v as [| | | | | |c]; cbn in Hv; congruence.
Qed.

Lemma first_position (cs : list value) k :
  Some k ∈ Spec.ids cs →
  ∃ p, Spec.ids cs !! p = Some (Some k)
    ∧ ∀ p', (p' < p)%nat → Spec.ids cs !! p' ≠ Some (Some k).
Proof.
  induction (Spec.ids cs) as [|x l IH]; intros Hin; [by apply elem_of_nil in Hin|].
  destruct (decide (x = Some k)) as [->|Hne].
  - exists 0%nat. split; [done|]. intros p' Hp'. lia.
  - apply elem_of_cons in Hin as [Heq|Hin]; [congruence|].
    destruct (IH Hin) as (p & Hp & Hfirst). exists (S p). split; [done|].
    intros [|p'] Hp'; cbn; [congruence|]. apply Hfirst. lia.
Qed.

Lemma schedule_next_identity now c q c' :
  Srs.schedule_next now c q = Ok c' → Spec.identity c' = Spec.identity c.
Proof.
  intros Hret. unfold Spec.identity, dict_get_or.
  by rewrite !(schedule_next_other_fields now c q c' _ Hret).
Qed.

Lemma ids_insert cs (p : nat) c c' :
  cs !! p = Some (VDict c) → Spec.identity c' = Spec.identity c →
  Spec.ids (<[p := VDict c']> cs) = Spec.ids cs.
Proof.
  intros Hp Hid. unfold Spec.ids. rewrite list_fmap_insert. cbn. rewrite Hid.
  apply list_insert_id. by rewrite list_lookup_fmap, Hp.
Qed.

(** What [_grade] leaves behind, whatever its outcome. *)
Lemma grade_outcome now card q s (m : gmap string value) cs k :
  Deck.stored (App.store s) m cs → Forall is_Some (Spec.ids cs) →
  encodable (VDict m) = true →
  Spec.identity card = Some k →
  (App._grade now card q s).2 = App.mk_session (_ensure_file (App.store s)) (App.review_idx s)
  ∨ (App._grade now card q s).2
    = App.mk_session (mk_disk true (Some (Json (VDict m)))) (App.review_idx s + 1)
  ∨ ∃ (p : nat) c c',
      cs !! p = Some (VDict c) ∧ Srs.schedule_next now c q = Ok c'
      ∧ (App._grade now card q s).2
        = App.mk_session
            (mk_disk true (Some (Json (VDict (<["cards" := VList (<[p := VDict c']> cs)]> m)))))
            (App.review_idx s + 1).
Proof.
  intros [Hdb Hcards] Hcs Henc Hk. rewrite grade_unfold, Hdb.
  destruct (grade_in_memory_spec now card q m cs k Hcards Hcs Hk) as [Hnone Hsome].
  destruct (decide (Some k ∈ Spec.ids cs)) as [Hin|Hnot].
  - destruct (first_position cs k Hin) as (p & Hp & Hfirst).
    destruct (ids_lookup_dict cs p k Hp) as (c & Hc & Hck).
    rewrite (Hsome p c Hc Hck Hfirst).
    destruct (Srs.schedule_next now c q) as [c'|e] eqn:Hret; [|by left].
    cbn [mbind result_bind]. rewrite (encodable_graded now m cs p c q c') by done.
    right; right. by exists p, c, c'.
  - right; left. by rewrite (Hnone Hnot), Henc.
Qed.

Lemma in_range_insert cs (p : nat) c' :
  Forall Deck.in_range cs → Spec.card_in_range c' →
  Forall Deck.in_range (<[p := VDict c']> cs).
Proof. intros Hcs Hc'. apply Forall_insert; [done|]. by exists c'. Qed.

(** X21. Grading keeps the store in shape when the document holds no string
    that UTF-8 cannot encode: whether [_grade] returns or [schedule_next]
    makes it raise, the document afterwards has the same top-level fields
    apart from [cards], the same number of cards and the same identity keys
    at the same positions, and when every card had its ease in [1.3, 3.0]
    and its step in [0, K-1] before, every card has afterwards. *)
Theorem grade_keeps_store now card q s (m : gmap string value) cs k :
  Deck.stored (App.store s) m cs → Forall is_Some (Spec.ids cs) →
  encodable (VDict m) = true →
  Spec.identity card = Some k →
  ∃ m' cs',
    Deck.stored (App.store (App._grade now card q s).2) m' cs'
    ∧ (∀ f, f ≠ "cards" → m' !! f = m !! f)
    ∧ length cs' = length cs
    ∧ Spec.ids cs' = Spec.ids cs
    ∧ (Forall Deck.in_range cs → Forall Deck.in_range cs').
Proof.
  intros Hdeck Hcs Henc Hk.
  destruct (grade_outcome now card q s m cs k Hdeck Hcs Henc Hk)
    as [->|[->|(p & c & c' & Hp & Hret & ->)]]; cbn [App.store].
  - exists m, cs. split; [by apply stored_ensured|done].
  - exists m, cs. split; [apply stored_saved, Hdeck|done].
  - eexists _, _. split; [apply stored_saved, lookup_insert_eq|].
    split; [intros f Hf; by rewrite lookup_insert_ne|].
    split; [by rewrite length_insert|].
    split; [eapply ids_insert; [done|by eapply schedule_next_identity]|].
    intros Hr. apply in_range_insert; [done|].
    eapply schedule_next_in_range; [|done].
    rewrite Forall_lookup in Hr. destruct (Hr p _ Hp) as (c0 & [= <-] & Hc0). done.
Qed.

(** X22. On a store whose cards are within the ranges of the data model and
    whose document holds no string that UTF-8 cannot encode, [_grade] does
    not raise before the year 9999, for any grade string and any card shown:
    it returns and moves the session by one position. *)
Theorem grade_returns now card q s (m : gmap string value) cs k :
  Deck.stored (App.store s) m cs → Forall is_Some (Spec.ids cs) →
  encodable (VDict m) = true →
  Spec.identity card = Some k →
  Forall Deck.in_range cs → Spec.clock_ok now →
  (App._grade now card q s).1 = Ok ()
  ∧ App.review_idx (App._grade now card q s).2 = App.review_idx s + 1.
Proof.
  intros [Hdb Hcards] Hcs Henc Hk Hr Hnow. rewrite grade_unfold, Hdb.
  destruct (grade_in_memory_spec now card q m cs k Hcards Hcs Hk) as [Hnone Hsome].
  destruct (decide (Some k ∈ Spec.ids cs)) as [Hin|Hnot];
    [|by rewrite (Hnone Hnot), Henc].
  destruct (first_position cs k Hin) as (p & Hp & Hfirst).
  destruct (ids_lookup_dict cs p k Hp) as (c & Hc & Hck).
  rewrite (Hsome p c Hc Hck Hfirst).
  rewrite Forall_lookup in Hr. destruct (Hr p _ Hc) as (c0 & [= <-] & e & st & He & Hs & _ & Hsr).
  destruct (schedule_next_ok now c q e st He Hs Hsr Hnow) as [c' Hret]. rewrite Hret.
  cbn [mbind result_bind]. by rewrite (encodable_graded now m cs p c q c').
Qed.

Lemma ids_is_dict cs : Forall is_Some (Spec.ids cs) → Forall (λ v, Deck.is_dict v = true) cs.
Proof.
  unfold Spec.ids. rewrite Forall_fmap. intros Hcs.
  eapply Forall_impl; [exact Hcs|]. intros v [k Hk]. cbn in Hk. by destruct v.
Qed.

Lemma due_filter_const now items : ∀ (i : nat),
  Forall (λ v, Deck.is_dict v = true) items →
  App.due_filter (λ _, now) i items = Ok (filter (λ v, Deck.due_now now v = true) items).
Proof.
  induction items as [|v items IH]; intros i Hall; [done|].
  apply Forall_cons in Hall as [Hv Hall]. destruct v as [| | | | | |c]; try done.
  cbn [App.due_filter App.is_due_value]. rewrite (IH (S i) Hall), filter_cons.
  cbn [Deck.due_now mbind result_bind].
  destruct (Srs.is_due now c); [by rewrite decide_True|by rewrite decide_False].
Qed.

Lemma due_cards_const now (m : gmap string value) cs :
  m !! "cards" = Some (VList cs) → Forall (λ v, Deck.is_dict v = true) cs →
  App.due_cards (λ _, now) (VDict m)
  = Ok (take REVIEW_BATCH_SIZE (filter (λ v, Deck.due_now now v = true) cs)).
Proof.
  intros Hcards Hcs. unfold App.due_cards, subscript, dict_item. rewrite Hcards. cbn.
  by rewrite (due_filter_const now cs 0 Hcs).
Qed.

(** X23. Grading takes a card out of the day's review: the first stored
    card that has the identity key of the card shown. When that card was due
    and its rescheduled version is not due at the same clock reading, and the
    document holds no string that UTF-8 cannot encode, the due cards computed
    from the saved document are the due cards computed before without that
    card, so every due card behind it moves one position forward. *)
Theorem grade_removes_from_due now card q s (m : gmap string value) cs k (p : nat) c c' :
  Deck.stored (App.store s) m cs → Forall is_Some (Spec.ids cs) →
  encodable (VDict m) = true →
  Spec.identity card = Some k →
  cs !! p = Some (VDict c) → Spec.identity c = Some k →
  (∀ p', (p' < p)%nat → Spec.ids cs !! p' ≠ Some (Some k)) →
  Srs.schedule_next now c q = Ok c' →
  Srs.is_due now c = true → Srs.is_due now c' = false →
  let due := filter (λ v, Deck.due_now now v = true) in
  let m' := <["cards" := VList (<[p := VDict c']> cs)]> m in
  (load_db (App.store (App._grade now card q s).2)).1 = VDict m'
  ∧ App.due_cards (λ _, now) (VDict m)
    = Ok (take REVIEW_BATCH_SIZE (due (take p cs) ++ VDict c :: due (drop (S p) cs)))
  ∧ App.due_cards (λ _, now) (VDict m')
    = Ok (take REVIEW_BATCH_SIZE (due (take p cs) ++ due (drop (S p) cs))).
Proof.
  intros [Hdb Hcards] Hcs Henc Hk Hp Hc Hfirst Hret Hdue Hnot due m'.
  rewrite grade_unfold, Hdb.
  destruct (grade_in_memory_spec now card q m cs k Hcards Hcs Hk) as [_ Hsome].
  rewrite (Hsome p c Hp Hc Hfirst), Hret. cbn [mbind result_bind].
  rewrite (encodable_graded now m cs p c q c' Henc Hcards Hp Hret).
  cbn [snd App.store]. split; [done|].
  pose proof (ids_is_dict cs Hcs) as Hdicts.
  rewrite (due_cards_const now m cs Hcards Hdicts).
  subst m'.
  rewrite (due_cards_const now _ (<[p := VDict c']> cs) (lookup_insert_eq _ _ _));
    [|by apply Forall_insert].
  rewrite insert_take_drop by (by eapply lookup_lt_Some).
  rewrite <- (take_drop_middle cs p (VDict c) Hp) at 1.
  subst due. rewrite !filter_app, !filter_cons. cbn [Deck.due_now]. rewrite Hdue, Hnot.
  by rewrite decide_True, decide_False.
Qed.
End review.

(** ** Extracted vocabulary *)

Section extraction.
Context `{Runtime} `{Agent.TextRuntime}.

Implicit Types (a : gmap string value) (data cs : list value)
  (items : list (gmap string value)) (lang raw : string).

Lemma attach_lang_spec lang data :
  (Forall (λ v, Deck.is_dict v = true) data →
    ∃ items, Agent.attach_lang lang data = Ok items
      ∧ Forall2 (λ v a, ∃ d, v = VDict d ∧ a = <["lang" := VStr lang]> d) data items)
  ∧ (Exists (λ v, Deck.is_dict v = false) data → Agent.attach_lang lang data = Raise TypeError).
Proof.
  induction data as [|v data [IHok IHbad]].
  - split; [intros _; by exists []|by intros ?%Exists_nil].
  - split.
    + intros Hall. apply Forall_cons in Hall as [Hv Hall].
      destruct v as [| | | | | |d]; try done. cbn [Agent.attach_lang].
      destruct (IHok Hall) as (items & -> & Hitems). cbn.
      eexists. split; [done|]. constructor; [by exists d|done].
    + intros Hbad. destruct v as [| | | | | |d]; try done.
      apply Exists_cons in Hbad as [Hbad|Hbad]; [done|].
      cbn [Agent.attach_lang]. by rewrite (IHbad Hbad).
Qed.

(** X24. The items [extract_vocab_json] returns are the objects of the array
    it read from the model's answer, one for one, each with its [lang] set to
    the detected language (a [lang] the model supplied is overwritten) and
    its other fields unchanged; an item whose [term] is a string therefore
    has the identity key [(lowercase(term), detected language)]. *)
Theorem extract_vocab_json_lang lang raw items :
  Agent.extract_vocab_json lang raw = Ok items →
  length items = length (Agent.parse_vocab raw)
  ∧ Forall (λ a, a !! "lang" = Some (VStr lang)
                 ∧ (∀ t, a !! "term" = Some (VStr t) →
                      Spec.identity a = Some (str_lower t, lang)
                      ∧ Spec.keyed a)) items
  ∧ ∀ i a, items !! i = Some a →
      ∃ d, Agent.parse_vocab raw !! i = Some (VDict d)
        ∧ ∀ f, f ≠ "lang" → a !! f = d !! f.
Proof.
  unfold Agent.extract_vocab_json. intros Hret.
  destruct (attach_lang_spec lang (Agent.parse_vocab raw)) as [Hok Hbad].
  destruct (decide (Forall (λ v, Deck.is_dict v = true) (Agent.parse_vocab raw))) as [Hall|Hnot].
  - destruct (Hok Hall) as (items' & Hret' & Hitems).
    assert (items' = items) as -> by congruence.
    split; [symmetry; by eapply Forall2_length|]. split.
    + apply Forall_forall. intros a Ha.
      apply list_elem_of_lookup_1 in Ha as [i Hi].
      destruct (Forall2_lookup_r _ _ _ _ _ Hitems Hi) as (v & _ & d & -> & ->).
      split; [by rewrite lookup_insert_eq|].
      intros t Ht.
      assert (Spec.identity (<["lang" := VStr lang]> d) = Some (str_lower t, lang)) as Hid.
      { unfold Spec.identity, dict_get_or. by rewrite Ht, lookup_insert_eq. }
      split; [done|]. unfold Spec.keyed. by rewrite (identity_card_key _ _ Hid).
    + intros i a Hi.
      destruct (Forall2_lookup_r _ _ _ _ _ Hitems Hi) as (v & Hv & d & -> & ->).
      exists d. split; [done|]. intros f Hf. by rewrite lookup_insert_ne.
  - apply not_Forall_Exists in Hnot; [|apply _].
    rewrite Hbad in Hret; [done|].
    eapply Exists_impl; [exact Hnot|]. intros v. cbn. by destruct (Deck.is_dict v).
Qed.

Lemma extracted_identity lang raw items :
  Agent.extract_vocab_json lang raw = Ok items →
  Forall (λ a, is_Some (Deck.lower_term a)) items →
  Forall (λ a, ∃ t, Deck.lower_term a = Some t ∧ Spec.identity a = Some (t, lang)) items.
Proof.
  unfold Agent.extract_vocab_json. intros Hret Hterms.
  destruct (attach_lang_spec lang (Agent.parse_vocab raw)) as [Hok Hbad].
  destruct (decide (Forall (λ v, Deck.is_dict v = true) (Agent.parse_vocab raw)))
    as [Hall|Hnot].
  - destruct (Hok Hall) as (items' & Hret' & Hitems).
    assert (items' = items) as -> by congruence.
    apply Forall_forall. intros a Ha. rewrite Forall_forall in Hterms.
    destruct (Hterms a Ha) as [t Ht]. exists t. split; [done|].
    apply list_elem_of_lookup_1 in Ha as [i Hi].
    destruct (Forall2_lookup_r _ _ _ _ _ Hitems Hi) as (v & _ & d0 & -> & ->).
    unfold Deck.lower_term in Ht. unfold Spec.identity, dict_get_or.
    rewrite lookup_insert_eq.
    destruct (<["lang":=VStr lang]> d0 !! "term") as [[]|]; cbn in *; by simplify_eq.
  - apply not_Forall_Exists in Hnot; [|apply _].
    rewrite Hbad in Hret; [done|].
    eapply Exists_impl; [exact Hnot|]. intros v. cbn. by destruct (Deck.is_dict v).
Qed.

(** X29. Saving what was extracted keeps the store free of duplicate keys
    exactly when the model returned no new term twice: for items returned by
    [extract_vocab_json] whose terms are all strings, and a store of typed
    cards without duplicate keys, neither of them holding a string that UTF-8
    cannot encode, [upsert_cards] returns the number of items, and the saved
    store is free of duplicate keys if and only if the items whose key was
    not in the store have pairwise different lowercase terms. *)
Theorem extracted_items_unique lang raw items (d : disk) (m : gmap string value) cs :
  Agent.extract_vocab_json lang raw = Ok items →
  Forall (λ a, is_Some (Deck.lower_term a)) items →
  (load_db d).1 = VDict m → m !! "cards" = Some (VList cs) →
  Forall is_Some (Spec.ids cs) → NoDup (Spec.ids cs) →
  encodable (VDict m) = true → Forall (λ a, encodable (VDict a) = true) items →
  ∃ cs',
    upsert_cards items d
    = (Ok (Z.of_nat (length items)),
       mk_disk true (Some (Json (VDict (<["cards" := VList cs']> m)))))
    ∧ (NoDup (Spec.ids cs') ↔ NoDup (Deck.lower_term <$> Spec.fresh cs items)).
Proof.
  intros Hret Hterms Hdb Hcards Hcs Hnd Henc Hitems.
  pose proof (extracted_identity lang raw items Hret Hterms) as Hid.
  assert (Forall (λ a, is_Some (Spec.identity a)) items) as Htyped.
  { eapply Forall_impl; [exact Hid|]. intros a (t & _ & Ha). by eexists. }
  destruct (upsert_typed_spec m cs items Hcards Hcs Htyped)
    as (ex & cs' & _ & Hmem & Hids & _).
  exists cs'. rewrite <- Hdb in Henc, Hmem.
  rewrite (upsert_cards_saved items d _ _ Henc Hitems Hmem). split; [done|].
  assert (Spec.identity <$> Spec.fresh cs items
          = (λ o, t ← o; Some (t, lang)) <$> (Deck.lower_term <$> Spec.fresh cs items)) as Hmap.
  { rewrite <- list_fmap_compose. apply list_fmap_ext. intros i a Ha.
    apply list_elem_of_lookup_2 in Ha. unfold Spec.fresh in Ha.
    apply list_elem_of_filter in Ha as [_ Ha]. rewrite Forall_forall in Hid.
    destruct (Hid a Ha) as (t & Ht & Hi). cbn. by rewrite Ht, Hi. }
  rewrite Hids, NoDup_app. split.
  - intros (_ & _ & Hf). rewrite Hmap in Hf. by apply NoDup_fmap_1 in Hf.
  - intros Hf. split; [done|]. split.
    + intros x Hx Hx'. apply list_elem_of_fmap in Hx' as (a & -> & Ha).
      unfold Spec.fresh in Ha. by apply list_elem_of_filter in Ha as [Ha _].
    + rewrite Hmap. apply NoDup_fmap_2_strong; [|done].
      intros o1 o2 Ho1 Ho2 Heq.
      apply list_elem_of_fmap in Ho1 as (a1 & -> & Ha1).
      apply list_elem_of_fmap in Ho2 as (a2 & -> & Ha2).
      unfold Spec.fresh in Ha1, Ha2.
      apply list_elem_of_filter in Ha1 as [_ Ha1]. apply list_elem_of_filter in Ha2 as [_ Ha2].
      rewrite Forall_forall in Hid.
      destruct (Hid a1 Ha1) as (t1 & Ht1 & _). destruct (Hid a2 Ha2) as (t2 & Ht2 & _).
      rewrite Ht1, Ht2 in Heq |- *. cbn in Heq. congruence.
Qed.
End extraction.

(** ** The claims on concrete inputs *)

(** Scenario C of the specification: ease 2.5 and step 1 graded "easy" give
    step 3 and the ease [2.5 + 0.05]. *)
Lemma schedule_next_transition_witness :
  ∃ card', Srs.schedule_next (H:=Sample.runtime) Example.now Example.graded "easy" = Ok card'
    ∧ card' !! "ease" = Some (VFloat (2.5 + 0.05)) ∧ card' !! "step" = Some (VInt 3).
Proof.
  destruct (schedule_next_transition (H:=Sample.runtime)
              Example.now Example.graded "easy" 2.5 1) as [Hret Hok].
  - apply (Spec.ease_given _ (VFloat 2.5)); reflexivity.
  - apply (Spec.step_given _ (VInt 1)); reflexivity.
  - destruct Hok as [card' Hc].
    + unfold Spec.step_in_range. change Spec.K with 5. lia.
    + split; reflexivity.
    + exists card'. split; [exact Hc|]. exact (Hret card' Hc).
Defined.

(** The due field written for a never-graded card graded "good" on 2026-11-03
    carries a time of day: it is not the date-only text ["2026-11-06"]. *)
Lemma schedule_next_due_has_time_of_day :
  ∃ card', Srs.schedule_next (H:=Sample.runtime) Example.now Example.haus "good" = Ok card'
    ∧ card' !! "due" = Some (VStr "2026-11-06T00:00:00")
    ∧ card' !! "due" ≠ Some (VStr (date_isoformat 2026 11 6)).
Proof.
  eexists. split; [vm_compute; reflexivity|]. split; [reflexivity|]. vm_compute. congruence.
Qed.

Lemma schedule_next_due_witness :
  ∃ card', Srs.schedule_next (H:=Sample.runtime) Example.now Example.graded "easy" = Ok card'
    ∧ card' !! "due" = Some (VStr "2026-11-17T00:00:00").
Proof.
  destruct (schedule_next_due (H:=Sample.runtime) Example.now Example.graded "easy")
    as [Hret Hok].
  destruct (Hok 2.5%float 1) as [card' Hc].
  - apply (Spec.ease_given _ (VFloat 2.5)); reflexivity.
  - apply (Spec.step_given _ (VInt 1)); reflexivity.
  - unfold Spec.step_in_range. change Spec.K with 5. lia.
  - split; reflexivity.
  - exists card'. split; [exact Hc|].
    destruct (Hret card' Hc) as (step' & days & nd & _).
    revert Hc. vm_compute. intros [= <-]. reflexivity.
Defined.


(** A due value on the day of the clock reading with a time of day after
    midnight: the card is not due on that day, at half past ten and at the
    last second of the day alike. *)
Lemma is_due_later_today :
  ∃ due, fromisoformat (H:=Sample.runtime) (dict_get Scenario.due_at_noon "due") = Ok due
    ∧ toordinal due = toordinal Example.now
    ∧ Srs.is_due (H:=Sample.runtime) Example.now Scenario.due_at_noon = false
    ∧ Srs.is_due (H:=Sample.runtime) (mk_datetime 2026 11 3 23 59 59 0 None)
        Scenario.due_at_noon = false.
Proof.
  eexists. split; [vm_compute; reflexivity|]. split; [reflexivity|].
  split; vm_compute; reflexivity.
Qed.


(** Three "again" in a row and then five "easy" keep the card within its
    bounds. *)
Lemma schedule_next_keeps_range_witness :
  ∃ card', Spec.schedule_seq (H:=Sample.runtime) Example.graded
             ((λ q, (Example.now, q)) <$>
                ["again"; "again"; "again"; "easy"; "easy"; "easy"; "easy"; "easy"])
           = Ok card'
    ∧ Spec.card_in_range (H:=Sample.runtime) card'.
Proof.
  destruct (schedule_next_keeps_range (H:=Sample.runtime) Example.graded) as [_ Hseq].
  - exists 2.5%float, 1. split; [apply (Spec.ease_given _ (VFloat 2.5)); reflexivity|].
    split; [apply (Spec.step_given _ (VInt 1)); reflexivity|].
    split; [split; reflexivity|]. unfold Spec.step_in_range. change Spec.K with 5. lia.
  - apply Hseq. repeat constructor.
Defined.

Lemma schedule_next_index_in_bounds_witness :
  ∃ s0, Spec.step_of (H:=Sample.runtime) Example.graded s0
    ∧ 0 <= (Srs.grade "hard" s0 2.5).1 < Spec.K
    ∧ is_ok (list_item SRS_INTERVALS_DAYS (Srs.grade "hard" s0 2.5).1) = true.
Proof.
  destruct (schedule_next_index_in_bounds (H:=Sample.runtime) Example.graded "hard")
    as (s0 & Hs0 & Hidx & _).
  - right. exists 1. split; [reflexivity|]. change Spec.K with 5. lia.
  - exists s0. split; [exact Hs0|]. exact (Hidx 2.5%float).
Defined.

(** The "hard" branch uses the stored step as it is: a step past the end of
    the ladder makes the subscript raise. *)
Lemma schedule_next_hard_off_ladder :
  Srs.schedule_next (H:=Sample.runtime) Example.now Example.off_ladder "hard"
  = Raise IndexError.
Proof. reflexivity. Qed.

(** C1, on the code. Two incoming items with the same identity key that is
    not yet in the store are both appended: the index of existing keys is
    built once, before the loop, and is not extended when an item is
    appended. *)
Theorem upsert_cards_duplicate_in_call :
  (upsert_cards (H:=Sample.runtime) [Example.haus; Example.haus] Example.no_file).1 = Ok 2
  ∧ db_file (upsert_cards (H:=Sample.runtime) [Example.haus; Example.haus] Example.no_file).2
    = Some (Json (VDict {[ "lessons" := VList [];
                           "cards" := VList [VDict Example.haus; VDict Example.haus] ]}))
  ∧ Spec.identity_unique (H:=Sample.runtime) []
  ∧ ¬ Spec.identity_unique (H:=Sample.runtime) [VDict Example.haus; VDict Example.haus].
Proof.
  split; [reflexivity|]. split; [vm_compute; reflexivity|]. split.
  - intros i j ci cj ki kj Hi. by rewrite lookup_nil in Hi.
  - intros Hu.
    specialize (Hu 0%nat 1%nat (VDict Example.haus) (VDict Example.haus)
                  ("haus", VStr "German") ("haus", VStr "German")).
    discriminate Hu; reflexivity.
Qed.

Lemma upsert_cards_count_witness :
  (upsert_cards (H:=Sample.runtime) [Example.haus_again; Example.haus; Example.haus]
     Example.graded_store).1 = Ok 3.
Proof.
  destruct (upsert_cards_count (H:=Sample.runtime)
              [Example.haus_again; Example.haus; Example.haus] Example.graded_store
              {[ "lessons" := VList []; "cards" := VList [VDict Example.graded] ]}
              [VDict Example.graded])
    as (_ & _ & Hret).
  - split; [reflexivity|]. split; [reflexivity|]. repeat constructor.
  - repeat constructor.
  - apply Hret; [vm_compute; reflexivity|repeat constructor].
Defined.

(** Scenario D of the specification: the term extracted again overwrites the
    translation and leaves [ease], [step] and [due] as they were. *)
Lemma upsert_cards_merge_witness :
  ∃ cs' c', db_file (upsert_cards (H:=Sample.runtime) [Example.haus_again]
                       Example.graded_store).2
            = Some (Json (VDict {[ "lessons" := VList []; "cards" := VList cs' ]}))
    ∧ cs' !! 0%nat = Some (VDict c')
    ∧ c' !! "ease" = Some (VFloat 2.5) ∧ c' !! "step" = Some (VInt 1)
    ∧ c' !! "due" = Some (VStr "2026-11-01T00:00:00")
    ∧ c' !! "translation" = Some (VStr "home") ∧ c' !! "pos" = None.
Proof.
  destruct (upsert_cards_merge (H:=Sample.runtime) [Example.haus_again] Example.graded_store
              {[ "lessons" := VList []; "cards" := VList [VDict Example.graded] ]}
              [VDict Example.graded])
    as (existing & cs' & Hex & _ & Hsaved & _ & Hmerge).
  - split; [reflexivity|]. split; [reflexivity|]. repeat constructor.
  - repeat constructor.
  - destruct (Hmerge 0%nat Example.graded eq_refl) as (c' & Hc' & Hf & Hframe).
    exists cs', c'.
    split; [rewrite Hsaved; [do 3 f_equal; vm_compute; reflexivity
                            |vm_compute; reflexivity|repeat constructor]|].
    split; [exact Hc'|].
    injection Hex as <-.
    split; [rewrite Hframe; [reflexivity|repeat constructor]|].
    split; [rewrite Hframe; [reflexivity|repeat constructor]|].
    split; [rewrite Hframe; [reflexivity|repeat constructor]|].
    split; rewrite Hf; reflexivity.
Defined.

Lemma upsert_cards_missing_term_witness :
  ∃ e, (upsert_cards (H:=Sample.runtime) [Example.haus_again; Example.nameless]
          Example.graded_store).1 = Raise e
    ∧ (upsert_cards (H:=Sample.runtime) [Example.haus_again; Example.nameless]
         Example.graded_store).2 = Example.graded_store.
Proof.
  destruct (upsert_cards_missing_term (H:=Sample.runtime)
              [Example.haus_again; Example.nameless] Example.graded_store)
    as (e & He & Hd & _).
  - exists Example.nameless. split; [|reflexivity]. apply elem_of_cons. right. apply elem_of_cons. by left.
  - exists e. split; [exact He|]. rewrite Hd. reflexivity.
Defined.

(** ** The further properties on concrete inputs *)

(** Grading leaves the term and the language of a card alone. *)
Lemma schedule_next_frame_witness :
  Srs.schedule_next (H:=Sample.runtime) Example.now Example.graded "good"
  = Ok Scenario.graded_good
  ∧ Scenario.graded_good !! "term" = Some (VStr "Haus")
  ∧ Scenario.graded_good !! "lang" = Some (VStr "German").
Proof.
  assert (Srs.schedule_next (H:=Sample.runtime) Example.now Example.graded "good"
          = Ok Scenario.graded_good) as Hret by (vm_compute; reflexivity).
  split; [exact Hret|].
  destruct (schedule_next_frame (H:=Sample.runtime) Example.now Example.graded "good"
              Scenario.graded_good Hret) as [Hframe _].
  split; (rewrite Hframe by discriminate; reflexivity).
Defined.

Lemma schedule_next_null_field_witness :
  Srs.schedule_next (H:=Sample.runtime) Example.now Scenario.null_ease "good"
  = Raise TypeError.
Proof.
  apply (proj1 (schedule_next_null_field (H:=Sample.runtime) Example.now Scenario.null_ease
                  "good" VNone (or_introl eq_refl))).
  reflexivity.
Defined.

(** A step stored as [-1] and graded "hard" schedules the last interval of
    the ladder. *)
Lemma schedule_next_negative_step_witness :
  ∃ card' days next_due,
    Srs.schedule_next (H:=Sample.runtime) Example.now Scenario.wrapped "hard" = Ok card'
    ∧ card' !! "step" = Some (VInt (-1))
    ∧ SRS_INTERVALS_DAYS !! 4%nat = Some days
    ∧ card' !! "due" = Some (VStr (isoformat next_due))
    ∧ toordinal next_due = toordinal Example.now + days.
Proof.
  apply (schedule_next_negative_step (H:=Sample.runtime) Example.now Scenario.wrapped "hard"
           2.5 (-1)).
  - apply (Spec.ease_given _ (VFloat 2.5)); reflexivity.
  - apply (Spec.step_given _ (VInt (-1))); reflexivity.
  - split; reflexivity.
  - vm_compute. split; [discriminate|reflexivity].
Defined.

Lemma schedule_seq_reaches_top_witness :
  ∃ card', Spec.schedule_seq (H:=Sample.runtime) Example.haus
             ((λ q, (Example.now, q)) <$> ["good"; "easy"; "perfect"; "good"])
           = Ok card'
    ∧ Spec.step_of (H:=Sample.runtime) card' 4.
Proof.
  apply (schedule_seq_reaches_top (H:=Sample.runtime) Example.haus).
  - exists 2.5%float, 0. split; [apply Spec.ease_missing; reflexivity|].
    split; [apply Spec.step_missing; reflexivity|].
    split; [split; reflexivity|]. unfold Spec.step_in_range. change Spec.K with 5. lia.
  - repeat constructor.
  - repeat constructor; discriminate.
  - apply Nat.leb_le. reflexivity.
Defined.

(** The card due on 2026-11-01 is still due on 2026-12-24. *)
Lemma is_due_monotone_witness :
  Srs.is_due (H:=Sample.runtime) Scenario.later Example.graded = true.
Proof.
  apply (is_due_monotone (H:=Sample.runtime) Example.now Scenario.later Example.graded).
  - reflexivity.
  - reflexivity.
  - vm_compute. discriminate.
  - reflexivity.
Defined.

(** A never-graded card graded "good" on 2026-11-03 is not due that day and
    is due on 2026-12-24. *)
Lemma schedule_next_then_is_due_witness :
  Srs.schedule_next (H:=Sample.runtime) Example.now Example.haus "good"
  = Ok Scenario.haus_good
  ∧ Srs.is_due (H:=Sample.runtime) Example.now Scenario.haus_good = false
  ∧ Srs.is_due (H:=Sample.runtime) Scenario.later Scenario.haus_good = true.
Proof.
  assert (Srs.schedule_next (H:=Sample.runtime) Example.now Example.haus "good"
          = Ok Scenario.haus_good) as Hret by (vm_compute; reflexivity).
  split; [exact Hret|].
  destruct (schedule_next_then_is_due (H:=Sample.runtime) Example.now Example.haus "good"
              Scenario.haus_good eq_refl Hret)
    as (step' & days & nd & Hstep & Hdays & _ & Hadd & _ & Hround).
  assert (step' = 1) as -> by (vm_compute in Hstep; congruence).
  assert (days = 3) as -> by (vm_compute in Hdays; congruence).
  assert (nd = mk_datetime 2026 11 6 0 0 0 0 None) as ->
    by (vm_compute in Hadd; congruence).
  destruct (Hround ltac:(vm_compute; reflexivity)) as [Hnow Hlater].
  split; [exact Hnow|].
  apply (Hlater Scenario.later eq_refl). vm_compute. discriminate.
Defined.

Lemma graded_in_range : Spec.card_in_range (H:=Sample.runtime) Example.graded.
Proof.
  exists 2.5%float, 1. split; [apply (Spec.ease_given _ (VFloat 2.5)); reflexivity|].
  split; [apply (Spec.step_given _ (VInt 1)); reflexivity|].
  split; [split; reflexivity|]. unfold Spec.step_in_range. change Spec.K with 5. lia.
Defined.

(** Nine "again" bring the ease 2.5 to 1.3, thirty-five "easy" to 3.0. *)
Lemma schedule_seq_again_floor_witness :
  ∃ card', Spec.schedule_seq (H:=Sample.runtime) Example.graded
             ((λ now, (now, "again")) <$> replicate 9 Example.now) = Ok card'
    ∧ Spec.ease_of (H:=Sample.runtime) card' 1.3
    ∧ Spec.step_of (H:=Sample.runtime) card' 0.
Proof.
  apply (schedule_seq_again_floor (H:=Sample.runtime) Example.graded (replicate 9 Example.now)).
  - exact graded_in_range.
  - apply Forall_replicate. split; reflexivity.
  - apply Nat.leb_le. reflexivity.
Defined.

Lemma schedule_seq_easy_ceiling_witness :
  ∃ card', Spec.schedule_seq (H:=Sample.runtime) Example.graded
             ((λ now, (now, "easy")) <$> replicate 35 Example.now) = Ok card'
    ∧ Spec.ease_of (H:=Sample.runtime) card' 3.0
    ∧ Spec.step_of (H:=Sample.runtime) card' 4.
Proof.
  apply (schedule_seq_easy_ceiling (H:=Sample.runtime) Example.graded
           (replicate 35 Example.now)).
  - exact graded_in_range.
  - apply Forall_replicate. split; reflexivity.
  - apply Nat.leb_le. reflexivity.
Defined.

Lemma graded_store_well_formed :
  Spec.well_formed (H:=Sample.runtime) (load_db Example.graded_store).1
    (Scenario.document [VDict Example.graded]) [VDict Example.graded].
Proof. split; [reflexivity|]. split; [reflexivity|]. repeat constructor. Defined.

(** The term extracted again and a new one: the stored card stays first and
    the new one is put behind it. *)
Lemma upsert_cards_shape_witness :
  ∃ cs' m',
    upsert_cards (H:=Sample.runtime) [Example.haus_again; Scenario.baum] Example.graded_store
    = (Ok 2, mk_disk true (Some (Json (VDict m'))))
    ∧ m' !! "cards" = Some (VList cs')
    ∧ m' !! "lessons" = Some (VList [])
    ∧ length cs' = 2%nat
    ∧ drop 1 cs' = [VDict Scenario.baum].
Proof.
  destruct (upsert_cards_shape (H:=Sample.runtime) [Example.haus_again; Scenario.baum]
              Example.graded_store (Scenario.document [VDict Example.graded])
              [VDict Example.graded])
    as (existing & cs' & m' & Hex & Hup & Hcards & Hframe & Hlen & Hdrop & _).
  - exact graded_store_well_formed.
  - repeat constructor.
  - vm_compute. reflexivity.
  - repeat constructor.
  - assert (existing = [(("haus", VStr "German"), 0%nat)]) as ->
      by (vm_compute in Hex; congruence).
    exists cs', m'. split; [exact Hup|]. split; [exact Hcards|].
    split; [by rewrite Hframe|]. split; [exact Hlen|exact Hdrop].
Defined.

Lemma upsert_cards_fresh_store_witness :
  upsert_cards (H:=Sample.runtime) [Example.haus; Scenario.baum] Example.no_file
  = (Ok 2, Scenario.store_of [VDict Example.haus; VDict Scenario.baum]).
Proof.
  apply (upsert_cards_fresh_store (H:=Sample.runtime) [Example.haus; Scenario.baum]
           Example.no_file).
  - left. reflexivity.
  - repeat constructor.
  - repeat constructor.
Defined.

Lemma upsert_calls_return_witness :
  (Deck.upsert_calls (H:=Sample.runtime)
     [[Example.haus]; [Example.haus_again; Scenario.baum]; []] Example.no_file).1
  = [Ok 1; Ok 2; Ok 0].
Proof.
  apply (upsert_calls_return (H:=Sample.runtime)
           [[Example.haus]; [Example.haus_again; Scenario.baum]; []]
           ltac:(repeat constructor) ltac:(repeat constructor)
           Example.no_file (Scenario.document []) []).
  - split; [reflexivity|]. split; [reflexivity|]. constructor.
  - vm_compute. reflexivity.
Defined.

Lemma upsert_cards_first_bad_item_witness :
  upsert_cards (H:=Sample.runtime) [Example.haus_again; Example.nameless; Scenario.baum]
    Example.graded_store
  = (Raise KeyError, Example.graded_store).
Proof.
  destruct (upsert_cards_first_bad_item (H:=Sample.runtime) [Example.haus_again]
              Example.nameless [Scenario.baum] Example.graded_store
              (Scenario.document [VDict Example.graded]) [VDict Example.graded])
    as (e & Hup & _ & Hkey & _).
  - exact graded_store_well_formed.
  - repeat constructor.
  - discriminate.
  - rewrite (Hkey eq_refl) in Hup. exact Hup.
Defined.

Lemma upsert_cards_bad_store_witness :
  ∃ e, upsert_cards (H:=Sample.runtime) [Scenario.baum] (Scenario.store_of Scenario.with_nameless)
       = (Raise e, Scenario.store_of Scenario.with_nameless).
Proof.
  destruct (upsert_cards_bad_store (H:=Sample.runtime) [Scenario.baum]
              (Scenario.store_of Scenario.with_nameless)
              (Scenario.document Scenario.with_nameless) Scenario.with_nameless)
    as (e & Hup & _).
  - reflexivity.
  - reflexivity.
  - apply Exists_cons. right. apply Exists_cons. left. discriminate.
  - exists e. exact Hup.
Defined.

(** A translation with a lone surrogate behind a good item: the call raises
    and the stored card is lost. *)
Lemma upsert_cards_unencodable_witness :
  upsert_cards (H:=Sample.runtime) [Example.haus_again; Scenario.garbled]
    Example.graded_store
  = (Raise UnicodeEncodeError, mk_disk true (Some (Corrupt "")))
  ∧ (load_db (upsert_cards (H:=Sample.runtime) [Example.haus_again; Scenario.garbled]
                Example.graded_store).2).1
    = empty_schema.
Proof.
  apply (upsert_cards_unencodable (H:=Sample.runtime) [Example.haus_again] Scenario.garbled
           Example.graded_store (Scenario.document [VDict Example.graded])
           [VDict Example.graded] "translation" Scenario.surrogate).
  - exact graded_store_well_formed.
  - repeat constructor.
  - reflexivity.
  - reflexivity.
  - reflexivity.
Defined.

(** With the key of "Haus" on two cards, the term extracted again is merged
    into the second. *)
Lemma upsert_cards_merges_into_last_witness :
  ∃ c, Scenario.same_key_twice !! 1%nat = Some (VDict c)
    ∧ upsert_cards (H:=Sample.runtime) [Example.haus_again]
        (Scenario.store_of Scenario.same_key_twice)
      = (Ok 1, mk_disk true
                 (Some (Json (VDict (<["cards" :=
                    VList (<[1%nat := VDict (dict_update c (non_null Example.haus_again))]>
                             Scenario.same_key_twice)]>
                    (Scenario.document Scenario.same_key_twice)))))).
Proof.
  destruct (upsert_cards_merges_into_last (H:=Sample.runtime) Example.haus_again
              (Scenario.store_of Scenario.same_key_twice)
              (Scenario.document Scenario.same_key_twice) Scenario.same_key_twice
              ("haus", "German"))
    as (p & c & Hp & _ & Hlast & Hup).
  - reflexivity.
  - reflexivity.
  - repeat constructor; by eexists.
  - reflexivity.
  - apply elem_of_cons. left. reflexivity.
  - vm_compute. reflexivity.
  - vm_compute. reflexivity.
  - assert (p = 1%nat) as ->.
    { pose proof (Hlast 1%nat eq_refl). apply lookup_lt_Some in Hp. cbn in Hp. lia. }
    exists c. split; [exact Hp|exact Hup].
Defined.

Lemma upsert_cards_idempotent_witness :
  upsert_cards (H:=Sample.runtime) [Example.haus_again; Scenario.baum]
    (upsert_cards (H:=Sample.runtime) [Example.haus_again; Scenario.baum]
       Example.graded_store).2
  = (Ok 2, (upsert_cards (H:=Sample.runtime) [Example.haus_again; Scenario.baum]
              Example.graded_store).2).
Proof.
  apply (upsert_cards_idempotent (H:=Sample.runtime) [Example.haus_again; Scenario.baum]
           Example.graded_store (Scenario.document [VDict Example.graded])
           [VDict Example.graded]).
  - reflexivity.
  - reflexivity.
  - repeat constructor; by eexists.
  - repeat constructor; by eexists.
  - assert (Spec.identity (H:=Sample.runtime)
              <$> Spec.fresh (H:=Sample.runtime) [VDict Example.graded]
                    [Example.haus_again; Scenario.baum]
            = [Some ("baum", "German")]) as -> by (vm_compute; reflexivity).
    apply NoDup_singleton.
  - vm_compute. reflexivity.
  - repeat constructor.
Defined.

Lemma upsert_cards_identities_witness :
  ∃ cs', db_file (upsert_cards (H:=Sample.runtime) [Example.haus_again; Scenario.baum]
                    Example.graded_store).2
         = Some (Json (VDict (<["cards" := VList cs']>
                                (Scenario.document [VDict Example.graded]))))
    ∧ Spec.ids (H:=Sample.runtime) cs' = [Some ("haus", "German"); Some ("baum", "German")].
Proof.
  destruct (upsert_cards_identities (H:=Sample.runtime) [Example.haus_again; Scenario.baum]
              Example.graded_store (Scenario.document [VDict Example.graded])
              [VDict Example.graded])
    as (cs' & _ & Hfile & Hids & _).
  - reflexivity.
  - reflexivity.
  - repeat constructor; by eexists.
  - repeat constructor; by eexists.
  - vm_compute. reflexivity.
  - repeat constructor.
  - exists cs'. split; [exact Hfile|]. rewrite Hids. vm_compute. reflexivity.
Defined.

Lemma upsert_cards_keeps_range_witness :
  ∃ m' cs',
    Deck.stored (upsert_cards (H:=Sample.runtime) [Example.haus_again; Scenario.baum]
            Example.graded_store).2 m' cs'
    ∧ Forall (Deck.in_range (H:=Sample.runtime)) cs'.
Proof.
  apply (upsert_cards_keeps_range (H:=Sample.runtime) [Example.haus_again; Scenario.baum]
           Example.graded_store (Scenario.document [VDict Example.graded])
           [VDict Example.graded]).
  - exact graded_store_well_formed.
  - repeat constructor.
  - repeat constructor.
  - constructor; [|constructor]. exists Example.graded. split; [reflexivity|].
    exact graded_in_range.
  - vm_compute. reflexivity.
  - repeat constructor.
Defined.

Lemma upsert_cards_keeps_due_witness :
  ∃ m' cs',
    Deck.stored (upsert_cards (H:=Sample.runtime) [Example.haus_again; Scenario.baum]
                   (Scenario.store_of Scenario.two_cards)).2 m' cs'
    ∧ (∀ (i : nat) v, Scenario.two_cards !! i = Some v →
         ∃ v', cs' !! i = Some v'
           ∧ Deck.due_now (H:=Sample.runtime) Example.now v'
             = Deck.due_now (H:=Sample.runtime) Example.now v)
    ∧ (∀ (i : nat) v', cs' !! i = Some v' → (2 <= i)%nat →
         Deck.due_now (H:=Sample.runtime) Example.now v' = true).
Proof.
  apply (upsert_cards_keeps_due (H:=Sample.runtime) Example.now
           [Example.haus_again; Scenario.baum] (Scenario.store_of Scenario.two_cards)
           (Scenario.document Scenario.two_cards) Scenario.two_cards).
  - split; [reflexivity|]. split; [reflexivity|]. repeat constructor.
  - repeat constructor.
  - repeat constructor.
  - vm_compute. reflexivity.
  - repeat constructor.
Defined.

Lemma due_cards_batch_witness :
  ∃ l, App.due_cards (H:=Sample.runtime) (λ _, Example.now)
         (VDict (Scenario.document Scenario.two_cards)) = Ok l
    ∧ (length l <= REVIEW_BATCH_SIZE)%nat
    ∧ l `sublist_of` Scenario.two_cards.
Proof.
  destruct (due_cards_batch (H:=Sample.runtime) (λ _, Example.now)
              (Scenario.document Scenario.two_cards) Scenario.two_cards eq_refl)
    as [Hok _].
  destruct Hok as (l & Hl & Hlen & Hsub & _); [repeat constructor|].
  exists l. split; [exact Hl|]. split; [exact Hlen|exact Hsub].
Defined.

(** With the key of "Haus" on two cards, grading reschedules the first. *)
Lemma grade_first_match_witness :
  App._grade (H:=Sample.runtime) Example.now Example.haus "good"
    (App.mk_session (Scenario.store_of Scenario.same_key_twice) 0)
  = (Ok (),
     App.mk_session
       (Scenario.store_of [VDict Scenario.graded_good; VDict Example.haus]) 1).
Proof.
  rewrite (grade_first_match (H:=Sample.runtime) Example.now Example.haus "good"
             (App.mk_session (Scenario.store_of Scenario.same_key_twice) 0)
             (Scenario.document Scenario.same_key_twice) Scenario.same_key_twice
             ("haus", "German") 0%nat Example.graded).
  - vm_compute. reflexivity.
  - split; reflexivity.
  - repeat constructor; by eexists.
  - vm_compute. reflexivity.
  - reflexivity.
  - reflexivity.
  - reflexivity.
  - intros p' Hp'. lia.
Defined.

Lemma grade_no_match_witness :
  App._grade (H:=Sample.runtime) Example.now Scenario.baum "good"
    (App.mk_session Example.graded_store 3)
  = (Ok (), App.mk_session Example.graded_store 4).
Proof.
  apply (grade_no_match (H:=Sample.runtime) Example.now Scenario.baum "good"
           (App.mk_session Example.graded_store 3)
           (Scenario.document [VDict Example.graded]) [VDict Example.graded]
           ("baum", "German")).
  - split; reflexivity.
  - repeat constructor; by eexists.
  - vm_compute. reflexivity.
  - reflexivity.
  - vm_compute. intros Hin. apply elem_of_cons in Hin as [Heq|Hin]; [discriminate|].
    by apply elem_of_nil in Hin.
Defined.

Lemma grade_bad_store_witness :
  App._grade (H:=Sample.runtime) Example.now Scenario.baum "good"
    (App.mk_session (Scenario.store_of Scenario.with_nameless) 0)
  = (Raise KeyError, App.mk_session (Scenario.store_of Scenario.with_nameless) 0).
Proof.
  apply (grade_bad_store (H:=Sample.runtime) Example.now Scenario.baum "good"
           (App.mk_session (Scenario.store_of Scenario.with_nameless) 0)
           (Scenario.document Scenario.with_nameless) Scenario.with_nameless
           1%nat (VDict Example.nameless) KeyError).
  - split; reflexivity.
  - reflexivity.
  - reflexivity.
  - intros p' Hp'. assert (p' = 0%nat) as -> by lia.
    exists (VDict Example.graded). split; reflexivity.
Defined.

Lemma grade_keeps_store_witness :
  ∃ m' cs',
    Deck.stored (App.store (App._grade (H:=Sample.runtime) Example.now Example.haus "easy"
                       (App.mk_session (Scenario.store_of Scenario.two_cards) 0)).2) m' cs'
    ∧ length cs' = 2%nat
    ∧ Spec.ids (H:=Sample.runtime) cs' = Spec.ids (H:=Sample.runtime) Scenario.two_cards.
Proof.
  destruct (grade_keeps_store (H:=Sample.runtime) Example.now Example.haus "easy"
              (App.mk_session (Scenario.store_of Scenario.two_cards) 0)
              (Scenario.document Scenario.two_cards) Scenario.two_cards ("haus", "German"))
    as (m' & cs' & Hdeck & _ & Hlen & Hids & _).
  - split; reflexivity.
  - repeat constructor; by eexists.
  - vm_compute. reflexivity.
  - reflexivity.
  - exists m', cs'. split; [exact Hdeck|]. split; [exact Hlen|exact Hids].
Defined.

Lemma grade_returns_witness :
  (App._grade (H:=Sample.runtime) Example.now Example.haus "hard"
     (App.mk_session Example.graded_store 0)).1 = Ok ().
Proof.
  apply (grade_returns (H:=Sample.runtime) Example.now Example.haus "hard"
           (App.mk_session Example.graded_store 0)
           (Scenario.document [VDict Example.graded]) [VDict Example.graded]
           ("haus", "German")).
  - split; reflexivity.
  - repeat constructor; by eexists.
  - vm_compute. reflexivity.
  - reflexivity.
  - constructor; [|constructor]. exists Example.graded. split; [reflexivity|].
    exact graded_in_range.
  - split; reflexivity.
Defined.

(** Of the two due cards, the one that was graded is gone from the list. *)
Lemma grade_removes_from_due_witness :
  App.due_cards (H:=Sample.runtime) (λ _, Example.now)
    (VDict (Scenario.document Scenario.same_key_twice))
  = Ok [VDict Example.graded; VDict Example.haus]
  ∧ App.due_cards (H:=Sample.runtime) (λ _, Example.now)
      (VDict (<["cards" := VList (<[0%nat := VDict Scenario.graded_good]>
                                    Scenario.same_key_twice)]>
                (Scenario.document Scenario.same_key_twice)))
    = Ok [VDict Example.haus].
Proof.
  destruct (grade_removes_from_due (H:=Sample.runtime) Example.now Example.haus "good"
              (App.mk_session (Scenario.store_of Scenario.same_key_twice) 0)
              (Scenario.document Scenario.same_key_twice) Scenario.same_key_twice
              ("haus", "German") 0%nat Example.graded Scenario.graded_good)
    as (_ & Hold & Hnew).
  - split; reflexivity.
  - repeat constructor; by eexists.
  - vm_compute. reflexivity.
  - reflexivity.
  - reflexivity.
  - reflexivity.
  - intros p' Hp'. lia.
  - vm_compute. reflexivity.
  - vm_compute. reflexivity.
  - vm_compute. reflexivity.
  - split.
    + rewrite Hold. vm_compute. reflexivity.
    + rewrite Hnew. vm_compute. reflexivity.
Defined.

Lemma extract_vocab_json_lang_witness :
  ∃ items, Agent.extract_vocab_json (H:=Scenario.text_runtime) "German" "[{}]" = Ok items
    ∧ length items = 1%nat
    ∧ Forall (λ a, a !! "lang" = Some (VStr "German")) items.
Proof.
  destruct (Agent.extract_vocab_json (H:=Scenario.text_runtime) "German" "[{}]")
    as [items|e] eqn:Hret; [|vm_compute in Hret; discriminate].
  destruct (extract_vocab_json_lang (H:=Sample.runtime) (H0:=Scenario.text_runtime)
              "German" "[{}]" items Hret) as (Hlen & Hlang & _).
  exists items. split; [reflexivity|]. split; [exact Hlen|].
  eapply Forall_impl; [exact Hlang|]. intros a [Ha _]. exact Ha.
Defined.

(** An answer with the one new term "Baum" is saved without a duplicate. *)
Lemma extracted_items_unique_witness :
  ∃ items cs',
    Agent.extract_vocab_json (H:=Scenario.text_runtime) "German" Scenario.answer = Ok items
    ∧ upsert_cards (H:=Sample.runtime) items Example.graded_store
      = (Ok 1, mk_disk true
                 (Some (Json (VDict (<["cards" := VList cs']>
                                       (Scenario.document [VDict Example.graded]))))))
    ∧ NoDup (Spec.ids (H:=Sample.runtime) cs').
Proof.
  assert (Agent.extract_vocab_json (H:=Scenario.text_runtime) "German" Scenario.answer
          = Ok [ {[ "term" := VStr "Baum"; "lang" := VStr "German" ]} ]) as Hret
    by (vm_compute; reflexivity).
  destruct (extracted_items_unique (H:=Sample.runtime) (H0:=Scenario.text_runtime)
              "German" Scenario.answer _ Example.graded_store
              (Scenario.document [VDict Example.graded]) [VDict Example.graded] Hret)
    as (cs' & Hup & Hnd).
  - repeat constructor; by eexists.
  - reflexivity.
  - reflexivity.
  - repeat constructor; by eexists.
  - apply NoDup_singleton.
  - vm_compute. reflexivity.
  - repeat constructor.
  - eexists _, cs'. split; [exact Hret|]. split; [exact Hup|].
    apply Hnd. vm_compute. apply NoDup_singleton.
Defined.
